(** * Gomoku AI: board model, pattern evaluator, move generator, search.

    A shallow embedding of [gomoku_game.py] and [gomoku_ai.py].

    - The numpy board of shape [(N, N)] is its row-major buffer, a
      [list Z] of length [N * N]; cell [(r, c)] sits at index [r * N + c].
    - In-place writes [game.board[r, c] = v] are list updates, and every
      function that writes to the board returns the board it leaves behind.
    - Python's builtin [hash] and the wall clock are the environment of the
      search: both are variables of the section that defines it. *)

From Stdlib Require Import ZArith List Bool Lia.
From stdpp Require Import base option list list_numbers gmap sorting.
Import ListNotations.

Open Scope Z_scope.

(** ** gomoku_game.py *)

Record GomokuGame := {
  board_size : Z;
  board : list Z
}.

(** [0 <= row < self.board_size and 0 <= col < self.board_size] *)
Definition in_bounds (g : GomokuGame) (r c : Z) : bool :=
  (0 <=? r) && (r <? board_size g) && (0 <=? c) && (c <? board_size g).

Definition cell_index (g : GomokuGame) (r c : Z) : nat :=
  Z.to_nat (r * board_size g + c).

(** [game.board[r, c]] *)
Definition cell (g : GomokuGame) (r c : Z) : Z :=
  nth (cell_index g r c) (board g) 0.

(** [game.board[r, c] = v] *)
Definition set_cell (g : GomokuGame) (r c v : Z) : GomokuGame :=
  {| board_size := board_size g;
     board := <[cell_index g r c := v]> (board g) |}.

(** [np.zeros((board_size, board_size), dtype=int)] *)
Definition new_game (n : Z) : GomokuGame :=
  {| board_size := n; board := replicate (Z.to_nat (n * n)) 0 |}.

(** The shape invariant of the numpy array. *)
Definition well_formed (g : GomokuGame) : Prop :=
  0 <= board_size g /\
  length (board g) = Z.to_nat (board_size g * board_size g).

(** [for r in range(n): for c in range(n)], in row-major order. *)
Definition coords (n : Z) : list (Z * Z) :=
  r ← seqZ 0 n; c ← seqZ 0 n; [(r, c)].

Definition is_valid_move (g : GomokuGame) (r c : Z) : bool :=
  if in_bounds g r c then cell g r c =? 0 else false.

Definition get_valid_moves (g : GomokuGame) : list (Z * Z) :=
  filter (fun rc => cell g rc.1 rc.2 = 0) (coords (board_size g)).

(** [np.nonzero(game.board)]: the cells holding a stone, row-major. *)
Definition nonzero (g : GomokuGame) : list (Z * Z) :=
  filter (fun rc => cell g rc.1 rc.2 ≠ 0) (coords (board_size g)).

(** ** gomoku_ai.py: the evaluator *)

(** The one-character tags of a scanned line: ["X"], ["O"], ["."], ["B"]. *)
Inductive mark := TX | TO | TDot | TB.

Definition mark_eqb (a b : mark) : bool :=
  match a, b with
  | TX, TX | TO, TO | TDot, TDot | TB, TB => true
  | _, _ => false
  end.

Fixpoint starts_with (p s : list mark) : bool :=
  match p, s with
  | [], _ => true
  | _ :: _, [] => false
  | a :: p', b :: s' => mark_eqb a b && starts_with p' s'
  end.

(** [p in s] on strings. *)
Fixpoint contains (p s : list mark) : bool :=
  starts_with p s ||
  match s with
  | [] => false
  | _ :: s' => contains p s'
  end.

Definition FIVE : Z := 100000.
Definition OPEN_FOUR : Z := 10000.
Definition CLOSED_FOUR : Z := 1000.
Definition OPEN_THREE : Z := 500.
Definition CLOSED_THREE : Z := 100.
Definition OPEN_TWO : Z := 50.
Definition CLOSED_TWO : Z := 10.

Definition when (b : bool) (v : Z) : Z := if b then v else 0.

(** The seven checks made on one [line_str]. *)
Definition line_score (s : list mark) : Z :=
  when (contains [TX;TX;TX;TX;TX] s) FIVE
  + when (contains [TDot;TX;TX;TX;TX;TDot] s) OPEN_FOUR
  + when (contains [TO;TX;TX;TX;TX;TDot] s || contains [TDot;TX;TX;TX;TX;TO] s
          || contains [TB;TX;TX;TX;TX;TDot] s || contains [TDot;TX;TX;TX;TX;TB] s)
         CLOSED_FOUR
  + when (contains [TDot;TX;TX;TX;TDot;TDot] s || contains [TDot;TDot;TX;TX;TX;TDot] s)
         OPEN_THREE
  + when (contains [TO;TX;TX;TX;TDot;TDot] s || contains [TDot;TDot;TX;TX;TX;TO] s
          || contains [TB;TX;TX;TX;TDot;TDot] s || contains [TDot;TDot;TX;TX;TX;TB] s)
         CLOSED_THREE
  + when (contains [TDot;TX;TX;TDot;TDot;TDot] s || contains [TDot;TDot;TDot;TX;TX;TDot] s)
         OPEN_TWO
  + when (contains [TO;TX;TX;TDot;TDot;TDot] s || contains [TDot;TDot;TDot;TX;TX;TO] s
          || contains [TB;TX;TX;TDot;TDot;TDot] s || contains [TDot;TDot;TDot;TX;TX;TB] s)
         CLOSED_TWO.

(** The tag appended for the cell [(r, c)] when scanning for [player_id]. *)
Definition classify (g : GomokuGame) (player_id r c : Z) : mark :=
  if in_bounds g r c then
    if cell g r c =? player_id then TX
    else if cell g r c =? 3 - player_id then TO
    else TDot
  else TB.

(** [for i in range(-5, 6)]: the 11 cells of one direction. *)
Definition build_line (g : GomokuGame) (row col player_id : Z)
    (d : Z * Z) : list mark :=
  map (fun i => classify g player_id (row + d.1 * i) (col + d.2 * i))
      (seqZ (-5) 11).

Definition eval_directions : list (Z * Z) := [(1, 0); (0, 1); (1, 1); (1, -1)].

Definition sumZ (l : list Z) : Z := foldr Z.add 0 l.

Definition evaluate_position (g : GomokuGame) (row col player_id : Z) : Z :=
  sumZ (map (fun d => line_score (build_line g row col player_id d))
            eval_directions).

(** Off-board cells read as opposing stones. *)
Definition block_as_opponent (m : mark) : mark :=
  match m with TB => TO | _ => m end.

(** [evaluate]: the board seen from the AI side, given its [player_id]. *)
Definition evaluate (player_id : Z) (g : GomokuGame) : Z :=
  let ai_score :=
    sumZ (map (fun rc => if cell g rc.1 rc.2 =? player_id
                         then evaluate_position g rc.1 rc.2 player_id
                         else 0)
              (coords (board_size g))) in
  let human_score :=
    sumZ (map (fun rc => if negb (cell g rc.1 rc.2 =? player_id)
                            && (cell g rc.1 rc.2 =? 3 - player_id)
                         then evaluate_position g rc.1 rc.2 (3 - player_id)
                         else 0)
              (coords (board_size g))) in
  ai_score - human_score.

(** ** check_winner *)

(** The inner [for _ in range(4)] walk: stones of [player] met from
    [(row, col)] in direction [(dr, dc)] before the first other cell. *)
Fixpoint run_length (g : GomokuGame) (player row col dr dc : Z)
    (steps : nat) : Z :=
  match steps with
  | O => 0
  | S k =>
      let row' := row + dr in
      let col' := col + dc in
      if in_bounds g row' col' && (cell g row' col' =? player)
      then 1 + run_length g player row' col' dr dc k
      else 0
  end.

Definition win_directions : list ((Z * Z) * (Z * Z)) :=
  [((0, 1), (0, -1)); ((1, 0), (-1, 0)); ((1, 1), (-1, -1)); ((1, -1), (-1, 1))].

Definition line_count (g : GomokuGame) (r c : Z)
    (dir_pair : (Z * Z) * (Z * Z)) : Z :=
  let player := cell g r c in
  1 + run_length g player r c dir_pair.1.1 dir_pair.1.2 4
    + run_length g player r c dir_pair.2.1 dir_pair.2.2 4.

Definition has_five (g : GomokuGame) (rc : Z * Z) : bool :=
  negb (cell g rc.1 rc.2 =? 0)
  && existsb (fun dir_pair => 5 <=? line_count g rc.1 rc.2 dir_pair)
             win_directions.

(** The first stone, row-major, that lies on a line of five; [None] if
    there is none. *)
Definition check_winner (g : GomokuGame) : option Z :=
  match find (has_five g) (coords (board_size g)) with
  | Some rc => Some (cell g rc.1 rc.2)
  | None => None
  end.

(** ** get_sorted_moves *)

(** The float [1.1] is [mant_1_1 / 2^52]. *)
Definition mant_1_1 : Z := 4953959590107546.

(** Round a positive integer to 53 significant bits, ties to even. *)
Definition round53 (p : Z) : Z :=
  let n := Z.log2 p + 1 in
  if n <=? 53 then p
  else
    let sh := n - 53 in
    let q := Z.shiftr p sh in
    let r := p mod 2 ^ sh in
    let half := 2 ^ (sh - 1) in
    let q' := if (half <? r) || ((r =? half) && Z.odd q) then q + 1 else q in
    Z.shiftl q' sh.

(** The binary64 product [h * 1.1], as a multiple of [2^-52]
    (for [0 <= h < 2^53], the scores an evaluation can reach). *)
Definition float_mul_1_1 (h : Z) : Z := round53 (h * mant_1_1).

(** [max(ai_score, human_score * 1.1)], in units of [2^-52]: Python
    compares an int with a float by exact value, and [max] keeps its
    first argument unless the second is greater. *)
Definition move_key (ai_score human_score : Z) : Z :=
  let a := ai_score * 2 ^ 52 in
  let h := float_mul_1_1 human_score in
  if a <? h then h else a.

(** [range(-2, 3)] twice: is there a stone within two cells of [(r, c)]? *)
Definition has_neighbor (g : GomokuGame) (r c : Z) : bool :=
  existsb (fun dr =>
    existsb (fun dc =>
      in_bounds g (r + dr) (c + dc) && negb (cell g (r + dr) (c + dc) =? 0))
      (seqZ (-2) 5))
    (seqZ (-2) 5).

(** [np.count_nonzero(game.board)] *)
Definition count_nonzero (g : GomokuGame) : Z :=
  Z.of_nat (length (nonzero g)).

(** One iteration of the scoring loop: the board it leaves and the
    extended [valid_positions]. *)
Definition score_candidate (player_id : Z)
    (acc : GomokuGame * list ((Z * Z) * Z)) (rc : Z * Z)
    : GomokuGame * list ((Z * Z) * Z) :=
  let '(g, valid_positions) := acc in
  let '(r, c) := rc in
  if cell g r c =? 0 then
    if (if has_neighbor g r c then true else count_nonzero g <? 2) then
      let g1 := set_cell g r c player_id in
      let ai_score := evaluate_position g1 r c player_id in
      let g2 := set_cell g1 r c (3 - player_id) in
      let human_score := evaluate_position g2 r c (3 - player_id) in
      let g3 := set_cell g2 r c 0 in
      (g3, valid_positions ++ [((r, c), move_key ai_score human_score)])
    else acc
  else acc.

(** Insertion into a list sorted by descending key, before the first
    element whose key is not greater. *)
Fixpoint insert_desc (x : (Z * Z) * Z) (l : list ((Z * Z) * Z))
    : list ((Z * Z) * Z) :=
  match l with
  | [] => [x]
  | y :: l' => if x.2 <? y.2 then y :: insert_desc x l' else x :: l
  end.

(** [valid_positions.sort(key=lambda x: x[1], reverse=True)]: the stable
    descending sort (equal keys keep their order). *)
Definition sort_desc (l : list ((Z * Z) * Z)) : list ((Z * Z) * Z) :=
  foldr insert_desc [] l.

Definition get_sorted_moves (player_id : Z) (g : GomokuGame)
    : list (Z * Z) * GomokuGame :=
  let '(g', valid_positions) :=
    fold_left (score_candidate player_id) (coords (board_size g)) (g, []) in
  let valid_positions :=
    if bool_decide (valid_positions = []) && (0 <? count_nonzero g')
    then map (fun rc => (rc, 0)) (get_valid_moves g')
    else valid_positions in
  (map fst (sort_desc valid_positions), g').

(** ** The search *)

(** Scores of the search: integers, and [float('-inf')], [float('inf')]. *)
Inductive score := NegInf | Fin (z : Z) | PosInf.

Definition score_ltb (a b : score) : bool :=
  match a, b with
  | _, NegInf => false
  | NegInf, _ => true
  | PosInf, _ => false
  | Fin _, PosInf => true
  | Fin x, Fin y => x <? y
  end.

Definition score_leb (a b : score) : bool := negb (score_ltb b a).

(** [max(a, b)] and [min(a, b)] *)
Definition score_max (a b : score) : score := if score_ltb a b then b else a.
Definition score_min (a b : score) : score := if score_ltb b a then b else a.

(** An entry [{'score': ..., 'depth': ...}] of the transposition table. *)
Record tt_entry := {
  tt_score : score;
  tt_depth : nat
}.

(** The configuration of a [GomokuAI] object. *)
Record GomokuAI := {
  max_depth : nat;
  player_id : Z
}.

(** [self.opponent_id = 3 - player_id] *)
Definition opponent_id (self : GomokuAI) : Z := 3 - player_id self.

(** What a search mutates: the board of [game], the two counters and the
    table of [self], and the number of times the clock has been read
    since [start_time] was taken. *)
Record state := {
  game : GomokuGame;
  nodes_evaluated : nat;
  transposition_table : gmap Z tt_entry;
  clock_reads : nat
}.

Definition with_game (st : state) (g : GomokuGame) : state :=
  {| game := g;
     nodes_evaluated := nodes_evaluated st;
     transposition_table := transposition_table st;
     clock_reads := clock_reads st |}.

Definition count_node (st : state) : state :=
  {| game := game st;
     nodes_evaluated := S (nodes_evaluated st);
     transposition_table := transposition_table st;
     clock_reads := clock_reads st |}.

(** One more reading of the clock. *)
Definition tick (st : state) : state :=
  {| game := game st;
     nodes_evaluated := nodes_evaluated st;
     transposition_table := transposition_table st;
     clock_reads := S (clock_reads st) |}.

(** [self.transposition_table[board_hash] = {'score': s, 'depth': d}] *)
Definition tt_store (st : state) (board_hash : Z) (s : score) (d : nat)
    : state :=
  {| game := game st;
     nodes_evaluated := nodes_evaluated st;
     transposition_table :=
       <[board_hash := {| tt_score := s; tt_depth := d |}]>
         (transposition_table st);
     clock_reads := clock_reads st |}.

(** [game.board[row, col] = v] on the board of the state. *)
Definition place (st : state) (move : Z * Z) (v : Z) : state :=
  with_game st (set_cell (game st) move.1 move.2 v).

(** The eight cells around the first stone, in the order of the two
    nested loops over [[-1, 0, 1]]. *)
Definition adjacent_cells (row col : Z) : list (Z * Z) :=
  dr ← [-1; 0; 1]; dc ← [-1; 0; 1];
  if (dr =? 0) && (dc =? 0) then [] else [(row + dr, col + dc)].

Section Search.

(** [hash((board.tobytes(), is_maximizing))] *)
Variable hash : list Z -> bool -> Z.

(** Whether the [k]-th reading of the clock finds
    [time.time() - self.start_time > self.time_limit]. *)
Variable budget_exceeded : nat -> bool.

Variable self : GomokuAI.

Definition out_of_time (st : state) : bool * state :=
  (budget_exceeded (clock_reads st), tick st).

(** The lookup at the head of [minimax]; with [cached = false] every
    lookup misses. *)
Definition tt_probe (cached : bool) (st : state) (board_hash : Z)
    (depth : nat) : option score :=
  if cached then
    match transposition_table st !! board_hash with
    | Some e => if (depth <=? tt_depth e)%nat then Some (tt_score e) else None
    | None => None
    end
  else None.

(** The loop of a maximizing node over [sorted_moves]; [search] is the
    recursive call at [depth - 1]. *)
Fixpoint max_loop (search : score -> score -> state -> score * state)
    (moves : list (Z * Z)) (max_score alpha beta : score) (st : state)
    : score * state :=
  match moves with
  | [] => (max_score, st)
  | move :: rest =>
      let st1 := place st move (player_id self) in
      let '(s, st2) := search alpha beta st1 in
      let st3 := place st2 move 0 in
      let max_score := score_max max_score s in
      let alpha := score_max alpha max_score in
      if score_leb beta alpha then (max_score, st3)
      else max_loop search rest max_score alpha beta st3
  end.

(** The loop of a minimizing node. *)
Fixpoint min_loop (search : score -> score -> state -> score * state)
    (moves : list (Z * Z)) (min_score alpha beta : score) (st : state)
    : score * state :=
  match moves with
  | [] => (min_score, st)
  | move :: rest =>
      let st1 := place st move (opponent_id self) in
      let '(s, st2) := search alpha beta st1 in
      let st3 := place st2 move 0 in
      let min_score := score_min min_score s in
      let beta := score_min beta min_score in
      if score_leb beta alpha then (min_score, st3)
      else min_loop search rest min_score alpha beta st3
  end.

(** [minimax], with the table lookup switchable. *)
Fixpoint minimax_with (cached : bool) (depth : nat) (alpha beta : score)
    (is_maximizing : bool) (st : state) : score * state :=
  let st := count_node st in
  let '(late, st) := out_of_time st in
  if late then (Fin (evaluate (player_id self) (game st)), st)
  else
    let board_hash := hash (board (game st)) is_maximizing in
    match tt_probe cached st board_hash depth with
    | Some s => (s, st)
    | None =>
        let winner := check_winner (game st) in
        if bool_decide (winner = Some (player_id self)) then
          (Fin 1000000, st)
        else if bool_decide (winner = Some (opponent_id self)) then
          (Fin (-1000000), st)
        else if bool_decide (get_valid_moves (game st) = []) then
          (Fin 0, st)
        else
          match depth with
          | O =>
              let s := Fin (evaluate (player_id self) (game st)) in
              (s, tt_store st board_hash s depth)
          | S depth' =>
              let '(sorted_moves, g) :=
                get_sorted_moves (player_id self) (game st) in
              let st := with_game st g in
              if is_maximizing then
                let '(max_score, st) :=
                  max_loop (fun a b => minimax_with cached depth' a b false)
                           sorted_moves NegInf alpha beta st in
                (max_score, tt_store st board_hash max_score depth)
              else
                let '(min_score, st) :=
                  min_loop (fun a b => minimax_with cached depth' a b true)
                           sorted_moves PosInf alpha beta st in
                (min_score, tt_store st board_hash min_score depth)
          end
    end.

(** The loop over [valid_moves] at the root, for one [depth >= 1];
    [best_score] and [alpha] start at [-inf]. *)
Fixpoint root_loop (cached : bool) (depth : nat) (moves : list (Z * Z))
    (best_move : Z * Z) (best_score alpha : score) (st : state)
    : (Z * Z) * score * state :=
  match moves with
  | [] => (best_move, best_score, st)
  | move :: rest =>
      let st1 := place st move (player_id self) in
      let '(s, st2) :=
        minimax_with cached (Nat.pred depth) alpha PosInf false st1 in
      let st3 := place st2 move 0 in
      let '(best_score, best_move) :=
        if score_ltb best_score s then (s, move)
        else (best_score, best_move) in
      let alpha := score_max alpha best_score in
      let '(late, st4) := out_of_time st3 in
      if late then (best_move, best_score, st4)
      else root_loop cached depth rest best_move best_score alpha st4
  end.

(** [for depth in range(1, self.max_depth + 1)] *)
Fixpoint deepen (cached : bool) (depths : list nat)
    (valid_moves : list (Z * Z)) (best_move : Z * Z) (best_score : score)
    (st : state) : (Z * Z) * score * state :=
  match depths with
  | [] => (best_move, best_score, st)
  | depth :: rest =>
      let '(late, st1) := out_of_time st in
      if late then (best_move, best_score, st1)
      else
        let '(best_move, best_score, st2) :=
          root_loop cached depth valid_moves best_move NegInf NegInf st1 in
        deepen cached rest valid_moves best_move best_score st2
  end.

(** [choose_move], with the table lookup switchable: the move returned,
    the [best_score] of the last depth started, and the final state. *)
Definition choose_move_with (cached : bool) (g : GomokuGame)
    : option (Z * Z) * score * state :=
  let '(valid_moves, g) := get_sorted_moves (player_id self) g in
  let st := {| game := g; nodes_evaluated := 0;
               transposition_table := ∅; clock_reads := 0 |} in
  match valid_moves with
  | [] => (None, NegInf, st)
  | first :: _ =>
      if count_nonzero g =? 0 then
        (Some (board_size g `div` 2, board_size g `div` 2), NegInf, st)
      else
        let opening :=
          if count_nonzero g =? 1 then
            match nonzero g with
            | (row, col) :: _ =>
                find (fun rc => is_valid_move g rc.1 rc.2)
                     (adjacent_cells row col)
            | [] => None
            end
          else None in
        match opening with
        | Some move => (Some move, NegInf, st)
        | None =>
            let '(best_move, best_score, st) :=
              deepen cached (seq 1 (max_depth self)) valid_moves
                     first NegInf st in
            (Some best_move, best_score, st)
        end
  end.

Definition minimax := minimax_with true.
Definition choose_move (g : GomokuGame) : option (Z * Z) :=
  (choose_move_with true g).1.1.

End Search.

(** ** The reference search: no pruning, no table, no clock *)

(** The value of a position at a given depth: the same terminal tests,
    evaluator and move generator as [minimax], every candidate searched. *)
Fixpoint minimax_exhaustive (self : GomokuAI) (depth : nat)
    (is_maximizing : bool) (g : GomokuGame) : score :=
  let winner := check_winner g in
  if bool_decide (winner = Some (player_id self)) then Fin 1000000
  else if bool_decide (winner = Some (opponent_id self)) then Fin (-1000000)
  else if bool_decide (get_valid_moves g = []) then Fin 0
  else
    match depth with
    | O => Fin (evaluate (player_id self) g)
    | S depth' =>
        let sorted_moves := (get_sorted_moves (player_id self) g).1 in
        if is_maximizing then
          fold_left
            (fun best move =>
               score_max best
                 (minimax_exhaustive self depth' false
                    (set_cell g move.1 move.2 (player_id self))))
            sorted_moves NegInf
        else
          fold_left
            (fun best move =>
               score_min best
                 (minimax_exhaustive self depth' true
                    (set_cell g move.1 move.2 (opponent_id self))))
            sorted_moves PosInf
    end.

(** One step of the root: keep the first move of strictly greatest value. *)
Definition root_step (self : GomokuAI) (depth : nat) (g : GomokuGame)
    (best : (Z * Z) * score) (move : Z * Z) : (Z * Z) * score :=
  let s := minimax_exhaustive self (Nat.pred depth) false
             (set_cell g move.1 move.2 (player_id self)) in
  if score_ltb best.2 s then (move, s) else best.

(** The root move and root score of an exhaustive search at [depth >= 1]
    over the generated moves; [None] when there is none. *)
Definition exhaustive_choice (self : GomokuAI) (depth : nat) (g : GomokuGame)
    : option ((Z * Z) * score) :=
  match (get_sorted_moves (player_id self) g).1 with
  | [] => None
  | first :: rest =>
      Some (fold_left (root_step self depth g) (first :: rest) (first, NegInf))
  end.

(** ** Definitions used to state and prove the properties *)

(** The entry appended for one cell, read off a board that is not
    written to. *)
Definition candidate (player_id : Z) (g : GomokuGame) (rc : Z * Z)
    : list ((Z * Z) * Z) :=
  if (cell g rc.1 rc.2 =? 0)
     && (if has_neighbor g rc.1 rc.2 then true else count_nonzero g <? 2)
  then [(rc, move_key
               (evaluate_position (set_cell g rc.1 rc.2 player_id)
                                  rc.1 rc.2 player_id)
               (evaluate_position
                  (set_cell (set_cell g rc.1 rc.2 player_id)
                            rc.1 rc.2 (3 - player_id))
                  rc.1 rc.2 (3 - player_id)))]
  else [].

(** The list sorted by [get_sorted_moves]. *)
Definition valid_positions (p : Z) (g : GomokuGame) : list ((Z * Z) * Z) :=
  let scored := coords (board_size g) ≫= candidate p g in
  if bool_decide (scored = []) && (0 <? count_nonzero g)
  then map (fun rc => (rc, 0)) (get_valid_moves g)
  else scored.

(** The moves it returns. *)
Definition sorted_moves (p : Z) (g : GomokuGame) : list (Z * Z) :=
  map fst (sort_desc (valid_positions p g)).

(** Every move of the list is an Empty cell of the board. *)
Definition all_empty (g : GomokuGame) (moves : list (Z * Z)) : Prop :=
  Forall (fun m => cell g m.1 m.2 = 0) moves.

(** The shortcut for the second move of the game, when it applies. *)
Definition second_move (g : GomokuGame) : option (Z * Z) :=
  if count_nonzero g =? 1 then
    match nonzero g with
    | (row, col) :: _ =>
        find (fun rc => is_valid_move g rc.1 rc.2) (adjacent_cells row col)
    | [] => None
    end
  else None.

(** Neither [float('inf')] nor [float('-inf')]. *)
Definition finite (s : score) : Prop :=
  match s with Fin _ => True | _ => False end.

(** Every score held by the table is finite. *)
Definition tt_finite (st : state) : Prop :=
  forall k e, transposition_table st !! k = Some e -> finite (tt_score e).

(** A search that returns finite scores and keeps the table finite. *)
Definition finite_search
    (search : score -> score -> state -> score * state) : Prop :=
  forall a b s, tt_finite s ->
    finite (search a b s).1 ∧ tt_finite (search a b s).2.

(** The patterns that [map block_as_opponent] sends to a given pattern. *)
Fixpoint unblocked (p : list mark) : list (list mark) :=
  match p with
  | [] => [[]]
  | TO :: p' => map (cons TO) (unblocked p') ++ map (cons TB) (unblocked p')
  | TB :: p' => []
  | a :: p' => map (cons a) (unblocked p')
  end.

(** [a < b] on scores. *)
Definition slt (a b : score) : Prop :=
  match a, b with
  | _, NegInf => False
  | NegInf, _ => True
  | PosInf, _ => False
  | Fin _, PosInf => True
  | Fin x, Fin y => x < y
  end.

(** [a <= b] on scores. *)
Definition sle (a b : score) : Prop :=
  match a, b with
  | NegInf, _ => True
  | _, PosInf => True
  | _, NegInf => False
  | PosInf, _ => False
  | Fin x, Fin y => x <= y
  end.

(** Equality of scores, through the order. *)
Definition same (a b : score) : Prop := sle a b ∧ sle b a.

(** What a fail-soft search with window [(alpha, beta)] may return for a
    position of value [v]. *)
Definition bounds (r alpha beta v : score) : Prop :=
  (slt alpha r -> slt r beta -> same r v)
  ∧ (sle r alpha -> sle v r)
  ∧ (sle beta r -> sle r v).

(** A search that is exact inside its window and restores the board. *)
Definition exact_search
    (search : score -> score -> state -> score * state)
    (value : GomokuGame -> score) : Prop :=
  forall a b s, slt a b ->
    bounds (search a b s).1 a b (value (game s))
    ∧ game (search a b s).2 = game s.

(** The positions at which [minimax] returns before looking at [depth]. *)
Definition terminal (self : GomokuAI) (g : GomokuGame) : Prop :=
  check_winner g = Some (player_id self)
  ∨ check_winner g = Some (opponent_id self)
  ∨ get_valid_moves g = [].

(** No two positions share a key. *)
Definition collision_free (hash : list Z -> bool -> Z) : Prop :=
  forall b b' m m', hash b m = hash b' m' -> b = b' ∧ m = m'.

(** The board has side [n] and every key of the table is the key of a
    position of side [n] that is not terminal. *)
Definition tt_terminal_free (hash : list Z -> bool -> Z) (self : GomokuAI)
    (n : Z) (st : state) : Prop :=
  board_size (game st) = n
  ∧ forall k e, transposition_table st !! k = Some e ->
      exists g m, board_size g = n ∧ k = hash (board g) m
                  ∧ ¬ terminal self g.

(** A search that keeps the table free of terminal positions. *)
Definition keeps_terminal_free (hash : list Z -> bool -> Z)
    (self : GomokuAI) (n : Z)
    (search : score -> score -> state -> score * state) : Prop :=
  forall a b s,
    tt_terminal_free hash self n s ->
    tt_terminal_free hash self n (search a b s).2.

(** One step along a row, a column or a diagonal. *)
Definition unit_step (d : Z * Z) : Prop :=
  -1 <= d.1 <= 1 ∧ -1 <= d.2 <= 1 ∧ d ≠ (0, 0).

(** ** gomoku_game.py: the game object and its moves *)

(** A [GomokuGame] object with all its attributes: the board, whose turn
    it is, the last move, and the outcome. *)
Record GameState := {
  position : GomokuGame;
  current_player : Z;
  last_move : option (Z * Z);
  game_over : bool;
  winner : option Z
}.

(** [__init__] and [reset_game]: an empty board, black (1) to move. *)
Definition start_game (n : Z) : GameState :=
  {| position := new_game n;
     current_player := 1;
     last_move := None;
     game_over := false;
     winner := None |}.

Definition reset_game (gs : GameState) : GameState :=
  start_game (board_size (position gs)).

(** [check_win(row, col)]: is the stone at [(row, col)] on a line of five
    of its own value? *)
Definition check_win (g : GomokuGame) (row col : Z) : bool :=
  existsb (fun dir_pair => 5 <=? line_count g row col dir_pair)
          win_directions.

(** [make_move(row, col)]: the value returned and the object left. *)
Definition make_move (gs : GameState) (row col : Z) : bool * GameState :=
  if negb (is_valid_move (position gs) row col) || game_over gs then
    (false, gs)
  else
    let g := set_cell (position gs) row col (current_player gs) in
    if check_win g row col then
      (true, {| position := g;
                current_player := current_player gs;
                last_move := Some (row, col);
                game_over := true;
                winner := Some (current_player gs) |})
    else if count_nonzero g =? board_size g * board_size g then
      (true, {| position := g;
                current_player := current_player gs;
                last_move := Some (row, col);
                game_over := true;
                winner := Some 0 |})
    else
      (true, {| position := g;
                current_player := 3 - current_player gs;
                last_move := Some (row, col);
                game_over := false;
                winner := winner gs |}).

(** ** gomoku_gui.py: the turn logic *)

(** The game object with the board left behind by a search. *)
Definition with_position (gs : GameState) (g : GomokuGame) : GameState :=
  {| position := g;
     current_player := current_player gs;
     last_move := last_move gs;
     game_over := game_over gs;
     winner := winner gs |}.

(** [ai_move], as far as the game object goes: [choose_move] runs on the
    board of the game, and the move it returns is played.  [None] stands
    for the [TypeError] raised by [row, col = None]. *)
Definition ai_move (hash : list Z -> bool -> Z)
    (budget_exceeded : nat -> bool) (self : GomokuAI) (gs : GameState)
    : option GameState :=
  let '(move, _, st) :=
    choose_move_with hash budget_exceeded self true (position gs) in
  match move with
  | Some (row, col) => Some (make_move (with_position gs (game st)) row col).2
  | None => None
  end.

(** [handle_click] between two turns ([waiting_for_ai] is [False]), as far
    as the game object goes: a click at pixel [(x, y)] on a canvas with
    cells of [cell_size] pixels, followed by the [ai_move] it schedules
    when the click was a move that did not end the game, with no other
    event handled in between.  [None] stands for an exception:
    [ZeroDivisionError], or the one of [ai_move]. *)
Definition handle_click (hash : list Z -> bool -> Z)
    (budget_exceeded : nat -> bool) (self : GomokuAI) (cell_size : Z)
    (gs : GameState) (x y : Z) : option GameState :=
  if game_over gs then Some gs
  else if cell_size =? 0 then None
  else
    let col := x `div` cell_size in
    let row := y `div` cell_size in
    if in_bounds (position gs) row col then
      let '(ok, gs1) := make_move gs row col in
      if ok then
        if game_over gs1 then Some gs1
        else ai_move hash budget_exceeded self gs1
      else Some gs1
    else Some gs.

(** ** Lines of five and invariants of play *)

(** The five cells from [(r, c)] in direction [(dr, dc)] are on the board
    and hold [v]. *)
Definition five_at (g : GomokuGame) (v r c dr dc : Z) : Prop :=
  forall k, 0 <= k < 5 ->
    in_bounds g (r + k * dr) (c + k * dc) = true
    ∧ cell g (r + k * dr) (c + k * dc) = v.

(** Some row, column or diagonal holds five stones [v] in a row. *)
Definition has_line (g : GomokuGame) (v : Z) : Prop :=
  exists r c d, unit_step d ∧ five_at g v r c d.1 d.2.

(** Every cell of the buffer holds 0, 1 or 2. *)
Definition stones_only (g : GomokuGame) : Prop :=
  Forall (fun v => v = 0 ∨ v = 1 ∨ v = 2) (board g).

(** [len(game.get_valid_moves()) == 0] *)
Definition board_full (g : GomokuGame) : Prop := get_valid_moves g = [].

(** What the flags of a game object say about its board. *)
Definition outcome_recorded (gs : GameState) : Prop :=
  if game_over gs then
    (winner gs = Some (current_player gs)
     ∧ has_line (position gs) (current_player gs)
     ∧ (forall v, v ≠ 0 -> has_line (position gs) v ->
          v = current_player gs))
    ∨ (winner gs = Some 0
       ∧ (forall v, v ≠ 0 -> ¬ has_line (position gs) v)
       ∧ board_full (position gs))
  else
    winner gs = None
    ∧ (forall v, v ≠ 0 -> ¬ has_line (position gs) v)
    ∧ ¬ board_full (position gs).

(** What holds of a game object between moves. *)
Definition game_invariant (gs : GameState) : Prop :=
  well_formed (position gs)
  ∧ 0 < board_size (position gs)
  ∧ stones_only (position gs)
  ∧ (current_player gs = 1 ∨ current_player gs = 2)
  ∧ outcome_recorded gs.

(** The game objects that calls of [make_move] and [reset_game] produce
    from [GomokuGame(n)]. *)
Inductive reachable (n : Z) : GameState -> Prop :=
  | reachable_start : reachable n (start_game n)
  | reachable_move gs row col :
      reachable n gs -> reachable n (make_move gs row col).2
  | reachable_reset gs :
      reachable n gs -> reachable n (reset_game gs).

(** The number of cells that hold [v]. *)
Definition count_of (g : GomokuGame) (v : Z) : Z :=
  Z.of_nat (length (filter (fun rc => cell g rc.1 rc.2 = v)
                           (coords (board_size g)))).

(** Black has as many stones as White, and one more exactly when Black
    made the last move. *)
Definition turns_recorded (gs : GameState) : Prop :=
  count_of (position gs) 1
  = count_of (position gs) 2
    + (if game_over gs then 2 - current_player gs
       else current_player gs - 1).

(** The game objects that a GUI with cells of [cell_size] pixels on a
    board of side [n] goes through: clicks, each with the clock of its
    own search and each followed at once by the reply it schedules, and
    presses of the New Game button between two turns. *)
Inductive gui_reachable (hash : list Z -> bool -> Z) (self : GomokuAI)
    (cell_size n : Z) : GameState -> Prop :=
  | gui_start : gui_reachable hash self cell_size n (start_game n)
  | gui_click gs budget_exceeded x y gs' :
      gui_reachable hash self cell_size n gs ->
      handle_click hash budget_exceeded self cell_size gs x y = Some gs' ->
      gui_reachable hash self cell_size n gs'
  | gui_reset gs :
      gui_reachable hash self cell_size n gs ->
      gui_reachable hash self cell_size n (reset_game gs).

(** Swap the stones of the two sides. *)
Definition swap_stones (player_id : Z) (g : GomokuGame) : GomokuGame :=
  {| board_size := board_size g;
     board := map (fun v => if v =? player_id then 3 - player_id
                            else if v =? 3 - player_id then player_id
                            else v)
                  (board g) |}.

(** ** The order of the generated moves *)

(** Some cell within two rows and two columns of [rc] holds a stone. *)
Definition near_stone (g : GomokuGame) (rc : Z * Z) : Prop :=
  exists dr dc, -2 <= dr <= 2 ∧ -2 <= dc <= 2
    ∧ in_bounds g (rc.1 + dr) (rc.2 + dc) = true
    ∧ cell g (rc.1 + dr) (rc.2 + dc) ≠ 0.

(** The cells that the scoring loop of [get_sorted_moves] appends. *)
Definition considered (g : GomokuGame) (rc : Z * Z) : Prop :=
  cell g rc.1 rc.2 = 0
  ∧ (has_neighbor g rc.1 rc.2 = true ∨ count_nonzero g < 2).

(** The [score] under which the loop files the Empty cell [rc]. *)
Definition priority (player_id : Z) (g : GomokuGame) (rc : Z * Z) : Z :=
  move_key
    (evaluate_position (set_cell g rc.1 rc.2 player_id)
                       rc.1 rc.2 player_id)
    (evaluate_position
       (set_cell (set_cell g rc.1 rc.2 player_id) rc.1 rc.2 (3 - player_id))
       rc.1 rc.2 (3 - player_id)).

(** The order of the two nested loops over the board. *)
Definition row_major (a b : Z * Z) : Prop :=
  a.1 < b.1 ∨ (a.1 = b.1 ∧ a.2 < b.2).

(** An entry comes before another in a stable descending sort of a list
    met in the order [before]: by descending key, and in the order met
    among equal keys. *)
Definition entry_before (before : relation (Z * Z)) (x y : (Z * Z) * Z)
    : Prop :=
  y.2 < x.2 ∨ (x.2 = y.2 ∧ before x.1 y.1).

(** [a] comes before [b] in a stable sort by descending score of cells
    met in row-major order. *)
Definition tried_before (player_id : Z) (g : GomokuGame) (a b : Z * Z)
    : Prop :=
  priority player_id g b < priority player_id g a
  ∨ (priority player_id g a = priority player_id g b ∧ row_major a b).

(** ** The table during a search of depth at most three *)

(** An entry of the table during the iteration [depth = D] of
    [choose_move] on the board [g]: its key is the key of a position that
    is not terminal, and it is stale (filed by an earlier iteration, too
    shallow to be used by this one), or the exact evaluation of a leaf,
    or an inner node of this iteration that lies in the region [P]. *)
Definition entry_fits (hash : list Z -> bool -> Z) (self : GomokuAI)
    (g : GomokuGame) (D : nat) (P : GomokuGame -> Prop)
    (k : Z) (e : tt_entry) : Prop :=
  exists B m,
    board_size B = board_size g ∧ k = hash (board B) m
    ∧ ¬ terminal self B
    ∧ ( Z.of_nat (tt_depth e) + count_nonzero B
        < Z.of_nat D + count_nonzero g
      ∨ (tt_depth e = 0%nat
         ∧ tt_score e = Fin (evaluate (player_id self) B))
      ∨ ((1 <= tt_depth e)%nat
         ∧ Z.of_nat (tt_depth e) + count_nonzero B
           = Z.of_nat D + count_nonzero g
         ∧ P B) ).

Definition table_fits (hash : list Z -> bool -> Z) (self : GomokuAI)
    (g : GomokuGame) (D : nat) (P : GomokuGame -> Prop) (st : state)
    : Prop :=
  forall k e, transposition_table st !! k = Some e ->
    entry_fits hash self g D P k e.

(** One of [cells] holds [v] on the board [B]. *)
Definition has_stone_at (v : Z) (cells : list (Z * Z)) (B : GomokuGame)
    : Prop :=
  exists a, a ∈ cells ∧ cell B a.1 a.2 = v.

(** [B] is [parent] with [v] placed on one of [cells]. *)
Definition child_of (parent : GomokuGame) (v : Z) (cells : list (Z * Z))
    (B : GomokuGame) : Prop :=
  exists a, a ∈ cells ∧ B = set_cell parent a.1 a.2 v.

(** ** Concrete environments and positions *)

(** A position key without collisions. *)
Definition board_key (b : list Z) (is_maximizing : bool) : Z :=
  Z.pos (encode (b, is_maximizing)).

(** A clock that never runs out. *)
Definition unbounded : nat -> bool := fun _ => false.

Definition game_of_rows (n : Z) (rows : list (list Z)) : GomokuGame :=
  {| board_size := n; board := concat rows |}.

(** White (2) to move: a four open at both ends on row 0, against a black
    four on row 2 that only [(2, 4)] completes. *)
Definition double_threat : GomokuGame :=
  game_of_rows 6
    [ [0; 2; 2; 2; 2; 0];
      [0; 0; 0; 0; 0; 0];
      [1; 1; 1; 1; 0; 0];
      [0; 0; 0; 0; 0; 0];
      [0; 0; 0; 0; 0; 0];
      [0; 0; 0; 0; 0; 0] ].

(** White to move, seven cells Empty, no line of five: the position on
    which the table changes the outcome of a search to depth 4. *)
Definition transposed : GomokuGame :=
  game_of_rows 6
    [ [2; 1; 2; 1; 2; 2];
      [1; 1; 0; 0; 1; 1];
      [0; 2; 2; 0; 2; 1];
      [1; 2; 2; 1; 1; 2];
      [0; 1; 1; 2; 1; 1];
      [1; 0; 0; 2; 2; 2] ].

(** A lone black stone in the corner of a 3 x 3 board. *)
Definition corner_stone : GomokuGame :=
  game_of_rows 3 [ [1; 0; 0]; [0; 0; 0]; [0; 0; 0] ].

(** [GomokuAI(max_depth=d)], playing white. *)
Definition white_ai (d : nat) : GomokuAI :=
  {| max_depth := d; player_id := 2 |}.

(** The state [choose_move] starts from. *)
Definition fresh_state (g : GomokuGame) : state :=
  {| game := g; nodes_evaluated := 0;
     transposition_table := ∅; clock_reads := 0 |}.

(** * Boards and coordinates *)

Lemma elem_of_coords (n r c : Z) :
  (r, c) ∈ coords n ↔ (0 <= r < n) ∧ (0 <= c < n).
Proof.
  unfold coords. rewrite list_elem_of_bind. split.
  - intros (r' & Hin & Hr). apply list_elem_of_bind in Hin as (c' & Hin & Hc).
    apply list_elem_of_singleton in Hin. inversion Hin; subst.
    apply elem_of_seqZ in Hr, Hc. lia.
  - intros [Hr Hc]. exists r. split; [| apply elem_of_seqZ; lia].
    apply list_elem_of_bind. exists c. split; [| apply elem_of_seqZ; lia].
    by apply list_elem_of_singleton.
Qed.

Lemma in_bounds_spec (g : GomokuGame) (r c : Z) :
  in_bounds g r c = true ↔ (0 <= r < board_size g) ∧ (0 <= c < board_size g).
Proof. unfold in_bounds. rewrite !andb_true_iff. lia. Qed.

Lemma in_bounds_coords (g : GomokuGame) (r c : Z) :
  in_bounds g r c = true ↔ (r, c) ∈ coords (board_size g).
Proof. by rewrite in_bounds_spec, elem_of_coords. Qed.

Lemma NoDup_coords (n : Z) : NoDup (coords n).
Proof.
  unfold coords. apply NoDup_bind; [| | apply NoDup_seqZ].
  - intros r1 r2 [r c] _ _ H1 H2.
    apply list_elem_of_bind in H1 as (c1 & H1 & _).
    apply list_elem_of_bind in H2 as (c2 & H2 & _).
    apply list_elem_of_singleton in H1, H2. congruence.
  - intros r _. apply NoDup_bind; [| | apply NoDup_seqZ].
    + intros c1 c2 y _ _ H1 H2.
      apply list_elem_of_singleton in H1, H2. congruence.
    + intros c _. apply NoDup_singleton.
Qed.

Lemma board_size_set_cell (g : GomokuGame) (r c v : Z) :
  board_size (set_cell g r c v) = board_size g.
Proof. reflexivity. Qed.

(** Writing to a cell and then writing back what it held restores the
    board. *)
Lemma set_cell_restore (g : GomokuGame) (r c v : Z) :
  set_cell (set_cell g r c v) r c (cell g r c) = g.
Proof.
  destruct g as [n b]. unfold set_cell, cell, cell_index. simpl. f_equal.
  rewrite list_insert_insert_eq. apply list_insert_id'. intros Hlt.
  destruct (nth_lookup_or_length b (Z.to_nat (r * n + c)) 0); [done | lia].
Qed.

Lemma set_cell_twice (g : GomokuGame) (r c v w : Z) :
  set_cell (set_cell g r c v) r c w = set_cell g r c w.
Proof.
  destruct g as [n b]. unfold set_cell, cell_index. simpl. f_equal.
  apply list_insert_insert_eq.
Qed.

Lemma trial_restore (g : GomokuGame) (r c v w : Z) :
  cell g r c = 0 ->
  set_cell (set_cell (set_cell g r c v) r c w) r c 0 = g.
Proof.
  intros H0. rewrite set_cell_twice.
  pose proof (set_cell_restore g r c v) as H. by rewrite H0 in H.
Qed.

Lemma place_restore (g : GomokuGame) (r c v : Z) :
  cell g r c = 0 -> set_cell (set_cell g r c v) r c 0 = g.
Proof.
  intros H0. pose proof (set_cell_restore g r c v) as H. by rewrite H0 in H.
Qed.

(** * The move generator *)

Lemma score_candidate_pure (p : Z) (g : GomokuGame)
    (acc : list ((Z * Z) * Z)) (rc : Z * Z) :
  score_candidate p (g, acc) rc = (g, acc ++ candidate p g rc).
Proof.
  destruct rc as [r c]. unfold score_candidate, candidate. simpl.
  destruct (cell g r c =? 0) eqn:Hc; simpl; [| by rewrite app_nil_r].
  destruct (if has_neighbor g r c then true else count_nonzero g <? 2);
    simpl; [| by rewrite app_nil_r].
  apply Z.eqb_eq in Hc. by rewrite trial_restore.
Qed.

Lemma scoring_loop_pure (p : Z) (g : GomokuGame) (l : list (Z * Z))
    (acc : list ((Z * Z) * Z)) :
  fold_left (score_candidate p) l (g, acc) = (g, acc ++ l ≫= candidate p g).
Proof.
  revert acc. induction l as [| rc l IH]; intros acc; cbn [fold_left].
  - simpl. by rewrite app_nil_r.
  - rewrite score_candidate_pure, IH. simpl. by rewrite <- app_assoc.
Qed.

Lemma get_sorted_moves_pure (p : Z) (g : GomokuGame) :
  get_sorted_moves p g = (sorted_moves p g, g).
Proof.
  unfold get_sorted_moves, sorted_moves, valid_positions.
  by rewrite scoring_loop_pure.
Qed.

Lemma insert_desc_perm (x : (Z * Z) * Z) (l : list ((Z * Z) * Z)) :
  insert_desc x l ≡ₚ x :: l.
Proof.
  induction l as [| y l IH]; simpl; [done |].
  destruct (x.2 <? y.2); [| done].
  rewrite IH. apply Permutation_swap.
Qed.

Lemma sort_desc_perm (l : list ((Z * Z) * Z)) : sort_desc l ≡ₚ l.
Proof.
  induction l as [| x l IH]; simpl; [done |].
  by rewrite insert_desc_perm, IH.
Qed.

Lemma elem_of_candidate (p : Z) (g : GomokuGame) (rc : Z * Z)
    (e : (Z * Z) * Z) :
  e ∈ candidate p g rc -> e.1 = rc ∧ cell g rc.1 rc.2 = 0.
Proof.
  unfold candidate. destruct (cell g rc.1 rc.2 =? 0) eqn:Hc; simpl.
  - destruct (if has_neighbor g rc.1 rc.2 then true else _).
    + intros ->%list_elem_of_singleton. split; [done | by apply Z.eqb_eq].
    + by intros ?%elem_of_nil.
  - by intros ?%elem_of_nil.
Qed.

Lemma elem_of_get_valid_moves (g : GomokuGame) (rc : Z * Z) :
  rc ∈ get_valid_moves g ↔ rc ∈ coords (board_size g) ∧ cell g rc.1 rc.2 = 0.
Proof. unfold get_valid_moves. rewrite list_elem_of_filter. tauto. Qed.

Lemma elem_of_valid_positions (p : Z) (g : GomokuGame) (e : (Z * Z) * Z) :
  e ∈ valid_positions p g -> e.1 ∈ get_valid_moves g.
Proof.
  unfold valid_positions.
  destruct (bool_decide _ && _).
  - intros (rc & -> & Hin)%list_elem_of_fmap. done.
  - intros (rc & Hin & Hrc)%list_elem_of_bind.
    apply elem_of_candidate in Hin as [-> H0].
    by apply elem_of_get_valid_moves.
Qed.

(** Every move generated is an Empty cell of the board. *)
Lemma elem_of_sorted_moves (p : Z) (g : GomokuGame) (rc : Z * Z) :
  rc ∈ sorted_moves p g -> rc ∈ get_valid_moves g.
Proof.
  unfold sorted_moves.
  intros (e & -> & Hin)%list_elem_of_fmap.
  rewrite sort_desc_perm in Hin. by eapply elem_of_valid_positions.
Qed.

Lemma count_nonzero_0 (g : GomokuGame) :
  count_nonzero g = 0 -> get_valid_moves g = coords (board_size g).
Proof.
  unfold count_nonzero, nonzero, get_valid_moves. intros H.
  assert (Hnil : filter (λ rc, cell g rc.1 rc.2 ≠ 0) (coords (board_size g)) = [])
    by (apply length_zero_iff_nil; lia).
  clear H. induction (coords (board_size g)) as [| rc l IH]; [done |].
  rewrite filter_cons in Hnil |- *.
  destruct (decide (cell g rc.1 rc.2 ≠ 0)) as [|Hz]; [done |].
  destruct (decide (cell g rc.1 rc.2 = 0)); [| lia].
  f_equal. by apply IH.
Qed.

Lemma candidate_sparse (p : Z) (g : GomokuGame) (rc : Z * Z) :
  count_nonzero g = 0 -> cell g rc.1 rc.2 = 0 -> candidate p g rc ≠ [].
Proof.
  intros Hc H0. unfold candidate. rewrite H0, Hc. simpl.
  by destruct (has_neighbor _ _ _).
Qed.

(** The generator is empty exactly when no cell is Empty. *)
Lemma sorted_moves_nil (p : Z) (g : GomokuGame) :
  sorted_moves p g = [] ↔ get_valid_moves g = [].
Proof.
  unfold sorted_moves. split.
  - intros H. apply fmap_nil_inv in H.
    assert (Hvp : valid_positions p g = []).
    { apply Permutation_nil_r. by rewrite <- H, sort_desc_perm. }
    clear H. unfold valid_positions in Hvp.
    destruct (bool_decide _) eqn:Hs; simpl in Hvp.
    + destruct (0 <? count_nonzero g) eqn:Hpos.
      * by apply fmap_nil_inv in Hvp.
      * apply bool_decide_eq_true in Hs.
        assert (Hc : count_nonzero g = 0).
        { unfold count_nonzero in *. lia. }
        rewrite (count_nonzero_0 g Hc).
        destruct (coords (board_size g)) as [| rc l] eqn:Hco; [done |].
        exfalso. simpl in Hs. apply app_eq_nil in Hs as [Hs _].
        eapply candidate_sparse; [done | | exact Hs].
        assert (Hin : rc ∈ get_valid_moves g).
        { rewrite (count_nonzero_0 g Hc), Hco. left. }
        by apply elem_of_get_valid_moves in Hin as [_ ?].
    + apply bool_decide_eq_false in Hs. done.
  - intros Hnil.
    assert (Hvp : valid_positions p g = []).
    { destruct (valid_positions p g) as [| e l] eqn:Hvp; [done |].
      assert (Hin : e.1 ∈ get_valid_moves g).
      { apply (elem_of_valid_positions p). rewrite Hvp. left. }
      rewrite Hnil in Hin. by apply elem_of_nil in Hin. }
    by rewrite Hvp.
Qed.

(** The generator leaves the board as it found it. *)
Lemma get_sorted_moves_board (p : Z) (g : GomokuGame) :
  (get_sorted_moves p g).2 = g.
Proof. by rewrite get_sorted_moves_pure. Qed.

(** * The search leaves the board as it found it *)

Lemma get_valid_moves_empty (g : GomokuGame) (rc : Z * Z) :
  rc ∈ get_valid_moves g -> cell g rc.1 rc.2 = 0.
Proof. by intros [_ ?]%elem_of_get_valid_moves. Qed.

Lemma sorted_moves_empty (p : Z) (g : GomokuGame) :
  all_empty g (sorted_moves p g).
Proof.
  apply Forall_forall. intros rc Hin.
  by apply get_valid_moves_empty, (elem_of_sorted_moves p).
Qed.

Section Frame.

Variable hash : list Z -> bool -> Z.
Variable budget_exceeded : nat -> bool.
Variable self : GomokuAI.

Abbreviation mm := (minimax_with hash budget_exceeded self).
Abbreviation maxl := (max_loop self).
Abbreviation minl := (min_loop self).

(** One unfolding of [minimax_with]. *)
Lemma minimax_with_unfold (cached : bool) (depth : nat) (alpha beta : score)
    (is_maximizing : bool) (st : state) :
  mm cached depth alpha beta is_maximizing st =
  let st := count_node st in
  let '(late, st) := out_of_time budget_exceeded st in
  if late then (Fin (evaluate (player_id self) (game st)), st)
  else
    let board_hash := hash (board (game st)) is_maximizing in
    match tt_probe cached st board_hash depth with
    | Some s => (s, st)
    | None =>
        let winner := check_winner (game st) in
        if bool_decide (winner = Some (player_id self)) then
          (Fin 1000000, st)
        else if bool_decide (winner = Some (opponent_id self)) then
          (Fin (-1000000), st)
        else if bool_decide (get_valid_moves (game st) = []) then
          (Fin 0, st)
        else
          match depth with
          | O =>
              let s := Fin (evaluate (player_id self) (game st)) in
              (s, tt_store st board_hash s depth)
          | S depth' =>
              let '(sorted_moves, g) :=
                get_sorted_moves (player_id self) (game st) in
              let st := with_game st g in
              if is_maximizing then
                let '(max_score, st) :=
                  maxl (fun a b => mm cached depth' a b false)
                           sorted_moves NegInf alpha beta st in
                (max_score, tt_store st board_hash max_score depth)
              else
                let '(min_score, st) :=
                  minl (fun a b => mm cached depth' a b true)
                           sorted_moves PosInf alpha beta st in
                (min_score, tt_store st board_hash min_score depth)
          end
    end.
Proof. destruct depth; reflexivity. Qed.

Lemma with_game_id (st : state) : with_game st (game st) = st.
Proof. by destruct st. Qed.

Lemma max_loop_game (search : score -> score -> state -> score * state)
    (moves : list (Z * Z)) (max_score alpha beta : score) (st : state) :
  (forall a b s, game (search a b s).2 = game s) ->
  all_empty (game st) moves ->
  game (maxl search moves max_score alpha beta st).2 = game st.
Proof.
  intros Hs. revert max_score alpha st.
  induction moves as [| m moves IH]; intros max_score alpha st Hall;
    simpl; [done |].
  apply Forall_cons in Hall as [Hm Hall].
  destruct (search alpha beta _) as [s st2] eqn:E.
  assert (Hg : game (place st2 m 0) = game st).
  { pose proof (Hs alpha beta (place st m (player_id self))) as H.
    rewrite E in H. simpl in *. rewrite H. by apply place_restore. }
  destruct (score_leb _ _); simpl; [done |].
  rewrite IH; [done | by rewrite Hg].
Qed.

Lemma min_loop_game (search : score -> score -> state -> score * state)
    (moves : list (Z * Z)) (min_score alpha beta : score) (st : state) :
  (forall a b s, game (search a b s).2 = game s) ->
  all_empty (game st) moves ->
  game (minl search moves min_score alpha beta st).2 = game st.
Proof.
  intros Hs. revert min_score beta st.
  induction moves as [| m moves IH]; intros min_score beta st Hall;
    simpl; [done |].
  apply Forall_cons in Hall as [Hm Hall].
  destruct (search alpha beta _) as [s st2] eqn:E.
  assert (Hg : game (place st2 m 0) = game st).
  { pose proof (Hs alpha beta (place st m (opponent_id self))) as H.
    rewrite E in H. simpl in *. rewrite H. by apply place_restore. }
  destruct (score_leb _ _); simpl; [done |].
  rewrite IH; [done | by rewrite Hg].
Qed.

(** Entering a node: the counter and the clock move, nothing else. *)
Ltac enter_node st st1 Hg :=
  rewrite minimax_with_unfold; unfold out_of_time; cbv beta iota zeta;
  assert (Hg : game (tick (count_node st)) = game st) by reflexivity;
  generalize dependent (tick (count_node st)); intros st1 Hg.

Lemma minimax_with_game (cached : bool) (depth : nat) (alpha beta : score)
    (is_maximizing : bool) (st : state) :
  game (mm cached depth alpha beta is_maximizing st).2 = game st.
Proof.
  revert alpha beta is_maximizing st.
  induction depth as [| depth IH]; intros alpha beta im st;
    enter_node st st1 Hg;
    (destruct (budget_exceeded _); [done |]);
    (destruct (tt_probe _ _ _ _); [done |]);
    repeat (case_bool_decide; [done |]); [done |].
  rewrite get_sorted_moves_pure. cbv beta iota zeta. rewrite with_game_id.
  destruct im.
  - destruct (maxl _ _ _ _ _ _) as [ms st'] eqn:E. simpl.
    change st' with (ms, st').2. rewrite <- E.
    rewrite max_loop_game; [done | by intros; apply IH |].
    apply sorted_moves_empty.
  - destruct (minl _ _ _ _ _ _) as [ms st'] eqn:E. simpl.
    change st' with (ms, st').2. rewrite <- E.
    rewrite min_loop_game; [done | by intros; apply IH |].
    apply sorted_moves_empty.
Qed.

Abbreviation rootl := (root_loop hash budget_exceeded self).
Abbreviation deep := (deepen hash budget_exceeded self).
Abbreviation choose := (choose_move_with hash budget_exceeded self).

Lemma root_loop_game (cached : bool) (depth : nat) (moves : list (Z * Z))
    (best_move : Z * Z) (best_score alpha : score) (st : state) :
  all_empty (game st) moves ->
  game (rootl cached depth moves best_move best_score alpha st).2
  = game st.
Proof.
  revert best_move best_score alpha st.
  induction moves as [| m moves IH]; intros bm bs alpha st Hall;
    simpl; [done |].
  apply Forall_cons in Hall as [Hm Hall].
  destruct (mm _ _ _ _ _ _) as [s st2] eqn:E.
  assert (Hg : game (place st2 m 0) = game st).
  { pose proof (minimax_with_game cached (Nat.pred depth) alpha PosInf false
                  (place st m (player_id self))) as H.
    rewrite E in H. simpl in *. rewrite H. by apply place_restore. }
  destruct (score_ltb bs s); unfold out_of_time;
    (destruct (budget_exceeded _); [done |]);
    (rewrite IH; [done | by simpl in *; rewrite Hg]).
Qed.

Lemma root_loop_move (cached : bool) (depth : nat) (moves : list (Z * Z))
    (best_move : Z * Z) (best_score alpha : score) (st : state) :
  (rootl cached depth moves best_move best_score alpha st).1.1
  ∈ best_move :: moves.
Proof.
  revert best_move best_score alpha st.
  induction moves as [| m moves IH]; intros bm bs alpha st;
    simpl; [left |].
  destruct (mm _ _ _ _ _ _) as [s st2].
  destruct (score_ltb bs s); unfold out_of_time;
    destruct (budget_exceeded _); simpl;
    try (by left); try (by right; left).
  - specialize (IH m s (score_max alpha s) (tick (place st2 m 0))).
    apply elem_of_cons in IH as [-> | IH]; [by right; left | by do 2 right].
  - specialize (IH bm bs (score_max alpha bs) (tick (place st2 m 0))).
    apply elem_of_cons in IH as [-> | IH]; [by left | by do 2 right].
Qed.

Lemma deepen_game (cached : bool) (depths : list nat)
    (valid_moves : list (Z * Z)) (best_move : Z * Z) (best_score : score)
    (st : state) :
  all_empty (game st) valid_moves ->
  game (deep cached depths valid_moves best_move best_score st).2
  = game st.
Proof.
  revert best_move best_score st.
  induction depths as [| d depths IH]; intros bm bs st Hall; simpl; [done |].
  unfold out_of_time. destruct (budget_exceeded _); [done |].
  destruct (rootl _ _ _ _ _ _ _) as [[bm' bs'] st2] eqn:E.
  assert (Hg : game st2 = game st).
  { change st2 with (bm', bs', st2).2. rewrite <- E.
    by rewrite root_loop_game. }
  rewrite IH; [done | by rewrite Hg].
Qed.

Lemma deepen_move (cached : bool) (depths : list nat)
    (valid_moves : list (Z * Z)) (best_move : Z * Z) (best_score : score)
    (st : state) :
  (deep cached depths valid_moves best_move best_score st).1.1
  ∈ best_move :: valid_moves.
Proof.
  revert best_move best_score st.
  induction depths as [| d depths IH]; intros bm bs st; simpl; [left |].
  unfold out_of_time. destruct (budget_exceeded _); [left |].
  destruct (rootl _ _ _ _ _ _ _) as [[bm' bs'] st2] eqn:E.
  specialize (IH bm' bs' st2).
  apply elem_of_cons in IH as [-> | IH]; [| by right].
  change bm' with (bm', bs', st2).1.1. rewrite <- E. apply root_loop_move.
Qed.

(** The four ways [choose_move] returns. *)
Lemma choose_move_with_cases (cached : bool) (g : GomokuGame) :
  let r := choose cached g in
  game r.2 = g ∧
  ( (get_valid_moves g = [] ∧ r.1.1 = None)
  ∨ (get_valid_moves g ≠ [] ∧ count_nonzero g = 0 ∧
     r.1.1 = Some (board_size g `div` 2, board_size g `div` 2) ∧
     nodes_evaluated r.2 = 0%nat)
  ∨ (get_valid_moves g ≠ [] ∧ count_nonzero g ≠ 0 ∧
     ∃ move, second_move g = Some move ∧
       r.1.1 = Some move ∧ nodes_evaluated r.2 = 0%nat)
  ∨ (get_valid_moves g ≠ [] ∧ count_nonzero g ≠ 0 ∧
     second_move g = None ∧
     ∃ move, r.1.1 = Some move ∧ move ∈ sorted_moves (player_id self) g) ).
Proof.
  unfold choose. rewrite get_sorted_moves_pure.
  pose proof (sorted_moves_nil (player_id self) g) as Hnil.
  pose proof (sorted_moves_empty (player_id self) g) as Hempty.
  destruct (sorted_moves (player_id self) g) as [| first moves] eqn:Hm.
  { simpl. split; [done |]. left. split; [by apply Hnil | done]. }
  assert (Hv : get_valid_moves g ≠ []) by (intros H; by apply Hnil in H).
  destruct (count_nonzero g =? 0) eqn:H0.
  { simpl. split; [done |]. right. left. apply Z.eqb_eq in H0. done. }
  apply Z.eqb_neq in H0.
  change (if count_nonzero g =? 1 then _ else _) with (second_move g).
  assert (Hsearch :
    let '(bm, bs, st) := deep cached (seq 1 (max_depth self))
       (first :: moves) first NegInf
       {| game := g; nodes_evaluated := 0;
          transposition_table := ∅; clock_reads := 0 |} in
    game st = g ∧ bm ∈ first :: moves).
  { destruct (deep _ _ _ _ _ _) as [[bm bs] st] eqn:E. split.
    - change st with (bm, bs, st).2. rewrite <- E.
      by rewrite deepen_game.
    - pose proof (deepen_move cached (seq 1 (max_depth self))
                    (first :: moves) first NegInf
                    {| game := g; nodes_evaluated := 0;
                       transposition_table := ∅; clock_reads := 0 |}) as H.
      rewrite E in H. simpl in H.
      apply elem_of_cons in H as [-> | H]; [left | done]. }
  destruct (second_move g) as [move |] eqn:Hop.
  - simpl. split; [done |]. right. right. left. split; [done |].
    split; [done |]. by exists move.
  - destruct (deep _ _ _ _ _ _) as [[bm bs] st].
    destruct Hsearch as [Hg Hin]. simpl. split; [done |].
    do 3 right. split; [done |]. split; [done |]. split; [done |].
    by exists bm.
Qed.

End Frame.

(** * Scores stay finite *)

Lemma tt_finite_table (st st' : state) :
  transposition_table st' = transposition_table st ->
  tt_finite st -> tt_finite st'.
Proof. unfold tt_finite. by intros ->. Qed.

Lemma tt_finite_store (st : state) (k : Z) (s : score) (d : nat) :
  finite s -> tt_finite st -> tt_finite (tt_store st k s d).
Proof.
  intros Hs Hst k' e. unfold tt_store. simpl.
  rewrite lookup_insert. case_decide.
  - by intros [= <-].
  - apply Hst.
Qed.

Lemma score_max_finite (a b : score) :
  a ≠ PosInf -> finite b -> finite (score_max a b).
Proof. destruct a, b; simpl; try done. unfold score_max. simpl. by destruct (_ <? _). Qed.

Lemma score_min_finite (a b : score) :
  a ≠ NegInf -> finite b -> finite (score_min a b).
Proof. destruct a, b; simpl; try done. unfold score_min. simpl. by destruct (_ <? _). Qed.

Lemma finite_not_inf (s : score) : finite s -> s ≠ PosInf ∧ s ≠ NegInf.
Proof. by destruct s. Qed.

Section Finite.

Variable hash : list Z -> bool -> Z.
Variable budget_exceeded : nat -> bool.
Variable self : GomokuAI.

Abbreviation mm := (minimax_with hash budget_exceeded self).
Abbreviation maxl := (max_loop self).
Abbreviation minl := (min_loop self).

Lemma max_loop_finite (search : score -> score -> state -> score * state)
    (moves : list (Z * Z)) (max_score alpha beta : score) (st : state) :
  finite_search search -> tt_finite st ->
  max_score ≠ PosInf -> (finite max_score ∨ moves ≠ []) ->
  finite (maxl search moves max_score alpha beta st).1
  ∧ tt_finite (maxl search moves max_score alpha beta st).2.
Proof.
  intros Hs. revert max_score alpha st.
  induction moves as [| m moves IH]; intros ms alpha st Hst Hms Hor; simpl.
  - by destruct Hor.
  - destruct (search alpha beta _) as [s st2] eqn:E.
    destruct (Hs alpha beta (place st m (player_id self))) as [Hf Ht];
      [done |]. rewrite E in Hf, Ht. simpl in Hf, Ht.
    pose proof (score_max_finite ms s Hms Hf) as Hmax.
    destruct (score_leb _ _); simpl; [done |].
    apply IH; [done | by apply finite_not_inf | by left].
Qed.

Lemma min_loop_finite (search : score -> score -> state -> score * state)
    (moves : list (Z * Z)) (min_score alpha beta : score) (st : state) :
  finite_search search -> tt_finite st ->
  min_score ≠ NegInf -> (finite min_score ∨ moves ≠ []) ->
  finite (minl search moves min_score alpha beta st).1
  ∧ tt_finite (minl search moves min_score alpha beta st).2.
Proof.
  intros Hs. revert min_score beta st.
  induction moves as [| m moves IH]; intros ms beta st Hst Hms Hor; simpl.
  - by destruct Hor.
  - destruct (search alpha beta _) as [s st2] eqn:E.
    destruct (Hs alpha beta (place st m (opponent_id self))) as [Hf Ht];
      [done |]. rewrite E in Hf, Ht. simpl in Hf, Ht.
    pose proof (score_min_finite ms s Hms Hf) as Hmin.
    destruct (score_leb _ _); simpl; [done |].
    apply IH; [done | by apply finite_not_inf | by left].
Qed.

Lemma tt_probe_finite (cached : bool) (st : state) (k : Z) (d : nat)
    (s : score) :
  tt_finite st -> tt_probe cached st k d = Some s -> finite s.
Proof.
  intros Hst. unfold tt_probe. destruct cached; [| done].
  destruct (transposition_table st !! k) as [e |] eqn:E; [| done].
  destruct (_ <=? _)%nat; [| done]. intros [= <-]. by eapply Hst.
Qed.

Lemma minimax_with_finite (cached : bool) (depth : nat)
    (is_maximizing : bool) :
  finite_search (fun a b => mm cached depth a b is_maximizing).
Proof.
  revert is_maximizing.
  induction depth as [| depth IH]; intros im alpha' beta' st Hst;
    rewrite minimax_with_unfold; unfold out_of_time; cbv beta iota zeta;
    (assert (Hst1 : tt_finite (tick (count_node st))) by done);
    generalize dependent (tick (count_node st)); intros st1 Hst1;
    (destruct (budget_exceeded _); [done |]);
    (destruct (tt_probe _ _ _ _) as [s |] eqn:Hp;
       [by split; [eapply tt_probe_finite |] |]);
    repeat (case_bool_decide; [done |]).
  - split; [done |]. by apply tt_finite_store.
  - rewrite get_sorted_moves_pure. cbv beta iota zeta. rewrite with_game_id.
    assert (Hne : sorted_moves (player_id self) (game st1) ≠ []).
    { intros Hnil. by apply sorted_moves_nil in Hnil. }
    destruct im.
    + destruct (maxl _ _ _ _ _ _) as [ms st'] eqn:E.
      destruct (max_loop_finite
                  (fun a b => mm cached depth a b false)
                  (sorted_moves (player_id self) (game st1))
                  NegInf alpha' beta' st1) as [Hf Ht];
        [apply IH | done | done | by right |].
      rewrite E in Hf, Ht. simpl in *. split; [done |].
      by apply tt_finite_store.
    + destruct (minl _ _ _ _ _ _) as [ms st'] eqn:E.
      destruct (min_loop_finite
                  (fun a b => mm cached depth a b true)
                  (sorted_moves (player_id self) (game st1))
                  PosInf alpha' beta' st1) as [Hf Ht];
        [apply IH | done | done | by right |].
      rewrite E in Hf, Ht. simpl in *. split; [done |].
      by apply tt_finite_store.
Qed.

End Finite.

(** * Pattern scores and off-board cells *)

Lemma existsb_orb {A : Type} (f g : A -> bool) (l : list A) :
  existsb (fun x => f x || g x) l = existsb f l || existsb g l.
Proof.
  induction l as [| x l IH]; simpl; [done |].
  rewrite IH. destruct (f x), (g x), (existsb f l); done.
Qed.

Lemma existsb_cons_pattern (a b : mark) (s : list mark)
    (l : list (list mark)) :
  existsb (fun q => starts_with q (b :: s)) (map (cons a) l)
  = mark_eqb a b && existsb (fun q => starts_with q s) l.
Proof.
  induction l as [| q l IH]; simpl; [by rewrite andb_false_r |].
  rewrite IH. by destruct (mark_eqb a b).
Qed.

Lemma existsb_cons_nil (a : mark) (l : list (list mark)) :
  existsb (fun q => starts_with q []) (map (cons a) l) = false.
Proof. by induction l. Qed.

Lemma starts_with_blocked (p s : list mark) :
  starts_with p (map block_as_opponent s)
  = existsb (fun q => starts_with q s) (unblocked p).
Proof.
  revert s. induction p as [| a p IH]; intros s.
  - by destruct s.
  - destruct s as [| b s].
    + destruct a; simpl; rewrite ?existsb_app, ?existsb_cons_nil; done.
    + cbn [starts_with map]. rewrite IH.
      destruct a; cbn [unblocked];
        rewrite ?existsb_app, ?existsb_cons_pattern; destruct b; simpl;
        rewrite ?orb_false_r; done.
Qed.

Lemma contains_blocked (p s : list mark) :
  contains p (map block_as_opponent s)
  = existsb (fun q => contains q s) (unblocked p).
Proof.
  induction s as [| b s IH].
  - pose proof (starts_with_blocked p []) as H. cbn [contains map] in *.
    rewrite H, orb_false_r. clear H.
    induction (unblocked p) as [| q l IHl]; simpl; [done |].
    by rewrite IHl, orb_false_r.
  - pose proof (starts_with_blocked p (b :: s)) as H. cbn [contains map] in *.
    by rewrite IH, H, <- existsb_orb.
Qed.

(** The score of a line does not change when its off-board cells are read
    as opposing stones. *)
Lemma line_score_blocked (s : list mark) :
  line_score (map block_as_opponent s) = line_score s.
Proof.
  unfold line_score. rewrite !contains_blocked. cbn [unblocked map app existsb].
  rewrite !orb_false_r.
  repeat match goal with
  | |- _ + _ = _ + _ => f_equal
  | |- when _ _ = when _ _ => f_equal
  end;
  repeat match goal with
  | |- context [contains ?p s] => generalize (contains p s); intro
  end;
  repeat match goal with b : bool |- _ => destruct b end; reflexivity.
Qed.

Lemma get_valid_moves_nil (g : GomokuGame) :
  get_valid_moves g = [] ↔
  forall r c, in_bounds g r c = true -> cell g r c ≠ 0.
Proof.
  split.
  - intros Hnil r c Hb Hz.
    assert (Hin : (r, c) ∈ get_valid_moves g).
    { apply elem_of_get_valid_moves. split; [by apply in_bounds_coords | done]. }
    rewrite Hnil in Hin. by apply elem_of_nil in Hin.
  - intros Hfull. destruct (get_valid_moves g) as [| [r c] l] eqn:E; [done |].
    assert (Hin : (r, c) ∈ get_valid_moves g) by (rewrite E; left).
    apply elem_of_get_valid_moves in Hin as [Hin Hz].
    apply in_bounds_coords in Hin. by destruct (Hfull r c Hin).
Qed.

Lemma adjacent_cells_order (r c : Z) :
  adjacent_cells r c =
  [(r - 1, c - 1); (r - 1, c); (r - 1, c + 1);
   (r, c - 1); (r, c + 1);
   (r + 1, c - 1); (r + 1, c); (r + 1, c + 1)].
Proof. unfold adjacent_cells. simpl. by rewrite !Z.add_0_r. Qed.

Lemma is_valid_move_spec (g : GomokuGame) (r c : Z) :
  is_valid_move g r c = true ↔ in_bounds g r c = true ∧ cell g r c = 0.
Proof.
  unfold is_valid_move. destruct (in_bounds g r c).
  - rewrite Z.eqb_eq. tauto.
  - split; [done | by intros [? _]].
Qed.

Lemma nonzero_single (g : GomokuGame) (r c : Z) :
  nonzero g = [(r, c)] ->
  in_bounds g r c = true ∧ cell g r c ≠ 0 ∧ count_nonzero g = 1 ∧
  forall r' c', in_bounds g r' c' = true -> (r', c') ≠ (r, c) ->
    cell g r' c' = 0.
Proof.
  intros Hnz.
  assert (Hin : (r, c) ∈ nonzero g) by (rewrite Hnz; left).
  unfold nonzero in Hin. apply list_elem_of_filter in Hin as [Hc Hin].
  split; [by apply in_bounds_coords |]. split; [done |].
  split; [unfold count_nonzero; by rewrite Hnz |].
  intros r' c' Hb Hne. destruct (decide (cell g r' c' = 0)) as [| Hs]; [done |].
  assert (Hin' : (r', c') ∈ nonzero g).
  { unfold nonzero. apply list_elem_of_filter.
    split; [done | by apply in_bounds_coords]. }
  rewrite Hnz in Hin'. by apply list_elem_of_singleton in Hin'.
Qed.

Section Claims.

Variable hash : list Z -> bool -> Z.
Variable budget_exceeded : nat -> bool.
Variable self : GomokuAI.

(** C4. [choose_move] returns [None] exactly when no in-bounds cell is
    Empty, and returns a move whenever some cell is Empty. *)
Theorem choose_move_none_iff_full (g : GomokuGame) :
  (choose_move hash budget_exceeded self g = None ↔
     forall r c, in_bounds g r c = true -> cell g r c ≠ 0)
  ∧ ((exists r c, in_bounds g r c = true ∧ cell g r c = 0) ->
     exists move, choose_move hash budget_exceeded self g = Some move).
Proof.
  unfold choose_move. rewrite <- get_valid_moves_nil.
  destruct (choose_move_with_cases hash budget_exceeded self true g)
    as [_ Hc].
  split; [split |].
  - intros Hn.
    destruct Hc as [[? _] | [(_ & _ & H & _) | [(_ & _ & m & _ & H & _)
                              | (_ & _ & _ & m & H & _)]]];
      [done | congruence ..].
  - intros Hnil.
    destruct Hc as [[_ ?] | [[? _] | [[? _] | [? _]]]]; done.
  - intros (r & c & Hb & Hz).
    assert (Hv : get_valid_moves g ≠ []).
    { intros Hnil. by apply (proj1 (get_valid_moves_nil g) Hnil r c). }
    destruct Hc as [[? _] | [(_ & _ & H & _) | [(_ & _ & m & _ & H & _)
                              | (_ & _ & _ & m & H & _)]]];
      [done | eauto ..].
Qed.

(** C5. [get_sorted_moves], [minimax] and [choose_move] hand back the
    board they were given. *)
Theorem search_restores_board (g : GomokuGame) :
  (get_sorted_moves (player_id self) g).2 = g
  ∧ (forall depth alpha beta is_maximizing st,
       game (minimax hash budget_exceeded self depth alpha beta
               is_maximizing st).2 = game st)
  ∧ game (choose_move_with hash budget_exceeded self true g).2 = g.
Proof.
  split; [apply get_sorted_moves_board |]. split.
  - intros. apply minimax_with_game.
  - by destruct (choose_move_with_cases hash budget_exceeded self true g).
Qed.

(** C6. On a board of side [N >= 1] without stones, [choose_move] returns
    [(N // 2, N // 2)] and no node is searched. *)
Theorem choose_move_empty_board (g : GomokuGame) :
  0 < board_size g ->
  count_nonzero g = 0 ->
  choose_move hash budget_exceeded self g
  = Some (board_size g `div` 2, board_size g `div` 2)
  ∧ nodes_evaluated (choose_move_with hash budget_exceeded self true g).2 = 0%nat.
Proof.
  intros Hn Hc. unfold choose_move.
  assert (Hv : get_valid_moves g ≠ []).
  { rewrite (count_nonzero_0 g Hc). intros Hnil.
    assert (Hin : (0, 0) ∈ coords (board_size g))
      by (apply elem_of_coords; lia).
    rewrite Hnil in Hin. by apply elem_of_nil in Hin. }
  destruct (choose_move_with_cases hash budget_exceeded self true g)
    as [_ [[? _] | [(_ & _ & H & Hnodes) | [(_ & ? & _) | (_ & ? & _)]]]];
    done.
Qed.

(** C7. On a board of side at least 2 whose only stone is at [(r, c)],
    [choose_move] returns the first Empty in-bounds cell of the eight
    neighbours, scanned row by row from [(r - 1, c - 1)] to
    [(r + 1, c + 1)]. *)
Theorem choose_move_second_move (g : GomokuGame) (r c : Z) :
  2 <= board_size g ->
  nonzero g = [(r, c)] ->
  exists move,
    find (fun rc => is_valid_move g rc.1 rc.2)
         [(r - 1, c - 1); (r - 1, c); (r - 1, c + 1);
          (r, c - 1); (r, c + 1);
          (r + 1, c - 1); (r + 1, c); (r + 1, c + 1)] = Some move
    ∧ choose_move hash budget_exceeded self g = Some move.
Proof.
  intros Hn Hnz. unfold choose_move.
  destruct (nonzero_single g r c Hnz) as (Hb & Hs & Hc & Hothers).
  apply in_bounds_spec in Hb.
  set (r' := if 0 <? r then r - 1 else r + 1).
  assert (Hr' : (0 <= r' < board_size g) ∧ r' ≠ r ∧ (r' = r - 1 ∨ r' = r + 1)).
  { unfold r'. destruct (0 <? r) eqn:E; lia. }
  assert (Hvalid : is_valid_move g r' c = true).
  { apply is_valid_move_spec.
    assert (in_bounds g r' c = true) by (apply in_bounds_spec; lia).
    split; [done |]. apply Hothers; [done |]. intros [=]. lia. }
  assert (Hsm : exists move, second_move g = Some move).
  { unfold second_move. rewrite Hc, Hnz. cbv beta iota.
    change (1 =? 1) with true. cbv beta iota.
    destruct (find (fun rc => is_valid_move g rc.1 rc.2)
                   (adjacent_cells r c)) as [m |] eqn:Hf; [by exists m |].
    exfalso.
    assert (HIn : In (r', c) (adjacent_cells r c)).
    { rewrite adjacent_cells_order. destruct Hr' as (_ & _ & [-> | ->]);
        simpl; tauto. }
    eapply find_none in Hf; [| exact HIn]. simpl in Hf. congruence. }
  destruct Hsm as [move Hsm].
  assert (Hv : get_valid_moves g ≠ []).
  { intros Hnil. apply is_valid_move_spec in Hvalid as [Hb' Hz].
    by apply (proj1 (get_valid_moves_nil g) Hnil r' c). }
  exists move. split.
  - unfold second_move in Hsm. rewrite Hc, Hnz in Hsm.
    change (1 =? 1) with true in Hsm. cbv beta iota in Hsm.
    by rewrite adjacent_cells_order in Hsm.
  - destruct (choose_move_with_cases hash budget_exceeded self true g)
      as [_ [[? _] | [(_ & ? & _) | [(_ & _ & m & Hm & H & _)
                                    | (_ & _ & ? & _)]]]];
      [done | lia | congruence | congruence].
Qed.

(** C9. A move returned by [choose_move] is an in-bounds cell that is
    Empty on the board given. *)
Theorem choose_move_legal (g : GomokuGame) (r c : Z) :
  choose_move hash budget_exceeded self g = Some (r, c) ->
  in_bounds g r c = true ∧ cell g r c = 0.
Proof.
  unfold choose_move. intros Hm.
  assert (Hlegal : forall rc, rc ∈ get_valid_moves g ->
            in_bounds g rc.1 rc.2 = true ∧ cell g rc.1 rc.2 = 0).
  { intros [r' c'] [Hin Hz]%elem_of_get_valid_moves.
    by apply in_bounds_coords in Hin. }
  destruct (choose_move_with_cases hash budget_exceeded self true g)
    as [_ [[_ H] | [(Hv & Hc & H & _) | [(_ & _ & m & Hs & H & _)
                                    | (_ & _ & _ & m & H & Hin)]]]].
  - congruence.
  - rewrite Hm in H. injection H as -> ->.
    apply (Hlegal (_, _)). rewrite (count_nonzero_0 g Hc) in Hv |- *.
    destruct (coords (board_size g)) as [| [r0 c0] l] eqn:E; [done |].
    assert (Hin : (r0, c0) ∈ coords (board_size g)) by (rewrite E; left).
    rewrite <- E. apply elem_of_coords in Hin. apply elem_of_coords.
    assert (Hpos : 0 < board_size g) by lia.
    split; split; try (apply Z.div_pos; lia);
      apply Z.div_lt_upper_bound; lia.
  - rewrite Hm in H. injection H as <-.
    unfold second_move in Hs. destruct (count_nonzero g =? 1); [| done].
    destruct (nonzero g) as [| [row col] rest]; [done |].
    apply find_some in Hs as [_ Hs]. by apply is_valid_move_spec in Hs.
  - rewrite Hm in H. injection H as <-.
    apply (Hlegal (r, c)). by eapply elem_of_sorted_moves.
Qed.

(** C10. From a table holding finite scores, [minimax] returns a finite
    score and leaves a table holding finite scores. *)
Theorem minimax_finite (depth : nat) (alpha beta : score)
    (is_maximizing : bool) (st : state) :
  tt_finite st ->
  finite (minimax hash budget_exceeded self depth alpha beta
            is_maximizing st).1
  ∧ tt_finite (minimax hash budget_exceeded self depth alpha beta
                 is_maximizing st).2.
Proof. intros Hst. by apply minimax_with_finite. Qed.

End Claims.

(** C8. In each of the four windows of [evaluate_position], reading the
    off-board cells as opposing stones leaves the pattern score unchanged,
    and so the positional score is the sum of the scores of the windows
    read that way. *)
Theorem evaluate_position_boundary_blocks (g : GomokuGame)
    (row col player_id : Z) :
  (forall d,
     line_score (map block_as_opponent (build_line g row col player_id d))
     = line_score (build_line g row col player_id d))
  ∧ evaluate_position g row col player_id
    = sumZ (map (fun d => line_score
                   (map block_as_opponent (build_line g row col player_id d)))
                eval_directions).
Proof.
  split; [intros d; apply line_score_blocked |].
  unfold evaluate_position. f_equal. apply map_ext.
  intros d. by rewrite line_score_blocked.
Qed.

(** * Pruning without the table *)

Lemma score_ltb_slt (a b : score) : score_ltb a b = true ↔ slt a b.
Proof. destruct a, b; simpl; try done. apply Z.ltb_lt. Qed.

Lemma score_ltb_sle (a b : score) : score_ltb a b = false ↔ sle b a.
Proof. destruct a, b; simpl; try done. apply Z.ltb_ge. Qed.

Lemma score_leb_sle (a b : score) : score_leb a b = true ↔ sle a b.
Proof.
  unfold score_leb. rewrite negb_true_iff. apply score_ltb_sle.
Qed.

Lemma score_leb_slt (a b : score) : score_leb a b = false ↔ slt b a.
Proof.
  unfold score_leb. rewrite negb_false_iff. apply score_ltb_slt.
Qed.

Lemma score_max_fin (x y : Z) : score_max (Fin x) (Fin y) = Fin (Z.max x y).
Proof.
  unfold score_max. simpl. destruct (Z.ltb_spec x y); f_equal; lia.
Qed.

Lemma score_min_fin (x y : Z) : score_min (Fin x) (Fin y) = Fin (Z.min x y).
Proof.
  unfold score_min. simpl. destruct (Z.ltb_spec y x); f_equal; lia.
Qed.

Lemma sle_antisym (a b : score) : sle a b -> sle b a -> a = b.
Proof. destruct a, b; simpl; try done. intros. f_equal. lia. Qed.

Lemma sle_refl (a : score) : sle a a.
Proof. destruct a; simpl; try done. Qed.

(** Reduce the order facts in sight once the scores are known up to their
    integer, and leave linear arithmetic. *)
Ltac score_simpl :=
  rewrite ?score_max_fin, ?score_min_fin in *;
  cbn [score_max score_min score_ltb slt sle] in *;
  rewrite ?score_max_fin, ?score_min_fin in *;
  cbn [score_max score_min score_ltb slt sle] in *.

Lemma same_eq (a b : score) : same a b ↔ a = b.
Proof.
  split; [intros [? ?]; by apply sle_antisym |].
  intros ->. split; apply sle_refl.
Qed.

Lemma bounds_exact (v alpha beta : score) : bounds v alpha beta v.
Proof. unfold bounds, same. destruct v; simpl; lia. Qed.

Ltac score_cases :=
  unfold bounds, same in *;
  repeat (match goal with s : score |- _ => destruct s end;
          cbn [score_max score_min score_ltb slt sle] in *;
          try contradiction);
  score_simpl; try tauto; try lia.

(** The order-theoretic core of the loop of a maximizing node: the
    running maximum [ms], the raised [alpha], the maximum [done] of the
    values of the children searched so far. *)
Lemma max_step_cut (alpha beta ms done r v total : score) :
  slt alpha beta -> slt (score_max alpha ms) beta ->
  (sle ms alpha -> sle done ms) -> (slt alpha ms -> same ms done) ->
  bounds r (score_max alpha ms) beta v ->
  sle beta (score_max (score_max alpha ms) (score_max ms r)) ->
  sle (score_max done v) total ->
  bounds (score_max ms r) alpha beta total.
Proof. intros. score_cases. Qed.

Lemma max_step_go (alpha beta ms done r v : score) :
  slt alpha beta -> slt (score_max alpha ms) beta ->
  (sle ms alpha -> sle done ms) -> (slt alpha ms -> same ms done) ->
  bounds r (score_max alpha ms) beta v ->
  slt (score_max (score_max alpha ms) (score_max ms r)) beta ->
  score_max (score_max alpha ms) (score_max ms r)
  = score_max alpha (score_max ms r)
  ∧ (sle (score_max ms r) alpha -> sle (score_max done v) (score_max ms r))
  ∧ (slt alpha (score_max ms r) -> same (score_max ms r) (score_max done v)).
Proof.
  intros. split.
  - clear. destruct alpha, ms, r; score_simpl; try done; f_equal; lia.
  - score_cases.
Qed.

Lemma max_done (alpha beta ms done : score) :
  slt (score_max alpha ms) beta ->
  (sle ms alpha -> sle done ms) -> (slt alpha ms -> same ms done) ->
  bounds ms alpha beta done.
Proof. intros. score_cases. Qed.

(** The same for a minimizing node. *)
Lemma min_step_cut (alpha beta ms done r v total : score) :
  slt alpha beta -> slt alpha (score_min beta ms) ->
  (sle beta ms -> sle ms done) -> (slt ms beta -> same ms done) ->
  bounds r alpha (score_min beta ms) v ->
  sle (score_min (score_min beta ms) (score_min ms r)) alpha ->
  sle total (score_min done v) ->
  bounds (score_min ms r) alpha beta total.
Proof. intros. score_cases. Qed.

Lemma min_step_go (alpha beta ms done r v : score) :
  slt alpha beta -> slt alpha (score_min beta ms) ->
  (sle beta ms -> sle ms done) -> (slt ms beta -> same ms done) ->
  bounds r alpha (score_min beta ms) v ->
  slt alpha (score_min (score_min beta ms) (score_min ms r)) ->
  score_min (score_min beta ms) (score_min ms r)
  = score_min beta (score_min ms r)
  ∧ (sle beta (score_min ms r) -> sle (score_min ms r) (score_min done v))
  ∧ (slt (score_min ms r) beta -> same (score_min ms r) (score_min done v)).
Proof.
  intros. split.
  - clear. destruct beta, ms, r; score_simpl; try done; f_equal; lia.
  - score_cases.
Qed.

Lemma min_done (alpha beta ms done : score) :
  slt alpha (score_min beta ms) ->
  (sle beta ms -> sle ms done) -> (slt ms beta -> same ms done) ->
  bounds ms alpha beta done.
Proof. intros. score_cases. Qed.

Lemma fold_max_ge (A : Type) (f : A -> score) (l : list A) (acc : score) :
  sle acc (fold_left (fun best m => score_max best (f m)) l acc).
Proof.
  revert acc. induction l as [| m l IH]; intros acc; simpl.
  - apply sle_refl.
  - specialize (IH (score_max acc (f m))).
    generalize dependent (fold_left (λ best m0, score_max best (f m0)) l
                            (score_max acc (f m))).
    generalize (f m). intros. score_cases.
Qed.

Lemma fold_min_le (A : Type) (f : A -> score) (l : list A) (acc : score) :
  sle (fold_left (fun best m => score_min best (f m)) l acc) acc.
Proof.
  revert acc. induction l as [| m l IH]; intros acc; simpl.
  - apply sle_refl.
  - specialize (IH (score_min acc (f m))).
    generalize dependent (fold_left (λ best m0, score_min best (f m0)) l
                            (score_min acc (f m))).
    generalize (f m). intros. score_cases.
Qed.

Lemma minimax_exhaustive_unfold (self : GomokuAI) (depth : nat)
    (is_maximizing : bool) (g : GomokuGame) :
  minimax_exhaustive self depth is_maximizing g =
  let winner := check_winner g in
  if bool_decide (winner = Some (player_id self)) then Fin 1000000
  else if bool_decide (winner = Some (opponent_id self)) then Fin (-1000000)
  else if bool_decide (get_valid_moves g = []) then Fin 0
  else
    match depth with
    | O => Fin (evaluate (player_id self) g)
    | S depth' =>
        let sorted_moves := sorted_moves (player_id self) g in
        if is_maximizing then
          fold_left
            (fun best move =>
               score_max best
                 (minimax_exhaustive self depth' false
                    (set_cell g move.1 move.2 (player_id self))))
            sorted_moves NegInf
        else
          fold_left
            (fun best move =>
               score_min best
                 (minimax_exhaustive self depth' true
                    (set_cell g move.1 move.2 (opponent_id self))))
            sorted_moves PosInf
    end.
Proof.
  destruct depth; [reflexivity |]. simpl.
  by rewrite get_sorted_moves_pure.
Qed.

Section Pruning.

Variable hash : list Z -> bool -> Z.
Variable self : GomokuAI.

Abbreviation mm := (minimax_with hash unbounded self).
Abbreviation maxl := (max_loop self).
Abbreviation minl := (min_loop self).

Lemma max_loop_bounds (search : score -> score -> state -> score * state)
    (value : GomokuGame -> score) (alpha beta : score)
    (moves : list (Z * Z)) :
  exact_search search value -> slt alpha beta ->
  forall (ms done : score) (st : state),
    all_empty (game st) moves ->
    slt (score_max alpha ms) beta ->
    (sle ms alpha -> sle done ms) -> (slt alpha ms -> same ms done) ->
    bounds (maxl search moves ms (score_max alpha ms) beta st).1
      alpha beta
      (fold_left
         (fun best m =>
            score_max best
              (value (set_cell (game st) m.1 m.2 (player_id self))))
         moves done)
    ∧ game (maxl search moves ms (score_max alpha ms) beta st).2
      = game st.
Proof.
  intros Hs Hab. induction moves as [| m moves IH];
    intros ms done st Hall Hcur Hlo Hhi.
  { simpl. split; [by apply max_done | done]. }
  apply Forall_cons in Hall as [Hm Hall]. cbn [max_loop fold_left].
  destruct (Hs (score_max alpha ms) beta (place st m (player_id self)) Hcur)
    as [Hb Hg].
  destruct (search _ _ _) as [r st2]. cbn [fst snd] in Hb, Hg.
  cbn [place with_game game] in Hb, Hg.
  set (v := value (set_cell (game st) m.1 m.2 (player_id self))) in *.
  assert (Hg3 : game (place st2 m 0) = game st).
  { cbn [place with_game game]. rewrite Hg. by apply place_restore. }
  destruct (score_leb beta _) eqn:Hcut.
  - cbn [fst snd]. split; [| done].
    apply score_leb_sle in Hcut.
    eapply max_step_cut; eauto. apply fold_max_ge.
  - apply score_leb_slt in Hcut.
    destruct (max_step_go alpha beta ms done r v) as (Heq & Hlo' & Hhi');
      try done.
    rewrite Heq in Hcut |- *.
    destruct (IH (score_max ms r) (score_max done v) (place st2 m 0))
      as [Hb' Hg']; try done; [by rewrite Hg3 |].
    rewrite Hg3 in Hb', Hg'. done.
Qed.

Lemma min_loop_bounds (search : score -> score -> state -> score * state)
    (value : GomokuGame -> score) (alpha beta : score)
    (moves : list (Z * Z)) :
  exact_search search value -> slt alpha beta ->
  forall (ms done : score) (st : state),
    all_empty (game st) moves ->
    slt alpha (score_min beta ms) ->
    (sle beta ms -> sle ms done) -> (slt ms beta -> same ms done) ->
    bounds (minl search moves ms alpha (score_min beta ms) st).1
      alpha beta
      (fold_left
         (fun best m =>
            score_min best
              (value (set_cell (game st) m.1 m.2 (opponent_id self))))
         moves done)
    ∧ game (minl search moves ms alpha (score_min beta ms) st).2
      = game st.
Proof.
  intros Hs Hab. induction moves as [| m moves IH];
    intros ms done st Hall Hcur Hlo Hhi.
  { simpl. split; [by apply min_done | done]. }
  apply Forall_cons in Hall as [Hm Hall]. cbn [min_loop fold_left].
  destruct (Hs alpha (score_min beta ms) (place st m (opponent_id self)) Hcur)
    as [Hb Hg].
  destruct (search _ _ _) as [r st2]. cbn [fst snd] in Hb, Hg.
  cbn [place with_game game] in Hb, Hg.
  set (v := value (set_cell (game st) m.1 m.2 (opponent_id self))) in *.
  assert (Hg3 : game (place st2 m 0) = game st).
  { cbn [place with_game game]. rewrite Hg. by apply place_restore. }
  destruct (score_leb _ alpha) eqn:Hcut.
  - cbn [fst snd]. split; [| done].
    apply score_leb_sle in Hcut.
    eapply min_step_cut; eauto. apply fold_min_le.
  - apply score_leb_slt in Hcut.
    destruct (min_step_go alpha beta ms done r v) as (Heq & Hlo' & Hhi');
      try done.
    rewrite Heq in Hcut |- *.
    destruct (IH (score_min ms r) (score_min done v) (place st2 m 0))
      as [Hb' Hg']; try done; [by rewrite Hg3 |].
    rewrite Hg3 in Hb', Hg'. done.
Qed.

(** With every lookup missing and no deadline, [minimax] is exact inside
    its window. *)
Lemma minimax_nocache_exact (depth : nat) (is_maximizing : bool) :
  exact_search (fun a b => mm false depth a b is_maximizing)
               (minimax_exhaustive self depth is_maximizing).
Proof.
  revert is_maximizing. induction depth as [| depth IH];
    intros im a b st Hab; (split; [| apply minimax_with_game]);
    rewrite minimax_with_unfold, minimax_exhaustive_unfold;
    unfold out_of_time, unbounded; cbv beta iota zeta;
    cbn [tt_probe];
    (assert (Hg : game (tick (count_node st)) = game st) by reflexivity);
    generalize dependent (tick (count_node st)); intros st1 Hg;
    rewrite <- Hg;
    repeat (case_bool_decide; [apply bounds_exact |]).
  - apply bounds_exact.
  - rewrite get_sorted_moves_pure. cbv beta iota zeta. rewrite with_game_id.
    destruct im.
    + destruct (max_loop_bounds
                  (fun a b => mm false depth a b false)
                  (minimax_exhaustive self depth false) a b
                  (sorted_moves (player_id self) (game st1))
                  (IH false) Hab NegInf NegInf st1) as [Hb _];
        try done.
      * apply sorted_moves_empty.
      * by replace (score_max a NegInf) with a by (by destruct a).
      * replace (score_max a NegInf) with a in Hb by (by destruct a).
        by destruct (max_loop _ _ _ _ _ _ _).
    + destruct (min_loop_bounds
                  (fun a b => mm false depth a b true)
                  (minimax_exhaustive self depth true) a b
                  (sorted_moves (player_id self) (game st1))
                  (IH true) Hab PosInf PosInf st1) as [Hb _];
        try done.
      * apply sorted_moves_empty.
      * by replace (score_min b PosInf) with b by (by destruct b).
      * replace (score_min b PosInf) with b in Hb by (by destruct b).
        by destruct (min_loop _ _ _ _ _ _ _).
Qed.

Lemma fold_max_finite (A : Type) (f : A -> score) (l : list A)
    (acc : score) :
  (forall m, finite (f m)) -> acc ≠ PosInf -> (finite acc ∨ l ≠ []) ->
  finite (fold_left (fun best m => score_max best (f m)) l acc).
Proof.
  intros Hf. revert acc. induction l as [| m l IH]; intros acc Hacc Hor.
  - by destruct Hor.
  - simpl. pose proof (score_max_finite acc (f m) Hacc (Hf m)) as Hm.
    apply IH; [by apply finite_not_inf | by left].
Qed.

Lemma fold_min_finite (A : Type) (f : A -> score) (l : list A)
    (acc : score) :
  (forall m, finite (f m)) -> acc ≠ NegInf -> (finite acc ∨ l ≠ []) ->
  finite (fold_left (fun best m => score_min best (f m)) l acc).
Proof.
  intros Hf. revert acc. induction l as [| m l IH]; intros acc Hacc Hor.
  - by destruct Hor.
  - simpl. pose proof (score_min_finite acc (f m) Hacc (Hf m)) as Hm.
    apply IH; [by apply finite_not_inf | by left].
Qed.

Lemma minimax_exhaustive_finite (depth : nat) (is_maximizing : bool)
    (g : GomokuGame) :
  finite (minimax_exhaustive self depth is_maximizing g).
Proof.
  revert is_maximizing g. induction depth as [| depth IH]; intros im g;
    rewrite minimax_exhaustive_unfold; cbv zeta;
    repeat (case_bool_decide; [done |]); [done |].
  assert (Hne : sorted_moves (player_id self) g ≠ []).
  { intros Hnil. by apply sorted_moves_nil in Hnil. }
  destruct im.
  - apply fold_max_finite; [intros; apply IH | done | by right].
  - apply fold_min_finite; [intros; apply IH | done | by right].
Qed.

Abbreviation rootl := (root_loop hash unbounded self).
Abbreviation deep := (deepen hash unbounded self).
Abbreviation choose := (choose_move_with hash unbounded self).

Lemma root_step_first (depth : nat) (g : GomokuGame) (bm first : Z * Z)
    (rest : list (Z * Z)) :
  fold_left (root_step self depth g) (first :: rest) (bm, NegInf)
  = fold_left (root_step self depth g) (first :: rest) (first, NegInf).
Proof.
  cbn [fold_left]. f_equal. unfold root_step. cbn [fst snd].
  pose proof (minimax_exhaustive_finite (Nat.pred depth) false
                (set_cell g first.1 first.2 (player_id self))) as Hfin.
  by destruct (minimax_exhaustive _ _ _ _).
Qed.

(** Without the table, the root loop keeps the move and score an
    exhaustive search keeps. *)
Lemma root_loop_exhaustive (depth : nat) (moves : list (Z * Z)) :
  forall (bm : Z * Z) (bs : score) (st : state),
    all_empty (game st) moves -> bs ≠ PosInf ->
    (rootl false depth moves bm bs bs st).1
    = fold_left (root_step self depth (game st)) moves (bm, bs).
Proof.
  induction moves as [| m moves IH]; intros bm bs st Hall Hbs; [done |].
  apply Forall_cons in Hall as [Hm Hall]. cbn [root_loop fold_left].
  assert (Hwin : slt bs PosInf) by (by destruct bs).
  destruct (minimax_nocache_exact (Nat.pred depth) false bs PosInf
              (place st m (player_id self)) Hwin) as [Hb Hg].
  destruct (minimax_with _ _ _ _ _ _ _ _ _) as [s st2].
  cbn [fst snd place with_game game] in Hb, Hg.
  pose proof (minimax_exhaustive_finite (Nat.pred depth) false
                (set_cell (game st) m.1 m.2 (player_id self))) as Hfin.
  unfold root_step at 2. cbn [fst snd].
  set (v := minimax_exhaustive self (Nat.pred depth) false
              (set_cell (game st) m.1 m.2 (player_id self))) in *.
  assert (Hg3 : game (tick (place st2 m 0)) = game st).
  { cbn [tick place with_game game]. rewrite Hg. by apply place_restore. }
  unfold out_of_time, unbounded. cbv beta iota.
  destruct (score_ltb bs s) eqn:Hlt.
  - apply score_ltb_slt in Hlt.
    assert (Hsv : s = v).
    { apply same_eq. destruct Hb as (Hin & _ & Hhi). apply Hin; [done |].
      destruct s; try done. specialize (Hhi I). by destruct v. }
    subst s. rewrite (proj2 (score_ltb_slt bs v) Hlt).
    replace (score_max bs v) with v.
    + rewrite IH; [by rewrite Hg3 | by rewrite Hg3 | by destruct v].
    + clear -Hlt. destruct bs, v; score_simpl; try done. f_equal. lia.
  - apply score_ltb_sle in Hlt.
    assert (Hv : score_ltb bs v = false).
    { apply score_ltb_sle. destruct Hb as (_ & Hlo & _).
      specialize (Hlo Hlt). clear -Hlo Hlt.
      destruct bs, s, v; simpl in *; try done. lia. }
    rewrite Hv. replace (score_max bs bs) with bs.
    + rewrite IH; [by rewrite Hg3 | by rewrite Hg3 | done].
    + clear. destruct bs; score_simpl; try done. f_equal. lia.
Qed.

Lemma deepen_exhaustive (depths : list nat) (depth : nat)
    (first : Z * Z) (rest : list (Z * Z)) :
  forall (bm : Z * Z) (bs : score) (st : state),
    all_empty (game st) (first :: rest) ->
    (deep false (depths ++ [depth]) (first :: rest) bm bs st).1
    = fold_left (root_step self depth (game st)) (first :: rest)
                (first, NegInf).
Proof.
  induction depths as [| d depths IH]; intros bm bs st Hall;
    cbn [app deepen]; unfold out_of_time, unbounded; cbv beta iota.
  - pose proof (root_loop_exhaustive depth (first :: rest) bm NegInf
                  (tick st) Hall) as Hr.
    destruct (root_loop _ _ _ _ _ _ _ _ _ _) as [[bm' bs'] st2].
    cbn [deepen fst snd] in *. rewrite Hr; [| done].
    apply root_step_first.
  - pose proof (root_loop_game hash unbounded self false d (first :: rest)
                  bm NegInf NegInf (tick st) Hall) as Hg.
    destruct (root_loop _ _ _ _ _ _ _ _ _ _) as [[bm' bs'] st2].
    cbn [snd tick game] in Hg.
    rewrite IH; [by rewrite Hg | by rewrite Hg].
Qed.

(** Pruning is sound: with every table lookup missing and no deadline,
    the search run by [choose_move] returns the root move and root score
    of the exhaustive search at depth [max_depth]. *)
Theorem choose_move_nocache_exhaustive (g : GomokuGame) :
  (1 <= max_depth self)%nat ->
  2 <= count_nonzero g ->
  get_valid_moves g ≠ [] ->
  exists move s,
    exhaustive_choice self (max_depth self) g = Some (move, s)
    ∧ (choose_move_with hash unbounded self false g).1 = (Some move, s).
Proof.
  intros Hd Hc Hv. unfold exhaustive_choice, choose_move_with.
  rewrite get_sorted_moves_pure. cbn [fst].
  pose proof (sorted_moves_empty (player_id self) g) as Hall.
  destruct (sorted_moves (player_id self) g) as [| first rest] eqn:Hm.
  { by apply sorted_moves_nil in Hm. }
  destruct (count_nonzero g =? 0) eqn:H0; [lia |].
  destruct (count_nonzero g =? 1) eqn:H1; [lia |].
  destruct (max_depth self) as [| n] eqn:Hn; [lia |].
  rewrite seq_S. cbn [Nat.add].
  pose proof (deepen_exhaustive (seq 1 n) (S n) first rest first NegInf
                {| game := g; nodes_evaluated := 0;
                   transposition_table := ∅; clock_reads := 0 |} Hall)
    as Hdeep.
  destruct (deepen _ _ _ _ _ _ _ _ _) as [[bm bs] st].
  cbn [fst snd game] in *.
  exists bm, bs. by rewrite <- Hdeep.
Qed.

End Pruning.

(** * Terminal positions and the sentinel scores *)

Lemma board_key_collision_free : collision_free board_key.
Proof.
  intros b b' m m' H. unfold board_key in H.
  injection H as H. apply (inj encode) in H. by injection H.
Qed.

Lemma sle_trans (a b c : score) : sle a b -> sle b c -> sle a c.
Proof. destruct a, b, c; simpl; try done. lia. Qed.

Section Sentinel.

Variable hash : list Z -> bool -> Z.
Variable budget_exceeded : nat -> bool.
Variable self : GomokuAI.

Abbreviation mm := (minimax_with hash budget_exceeded self).
Abbreviation maxl := (max_loop self).
Abbreviation minl := (min_loop self).
Abbreviation rootl := (root_loop hash budget_exceeded self).
Abbreviation deep := (deepen hash budget_exceeded self).

Lemma tt_terminal_free_place (n : Z) (st : state) (m : Z * Z) (v : Z) :
  tt_terminal_free hash self n st -> tt_terminal_free hash self n (place st m v).
Proof. by intros [Hn Ht]. Qed.

Lemma tt_terminal_free_store (n : Z) (st st' : state) (im : bool)
    (s : score) (d : nat) :
  tt_terminal_free hash self n st -> board_size (game st') = n ->
  ¬ terminal self (game st') ->
  tt_terminal_free hash self n (tt_store st (hash (board (game st')) im) s d).
Proof.
  intros [Hn Ht] Hn' Hnt. split; [done |]. intros k e. unfold tt_store.
  simpl. rewrite lookup_insert. case_decide as Hk.
  - intros _. exists (game st'), im. by rewrite Hk.
  - apply Ht.
Qed.

Lemma max_loop_terminal_free (n : Z)
    (search : score -> score -> state -> score * state)
    (moves : list (Z * Z)) (ms alpha beta : score) (st : state) :
  keeps_terminal_free hash self n search -> tt_terminal_free hash self n st ->
  tt_terminal_free hash self n (maxl search moves ms alpha beta st).2.
Proof.
  intros Hs. revert ms alpha st.
  induction moves as [| m moves IH]; intros ms alpha st Hst; simpl; [done |].
  pose proof (Hs alpha beta (place st m (player_id self))
                (tt_terminal_free_place n st m _ Hst)) as H2.
  destruct (search alpha beta _) as [s st2]. simpl in H2.
  destruct (score_leb _ _); simpl.
  - by apply tt_terminal_free_place.
  - by apply IH, tt_terminal_free_place.
Qed.

Lemma min_loop_terminal_free (n : Z)
    (search : score -> score -> state -> score * state)
    (moves : list (Z * Z)) (ms alpha beta : score) (st : state) :
  keeps_terminal_free hash self n search -> tt_terminal_free hash self n st ->
  tt_terminal_free hash self n (minl search moves ms alpha beta st).2.
Proof.
  intros Hs. revert ms beta st.
  induction moves as [| m moves IH]; intros ms beta st Hst; simpl; [done |].
  pose proof (Hs alpha beta (place st m (opponent_id self))
                (tt_terminal_free_place n st m _ Hst)) as H2.
  destruct (search alpha beta _) as [s st2]. simpl in H2.
  destruct (score_leb _ _); simpl.
  - by apply tt_terminal_free_place.
  - by apply IH, tt_terminal_free_place.
Qed.

Lemma minimax_with_terminal_free (n : Z) (cached : bool) (depth : nat)
    (is_maximizing : bool) :
  keeps_terminal_free hash self n
    (fun a b => mm cached depth a b is_maximizing).
Proof.
  revert is_maximizing.
  induction depth as [| depth IH]; intros im a b st Hst;
    rewrite minimax_with_unfold; unfold out_of_time; cbv beta iota zeta;
    (assert (Hst1 : tt_terminal_free hash self n (tick (count_node st))) by done);
    generalize dependent (tick (count_node st)); intros st1 Hst1;
    (destruct (budget_exceeded _); [done |]);
    (destruct (tt_probe _ _ _ _); [done |]);
    repeat (case_bool_decide; [done |]).
  - apply tt_terminal_free_store; [done | apply Hst1 |].
    unfold terminal. tauto.
  - rewrite get_sorted_moves_pure. cbv beta iota zeta. rewrite with_game_id.
    assert (Hnt : ¬ terminal self (game st1)) by (unfold terminal; tauto).
    destruct im.
    + pose proof (max_loop_terminal_free n
                    (fun a b => mm cached depth a b false)
                    (sorted_moves (player_id self) (game st1))
                    NegInf a b st1 (IH false) Hst1) as Hl.
      destruct (max_loop _ _ _ _ _ _ _) as [ms st'].
      apply tt_terminal_free_store; [done | apply Hst1 | done].
    + pose proof (min_loop_terminal_free n
                    (fun a b => mm cached depth a b true)
                    (sorted_moves (player_id self) (game st1))
                    PosInf a b st1 (IH true) Hst1) as Hl.
      destruct (min_loop _ _ _ _ _ _ _) as [ms st'].
      apply tt_terminal_free_store; [done | apply Hst1 | done].
Qed.

(** With collision-free keys a terminal position is never answered from
    the table. *)
Lemma tt_probe_terminal (n : Z) (cached : bool) (st : state) (im : bool)
    (depth : nat) :
  collision_free hash -> tt_terminal_free hash self n st ->
  terminal self (game st) ->
  tt_probe cached st (hash (board (game st)) im) depth = None.
Proof.
  intros Hinj [Hn Ht] Hterm. unfold tt_probe. destruct cached; [| done].
  destruct (transposition_table st !! _) as [e |] eqn:E; [| done].
  destruct (Ht _ _ E) as (g & m & Hg & Hk & Hnt).
  apply Hinj in Hk as [Hb _]. exfalso. apply Hnt.
  replace g with (game st); [done |].
  destruct g, (game st). simpl in *. congruence.
Qed.

End Sentinel.

Section Winning.

Variable hash : list Z -> bool -> Z.
Variable self : GomokuAI.
Hypothesis hash_collision_free : collision_free hash.

Abbreviation mm := (minimax_with hash unbounded self).
Abbreviation rootl := (root_loop hash unbounded self).
Abbreviation deep := (deepen hash unbounded self).

(** The three sentinel scores of a terminal position. *)
Lemma minimax_terminal (n : Z) (cached : bool) (depth : nat)
    (alpha beta : score) (is_maximizing : bool) (st : state) :
  tt_terminal_free hash self n st ->
  let s := (mm cached depth alpha beta is_maximizing st).1 in
  (check_winner (game st) = Some (player_id self) -> s = Fin 1000000)
  ∧ (check_winner (game st) = Some (opponent_id self) ->
     s = Fin (-1000000))
  ∧ (check_winner (game st) ≠ Some (player_id self) ->
     check_winner (game st) ≠ Some (opponent_id self) ->
     get_valid_moves (game st) = [] -> s = Fin 0).
Proof.
  intros Hst. cbv zeta.
  assert (Hne : player_id self ≠ opponent_id self)
    by (unfold opponent_id; lia).
  rewrite minimax_with_unfold. unfold out_of_time, unbounded.
  cbv beta iota zeta.
  assert (Hst1 : tt_terminal_free hash self n (tick (count_node st)))
    by done.
  assert (Hg : game (tick (count_node st)) = game st) by done.
  generalize dependent (tick (count_node st)). intros st1 Hst1 Hg.
  rewrite <- Hg.
  repeat split; intros;
    (rewrite (tt_probe_terminal hash self n);
       [| done | done | unfold terminal; tauto]);
    repeat case_bool_decide; cbn [fst]; congruence.
Qed.

(** The root loop never lowers [best_score], and a move that wins at
    once lifts it to the sentinel. *)
Lemma root_loop_sentinel (n : Z) (cached : bool) (depth : nat)
    (moves : list (Z * Z)) :
  forall (bm : Z * Z) (bs alpha : score) (st : state),
    tt_terminal_free hash self n st ->
    all_empty (game st) moves ->
    let r := rootl cached depth moves bm bs alpha st in
    tt_terminal_free hash self n r.2
    ∧ sle bs r.1.2
    ∧ (forall w, w ∈ moves ->
         check_winner (set_cell (game st) w.1 w.2 (player_id self))
         = Some (player_id self) ->
         sle (Fin 1000000) r.1.2).
Proof.
  induction moves as [| m moves IH]; intros bm bs alpha st Hst Hall;
    cbv zeta.
  { simpl. split; [done |]. split; [apply sle_refl |].
    by intros w Hw%elem_of_nil. }
  apply Forall_cons in Hall as [Hm Hall]. cbn [root_loop].
  pose proof (tt_terminal_free_place hash self n st m (player_id self) Hst)
    as Hst1.
  pose proof (minimax_with_terminal_free hash unbounded self n cached
                (Nat.pred depth) false alpha PosInf _ Hst1) as Hst2.
  cbv beta in Hst2.
  pose proof (minimax_with_game hash unbounded self cached (Nat.pred depth)
                alpha PosInf false (place st m (player_id self))) as Hg2.
  pose proof (minimax_terminal n cached (Nat.pred depth) alpha PosInf false
                _ Hst1) as (Hwin & _).
  destruct (minimax_with _ _ _ _ _ _ _ _ _) as [s st2].
  cbn [fst snd place with_game game] in Hst2, Hg2, Hwin.
  unfold out_of_time, unbounded. cbv beta iota.
  assert (Hg3 : game (tick (place st2 m 0)) = game st).
  { cbn [tick place with_game game]. rewrite Hg2. by apply place_restore. }
  assert (Hst3 : tt_terminal_free hash self n (tick (place st2 m 0))).
  { exact (tt_terminal_free_place hash self n st2 m 0 Hst2). }
  set (best := if score_ltb bs s then (s, m) else (bs, bm)).
  assert (Hbest : sle bs best.1 ∧ sle s best.1).
  { unfold best. destruct (score_ltb bs s) eqn:E; cbn [fst].
    - apply score_ltb_slt in E. split; [| apply sle_refl].
      clear -E. destruct bs, s; simpl in *; try done. lia.
    - apply score_ltb_sle in E. split; [apply sle_refl | done]. }
  destruct best as [bs' bm'] eqn:Eb. cbn [fst] in Hbest.
  destruct Hbest as [Hbs Hs].
  destruct (IH bm' bs' (score_max alpha bs') (tick (place st2 m 0)))
    as (Ht & Hmono & Hw); [done | by rewrite Hg3 |].
  rewrite Hg3 in Hw.
  split; [done |]. split; [by eapply sle_trans |].
  intros w [-> | Hin]%elem_of_cons Hwins.
  - rewrite (Hwin Hwins) in Hs. by eapply sle_trans.
  - by apply (Hw w).
Qed.

Lemma deepen_sentinel (n : Z) (cached : bool) (depths : list nat)
    (valid_moves : list (Z * Z)) (w : Z * Z) :
  forall (bm : Z * Z) (bs : score) (st : state),
    depths ≠ [] ->
    tt_terminal_free hash self n st ->
    all_empty (game st) valid_moves ->
    w ∈ valid_moves ->
    check_winner (set_cell (game st) w.1 w.2 (player_id self))
    = Some (player_id self) ->
    sle (Fin 1000000) (deep cached depths valid_moves bm bs st).1.2.
Proof.
  induction depths as [| d depths IH]; intros bm bs st Hne Hst Hall Hin Hw;
    [done |].
  cbn [deepen]. unfold out_of_time, unbounded. cbv beta iota.
  destruct (root_loop_sentinel n cached d valid_moves bm NegInf NegInf
              (tick st)) as (Ht & _ & Hs); [done | done |].
  pose proof (root_loop_game hash unbounded self cached d valid_moves bm
                NegInf NegInf (tick st) Hall) as Hg.
  specialize (Hs w Hin Hw).
  destruct (root_loop _ _ _ _ _ _ _ _ _ _) as [[bm' bs'] st2].
  cbn [fst snd tick game] in *.
  destruct depths as [| d' depths']; [done |].
  apply IH; [done | done | by rewrite Hg | done | by rewrite Hg].
Qed.

End Winning.

(** * A move that completes five is a generated move *)

Lemma cell_index_inj (g : GomokuGame) (r c r' c' : Z) :
  in_bounds g r c = true -> in_bounds g r' c' = true ->
  cell_index g r c = cell_index g r' c' -> (r, c) = (r', c').
Proof.
  intros [Hr Hc]%in_bounds_spec [Hr' Hc']%in_bounds_spec. unfold cell_index.
  intros H. apply Z2Nat.inj in H; [| nia | nia].
  assert (r = r') by nia. subst r'. f_equal. lia.
Qed.

Lemma cell_set_cell_eq (g : GomokuGame) (r c v : Z) :
  well_formed g -> in_bounds g r c = true ->
  cell (set_cell g r c v) r c = v.
Proof.
  intros [Hn Hlen] [Hr Hc]%in_bounds_spec.
  unfold cell, set_cell, cell_index. simpl.
  apply nth_lookup_Some. apply list_lookup_insert_eq.
  rewrite Hlen. apply Z2Nat.inj_lt; nia.
Qed.

Lemma cell_set_cell_ne (g : GomokuGame) (r c v r' c' : Z) :
  in_bounds g r c = true -> in_bounds g r' c' = true ->
  (r', c') ≠ (r, c) ->
  cell (set_cell g r c v) r' c' = cell g r' c'.
Proof.
  intros Hb Hb' Hne. unfold cell, set_cell. simpl.
  change (Z.to_nat (r' * board_size g + c')) with (cell_index g r' c').
  rewrite !nth_lookup. rewrite list_lookup_insert_ne; [done |].
  intros Heq. apply Hne. symmetry. by apply (cell_index_inj g).
Qed.

Lemma in_bounds_set_cell (g : GomokuGame) (r c v r' c' : Z) :
  in_bounds (set_cell g r c v) r' c' = in_bounds g r' c'.
Proof. reflexivity. Qed.

Lemma has_neighbor_intro (g : GomokuGame) (r c dr dc : Z) :
  -2 <= dr <= 2 -> -2 <= dc <= 2 ->
  in_bounds g (r + dr) (c + dc) = true -> cell g (r + dr) (c + dc) ≠ 0 ->
  has_neighbor g r c = true.
Proof.
  intros Hdr Hdc Hb Hs. unfold has_neighbor.
  apply existsb_exists. exists dr. split.
  { apply list_elem_of_In, elem_of_seqZ. lia. }
  apply existsb_exists. exists dc. split.
  { apply list_elem_of_In, elem_of_seqZ. lia. }
  rewrite Hb. simpl. by apply negb_true_iff, Z.eqb_neq.
Qed.

(** A walk that counts differently after a stone is placed at [w] reaches
    [w], and the cell it leaves to step onto [w] is the start of the walk
    or a stone of the counted side. *)
Lemma run_length_changed (g : GomokuGame) (w : Z * Z) (v pl dr dc : Z)
    (steps : nat) :
  in_bounds g w.1 w.2 = true ->
  forall r c,
    run_length (set_cell g w.1 w.2 v) pl r c dr dc steps
    ≠ run_length g pl r c dr dc steps ->
    exists k, 1 <= k ∧ w = (r + k * dr, c + k * dc)
      ∧ (k = 1 ∨ (in_bounds g (r + (k - 1) * dr) (c + (k - 1) * dc) = true
                  ∧ cell g (r + (k - 1) * dr) (c + (k - 1) * dc) = pl)).
Proof.
  intros Hw. induction steps as [| n IH]; intros r c Hne; [done |].
  cbn [run_length] in Hne. cbv zeta in Hne.
  rewrite in_bounds_set_cell in Hne.
  destruct (decide ((r + dr, c + dc) = w)) as [Heq | Hneq].
  { exists 1. split; [lia |]. split; [| by left].
    rewrite <- Heq. f_equal; lia. }
  destruct (in_bounds g (r + dr) (c + dc)) eqn:Hb; [| done].
  rewrite cell_set_cell_ne in Hne; [| done | done | by destruct w].
  cbn [andb] in Hne.
  destruct (cell g (r + dr) (c + dc) =? pl) eqn:Hc; [| done].
  apply Z.eqb_eq in Hc.
  destruct (IH (r + dr) (c + dc)) as (k & Hk & Hwk & Hprev); [lia |].
  exists (k + 1). split; [lia |]. split.
  { rewrite Hwk. f_equal; lia. }
  right. replace (k + 1 - 1) with k by lia.
  destruct Hprev as [-> | [Hb' Hc']].
  - rewrite !Z.mul_1_l. done.
  - replace (r + k * dr) with (r + dr + (k - 1) * dr) by lia.
    replace (c + k * dc) with (c + dc + (k - 1) * dc) by lia. done.
Qed.

Lemma run_length_first (g : GomokuGame) (pl r c dr dc : Z) (steps : nat) :
  1 <= run_length g pl r c dr dc steps ->
  in_bounds g (r + dr) (c + dc) = true ∧ cell g (r + dr) (c + dc) = pl.
Proof.
  destruct steps as [| n]; simpl; [lia |].
  destruct (in_bounds g (r + dr) (c + dc)); [| simpl; lia].
  destruct (Z.eqb_spec (cell g (r + dr) (c + dc)) pl); simpl; [done | lia].
Qed.

Lemma run_length_nonneg (g : GomokuGame) (pl r c dr dc : Z) (steps : nat) :
  0 <= run_length g pl r c dr dc steps.
Proof.
  revert r c. induction steps as [| n IH]; intros r c; simpl; [lia |].
  destruct (_ && _); [| lia]. specialize (IH (r + dr) (c + dc)). lia.
Qed.

Lemma win_directions_unit (dp : (Z * Z) * (Z * Z)) :
  In dp win_directions -> unit_step dp.1 ∧ unit_step dp.2.
Proof.
  unfold win_directions, unit_step. simpl.
  intros [<- | [<- | [<- | [<- | []]]]]; simpl; repeat split; lia || done.
Qed.

(** If placing a stone on an Empty cell [w] of a board without a line of
    five makes one, [w] has a stone next to it. *)
Lemma completing_move_has_neighbor (g : GomokuGame) (w : Z * Z) (v : Z) :
  well_formed g -> v ≠ 0 ->
  in_bounds g w.1 w.2 = true -> cell g w.1 w.2 = 0 ->
  check_winner g = None ->
  check_winner (set_cell g w.1 w.2 v) ≠ None ->
  has_neighbor g w.1 w.2 = true.
Proof.
  intros Hwf Hv Hw Hw0 Hno Hyes. unfold check_winner in Hno, Hyes.
  destruct (find (has_five g) _) eqn:Hf; [done |]. clear Hno.
  destruct (find (has_five (set_cell g w.1 w.2 v)) _) as [rc |] eqn:Hf';
    [| done]. clear Hyes.
  apply find_some in Hf' as [Hin Hfive]. simpl in Hin.
  pose proof (find_none _ _ Hf rc Hin) as Hnone.
  apply list_elem_of_In in Hin. destruct rc as [r c].
  apply in_bounds_coords in Hin.
  unfold has_five in Hfive, Hnone. cbn [fst snd] in Hfive, Hnone.
  apply andb_true_iff in Hfive as [Hstone Hline].
  apply existsb_exists in Hline as (dp & Hdp & Hcount).
  apply Z.leb_le in Hcount.
  destruct (win_directions_unit dp Hdp) as [Hu1 Hu2].
  unfold line_count in Hcount. cbv zeta in Hcount.
  destruct (decide ((r, c) = w)) as [<- | Hrc].
  - (* the new stone is the one found *)
    cbn [fst snd] in *.
    pose proof (run_length_nonneg (set_cell g r c v) (cell (set_cell g r c v) r c)
                  r c dp.1.1 dp.1.2 4).
    pose proof (run_length_nonneg (set_cell g r c v) (cell (set_cell g r c v) r c)
                  r c dp.2.1 dp.2.2 4).
    rewrite cell_set_cell_eq in *; try done.
    assert (Hdir : exists d, unit_step d ∧
              1 <= run_length (set_cell g r c v) v r c d.1 d.2 4).
    { destruct (Z.le_gt_cases 1
                  (run_length (set_cell g r c v) v r c dp.1.1 dp.1.2 4)).
      - exists dp.1. by split.
      - exists dp.2. split; [done | lia]. }
    destruct Hdir as (d & (Hd1 & Hd2 & Hdz) & Hrun).
    apply run_length_first in Hrun as [Hb Hc].
    rewrite in_bounds_set_cell in Hb.
    rewrite cell_set_cell_ne in Hc; [| done | done |].
    + apply (has_neighbor_intro g r c d.1 d.2); [lia | lia | done | lia].
    + intros [=]. apply Hdz. destruct d; simpl in *. f_equal; lia.
  - (* an older stone is found: its count has changed *)
    rewrite cell_set_cell_ne in Hstone, Hcount; [| done | done | by destruct w ..].
    rewrite Hstone in Hnone. cbn [andb] in Hnone.
    assert (Hold : line_count g r c dp < 5).
    { destruct (Z.lt_ge_cases (line_count g r c dp) 5) as [| Hge]; [done |].
      exfalso. apply Z.leb_le in Hge.
      assert (existsb (λ dp, 5 <=? line_count g r c dp) win_directions = true).
      { apply existsb_exists. by exists dp. }
      congruence. }
    unfold line_count in Hold. cbv zeta in Hold.
    assert (Hdir : exists d, unit_step d ∧
              run_length (set_cell g w.1 w.2 v) (cell g r c) r c d.1 d.2 4
              ≠ run_length g (cell g r c) r c d.1 d.2 4).
    { destruct (decide (run_length (set_cell g w.1 w.2 v) (cell g r c) r c
                          dp.1.1 dp.1.2 4
                        = run_length g (cell g r c) r c dp.1.1 dp.1.2 4)).
      - exists dp.2. split; [done | lia].
      - exists dp.1. by split. }
    destruct Hdir as (d & (Hd1 & Hd2 & Hdz) & Hrun).
    apply run_length_changed in Hrun as (k & Hk & Hwk & Hprev); [| done].
    apply negb_true_iff, Z.eqb_neq in Hstone.
    rewrite Hwk. cbn [fst snd].
    apply (has_neighbor_intro g _ _ (- d.1) (- d.2)); [lia | lia | |].
    + replace (r + k * d.1 + - d.1) with (r + (k - 1) * d.1) by lia.
      replace (c + k * d.2 + - d.2) with (c + (k - 1) * d.2) by lia.
      destruct Hprev as [-> | [Hb _]]; [| done].
      by rewrite !Z.mul_0_l, !Z.add_0_r.
    + replace (r + k * d.1 + - d.1) with (r + (k - 1) * d.1) by lia.
      replace (c + k * d.2 + - d.2) with (c + (k - 1) * d.2) by lia.
      destruct Hprev as [-> | [_ Hc]]; [| by rewrite Hc].
      by rewrite !Z.mul_0_l, !Z.add_0_r.
Qed.

(** A cell with a stone next to it is generated. *)
Lemma neighbor_in_sorted_moves (p : Z) (g : GomokuGame) (w : Z * Z) :
  in_bounds g w.1 w.2 = true -> cell g w.1 w.2 = 0 ->
  has_neighbor g w.1 w.2 = true ->
  w ∈ sorted_moves p g.
Proof.
  intros Hb H0 Hn. unfold sorted_moves.
  assert (Hc : exists key, (w, key) ∈ coords (board_size g) ≫= candidate p g).
  { unfold candidate at 1.
    eexists. apply list_elem_of_bind. exists w. split.
    - unfold candidate. rewrite H0, Hn. simpl. left.
    - destruct w. by apply in_bounds_coords. }
  destruct Hc as [key Hc].
  apply list_elem_of_fmap. exists (w, key). split; [done |].
  rewrite sort_desc_perm. unfold valid_positions.
  case_bool_decide as Hs; [| done].
  rewrite Hs in Hc. by apply elem_of_nil in Hc.
Qed.

Lemma run_length_second (g : GomokuGame) (pl r c dr dc : Z) (steps : nat) :
  2 <= run_length g pl r c dr dc steps ->
  in_bounds g (r + 2 * dr) (c + 2 * dc) = true
  ∧ cell g (r + 2 * dr) (c + 2 * dc) = pl.
Proof.
  destruct steps as [| n]; cbn [run_length]; [lia |]. cbv zeta.
  destruct (_ && _); [| lia]. intros H.
  assert (H1 : 1 <= run_length g pl (r + dr) (c + dc) dr dc n) by lia.
  apply run_length_first in H1.
  replace (r + 2 * dr) with (r + dr + dr) by lia.
  replace (c + 2 * dc) with (c + dc + dc) by lia. done.
Qed.

Lemma count_nonzero_two (g : GomokuGame) (a b : Z * Z) :
  a ≠ b ->
  in_bounds g a.1 a.2 = true -> cell g a.1 a.2 ≠ 0 ->
  in_bounds g b.1 b.2 = true -> cell g b.1 b.2 ≠ 0 ->
  2 <= count_nonzero g.
Proof.
  intros Hab Ha Hsa Hb Hsb. unfold count_nonzero.
  assert (Hin : forall x, in_bounds g x.1 x.2 = true -> cell g x.1 x.2 ≠ 0 ->
                  x ∈ nonzero g).
  { intros [r c] Hx Hs. unfold nonzero. apply list_elem_of_filter.
    split; [done | by apply in_bounds_coords]. }
  assert (Hsub : [a; b] ⊆+ nonzero g).
  { apply NoDup_submseteq.
    - apply NoDup_cons. split; [| apply NoDup_singleton].
      by intros ->%list_elem_of_singleton.
    - intros x [-> | ->%list_elem_of_singleton]%elem_of_cons; by apply Hin. }
  apply submseteq_length in Hsub. simpl in Hsub. lia.
Qed.

(** A board on which one more stone makes a line of five holds at least
    two stones. *)
Lemma completing_move_two_stones (g : GomokuGame) (w : Z * Z) (v : Z) :
  well_formed g -> in_bounds g w.1 w.2 = true ->
  check_winner (set_cell g w.1 w.2 v) ≠ None ->
  2 <= count_nonzero g.
Proof.
  intros Hwf Hw Hyes. unfold check_winner in Hyes.
  destruct (find _ _) as [rc |] eqn:Hf'; [| done]. clear Hyes.
  apply find_some in Hf' as [Hin Hfive]. simpl in Hin.
  apply list_elem_of_In in Hin. destruct rc as [r c].
  apply in_bounds_coords in Hin.
  unfold has_five in Hfive. cbn [fst snd] in Hfive.
  apply andb_true_iff in Hfive as [Hstone Hline].
  apply negb_true_iff, Z.eqb_neq in Hstone.
  apply existsb_exists in Hline as (dp & Hdp & Hcount).
  apply Z.leb_le in Hcount.
  destruct (win_directions_unit dp Hdp) as [Hu1 Hu2].
  unfold line_count in Hcount. cbv zeta in Hcount.
  set (g' := set_cell g w.1 w.2 v) in *.
  set (pl := cell g' r c) in *.
  assert (Hdir : exists d, unit_step d ∧ 2 <= run_length g' pl r c d.1 d.2 4).
  { destruct (Z.le_gt_cases 2 (run_length g' pl r c dp.1.1 dp.1.2 4)).
    - exists dp.1. by split.
    - exists dp.2. split; [done | lia]. }
  destruct Hdir as (d & (Hd1 & Hd2 & Hdz) & Hrun).
  assert (Hdz' : d.1 ≠ 0 ∨ d.2 ≠ 0).
  { destruct d as [d1 d2]. simpl.
    destruct (decide (d1 = 0)); [| by left].
    destruct (decide (d2 = 0)); [| by right]. by subst. }
  destruct (run_length_first g' pl r c d.1 d.2 4) as [Hb1 Hc1]; [lia |].
  destruct (run_length_second g' pl r c d.1 d.2 4 Hrun) as [Hb2 Hc2].
  unfold g' in Hb1, Hb2. rewrite in_bounds_set_cell in Hb1, Hb2.
  assert (Hold : forall x, in_bounds g x.1 x.2 = true -> x ≠ w ->
                   cell g' x.1 x.2 = pl -> cell g x.1 x.2 ≠ 0).
  { intros [x1 x2] Hx Hne Hc. unfold g' in Hc.
    rewrite cell_set_cell_ne in Hc; [| done | done | by destruct w].
    simpl in *. congruence. }
  destruct (decide ((r, c) = w)) as [H0 | H0].
  - apply (count_nonzero_two g (r + d.1, c + d.2) (r + 2 * d.1, c + 2 * d.2));
      try done.
    + intros [=]. lia.
    + apply (Hold (_, _)); [done | | done]. rewrite <- H0. intros [=]. lia.
    + apply (Hold (_, _)); [done | | done]. rewrite <- H0. intros [=]. lia.
  - destruct (decide ((r + d.1, c + d.2) = w)) as [H1 | H1].
    + apply (count_nonzero_two g (r, c) (r + 2 * d.1, c + 2 * d.2));
        try done.
      * intros [=]. lia.
      * by apply (Hold (r, c)).
      * apply (Hold (_, _)); [done | | done]. rewrite <- H1. intros [=]. lia.
    + apply (count_nonzero_two g (r, c) (r + d.1, c + d.2)); try done.
      * intros [=]. lia.
      * by apply (Hold (r, c)).
      * by apply (Hold (_, _)).
Qed.

Section WinningMove.

Variable hash : list Z -> bool -> Z.
Variable self : GomokuAI.

(** C3 (amended). Without a deadline and with collision-free position
    keys: when a stone of the AI on an Empty cell [w] of a board without
    a line of five makes [check_winner] report the AI, [choose_move] at
    [max_depth >= 1] returns a move, and the best score of its last pass
    is at least the sentinel [1000000], the score of [w] itself; the
    move returned need not be [w].  A node whose position is terminal
    returns [1000000] when [check_winner] reports the AI, [-1000000]
    when it reports the opponent, and [0] when it reports neither and no
    cell is Empty. *)
Theorem winning_move_scores_sentinel (g : GomokuGame) (w : Z * Z) :
  collision_free hash ->
  well_formed g ->
  (1 <= max_depth self)%nat ->
  player_id self ≠ 0 ->
  in_bounds g w.1 w.2 = true ->
  cell g w.1 w.2 = 0 ->
  check_winner g = None ->
  check_winner (set_cell g w.1 w.2 (player_id self))
  = Some (player_id self) ->
  (exists move s,
     (choose_move_with hash unbounded self true g).1 = (Some move, s)
     ∧ sle (Fin 1000000) s)
  ∧ (forall depth alpha beta is_maximizing st,
       tt_terminal_free hash self (board_size g) st ->
       let s := (minimax hash unbounded self depth alpha beta
                   is_maximizing st).1 in
       (check_winner (game st) = Some (player_id self) -> s = Fin 1000000)
       ∧ (check_winner (game st) = Some (opponent_id self) ->
          s = Fin (-1000000))
       ∧ (check_winner (game st) ≠ Some (player_id self) ->
          check_winner (game st) ≠ Some (opponent_id self) ->
          get_valid_moves (game st) = [] -> s = Fin 0)).
Proof.
  intros Hinj Hwf Hd Hp Hw Hw0 Hno Hwin. split.
  - assert (Hyes : check_winner (set_cell g w.1 w.2 (player_id self)) ≠ None)
      by (by rewrite Hwin).
    pose proof (completing_move_has_neighbor g w _ Hwf Hp Hw Hw0 Hno Hyes)
      as Hn.
    pose proof (completing_move_two_stones g w _ Hwf Hw Hyes) as Hc.
    pose proof (neighbor_in_sorted_moves (player_id self) g w Hw Hw0 Hn)
      as Hin.
    unfold choose_move_with. rewrite get_sorted_moves_pure.
    pose proof (sorted_moves_empty (player_id self) g) as Hall.
    destruct (sorted_moves (player_id self) g) as [| first rest] eqn:Hm.
    { by apply elem_of_nil in Hin. }
    destruct (count_nonzero g =? 0) eqn:H0; [lia |].
    destruct (count_nonzero g =? 1) eqn:H1; [lia |].
    pose proof (deepen_sentinel hash self Hinj (board_size g) true
                  (seq 1 (max_depth self)) (first :: rest) w first NegInf
                  {| game := g; nodes_evaluated := 0;
                     transposition_table := ∅; clock_reads := 0 |})
      as Hs.
    destruct (deepen _ _ _ _ _ _ _ _ _) as [[bm bs] st].
    cbn [fst snd] in *. exists bm, bs. split; [done |].
    apply Hs; try done.
    destruct (max_depth self); [lia | done].
  - intros depth alpha beta im st Hst.
    by apply (minimax_terminal hash self Hinj (board_size g)).
Qed.

End WinningMove.

(** * The search on concrete positions *)

Lemma transposed_cached :
  (choose_move_with board_key unbounded (white_ai 4) true transposed).1
  = (Some (4, 0), Fin 300).
Proof. vm_compute. reflexivity. Qed.

Lemma transposed_uncached :
  (choose_move_with board_key unbounded (white_ai 4) false transposed).1
  = (Some (1, 3), Fin 0).
Proof. vm_compute. reflexivity. Qed.

Lemma transposed_exhaustive :
  exhaustive_choice (white_ai 4) 4 transposed = Some ((1, 3), Fin 0).
Proof. vm_compute. reflexivity. Qed.

Lemma double_threat_search :
  (choose_move_with board_key unbounded (white_ai 3) true double_threat).1
  = (Some (2, 4), Fin 1000000).
Proof. vm_compute. reflexivity. Qed.

(** C1. On [transposed], to depth 4 and without a deadline, the exhaustive
    search keeps [(1, 3)] with score [0], while the search of
    [choose_move], with its table, returns [(4, 0)] with score [300]. *)
Theorem cached_search_differs_from_exhaustive :
  exhaustive_choice (white_ai 4) 4 transposed = Some ((1, 3), Fin 0)
  ∧ (choose_move_with board_key unbounded (white_ai 4) true transposed).1
    = (Some (4, 0), Fin 300).
Proof. split; [apply transposed_exhaustive | apply transposed_cached]. Qed.

(** C2. On [transposed], to depth 4 and without a deadline, [choose_move]
    returns [(4, 0)]; with every table lookup missing it returns
    [(1, 3)]. *)
Theorem cache_changes_root_move :
  choose_move board_key unbounded (white_ai 4) transposed = Some (4, 0)
  ∧ (choose_move_with board_key unbounded (white_ai 4) false transposed).1.1
    = Some (1, 3).
Proof.
  unfold choose_move. by rewrite transposed_cached, transposed_uncached.
Qed.

(** C3, as stated, fails on [double_threat]: white completes five at
    [(0, 0)], yet [choose_move] at depth 3 returns [(2, 4)], which
    completes nothing. *)
Lemma immediate_win_not_selected :
  is_valid_move double_threat 0 0 = true
  ∧ check_winner (set_cell double_threat 0 0 2) = Some 2
  ∧ choose_move board_key unbounded (white_ai 3) double_threat = Some (2, 4)
  ∧ check_winner (set_cell double_threat 2 4 2) = None.
Proof.
  unfold choose_move. rewrite double_threat_search.
  repeat split; vm_compute; reflexivity.
Qed.

(** ** The theorems at concrete inputs *)

Lemma winning_move_scores_sentinel_witness :
  (collision_free board_key
   ∧ well_formed double_threat
   ∧ (1 <= max_depth (white_ai 3))%nat
   ∧ player_id (white_ai 3) ≠ 0
   ∧ in_bounds double_threat 0 0 = true
   ∧ cell double_threat 0 0 = 0
   ∧ check_winner double_threat = None
   ∧ check_winner (set_cell double_threat 0 0 (player_id (white_ai 3)))
     = Some (player_id (white_ai 3)))
  ∧ exists move s,
      (choose_move_with board_key unbounded (white_ai 3) true
         double_threat).1 = (Some move, s)
      ∧ sle (Fin 1000000) s.
Proof.
  assert (H1 : collision_free board_key) by apply board_key_collision_free.
  assert (H2 : well_formed double_threat) by (split; [done | reflexivity]).
  assert (H3 : (1 <= max_depth (white_ai 3))%nat) by (simpl; lia).
  assert (H4 : player_id (white_ai 3) ≠ 0) by done.
  assert (H5 : in_bounds double_threat 0 0 = true) by reflexivity.
  assert (H6 : cell double_threat 0 0 = 0) by reflexivity.
  assert (H7 : check_winner double_threat = None)
    by (vm_compute; reflexivity).
  assert (H8 : check_winner
                 (set_cell double_threat 0 0 (player_id (white_ai 3)))
               = Some (player_id (white_ai 3)))
    by (vm_compute; reflexivity).
  split; [done |].
  exact (proj1 (winning_move_scores_sentinel board_key (white_ai 3)
                  double_threat (0, 0) H1 H2 H3 H4 H5 H6 H7 H8)).
Defined.

Lemma choose_move_empty_board_witness :
  (0 < board_size (new_game 10) ∧ count_nonzero (new_game 10) = 0)
  ∧ choose_move board_key unbounded (white_ai 5) (new_game 10) = Some (5, 5)
  ∧ nodes_evaluated
      (choose_move_with board_key unbounded (white_ai 5) true
         (new_game 10)).2 = 0%nat.
Proof.
  assert (H1 : 0 < board_size (new_game 10)) by done.
  assert (H2 : count_nonzero (new_game 10) = 0) by (vm_compute; reflexivity).
  split; [done |].
  exact (choose_move_empty_board board_key unbounded (white_ai 5)
           (new_game 10) H1 H2).
Defined.

Lemma choose_move_second_move_witness :
  (2 <= board_size corner_stone ∧ nonzero corner_stone = [(0, 0)])
  ∧ exists move,
      find (fun rc => is_valid_move corner_stone rc.1 rc.2)
           [(0 - 1, 0 - 1); (0 - 1, 0); (0 - 1, 0 + 1);
            (0, 0 - 1); (0, 0 + 1);
            (0 + 1, 0 - 1); (0 + 1, 0); (0 + 1, 0 + 1)] = Some move
      ∧ choose_move board_key unbounded (white_ai 5) corner_stone
        = Some move.
Proof.
  assert (H1 : 2 <= board_size corner_stone) by done.
  assert (H2 : nonzero corner_stone = [(0, 0)]) by (vm_compute; reflexivity).
  split; [done |].
  exact (choose_move_second_move board_key unbounded (white_ai 5)
           corner_stone 0 0 H1 H2).
Defined.

Lemma choose_move_legal_witness :
  choose_move board_key unbounded (white_ai 5) corner_stone = Some (0, 1)
  ∧ in_bounds corner_stone 0 1 = true ∧ cell corner_stone 0 1 = 0.
Proof.
  assert (H : choose_move board_key unbounded (white_ai 5) corner_stone
              = Some (0, 1)) by (vm_compute; reflexivity).
  split; [done |].
  exact (choose_move_legal board_key unbounded (white_ai 5) corner_stone
           0 1 H).
Defined.

Lemma minimax_finite_witness :
  tt_finite (fresh_state double_threat)
  ∧ finite (minimax board_key unbounded (white_ai 3) 2 NegInf PosInf true
              (fresh_state double_threat)).1
  ∧ tt_finite (minimax board_key unbounded (white_ai 3) 2 NegInf PosInf true
                 (fresh_state double_threat)).2.
Proof.
  assert (H : tt_finite (fresh_state double_threat)).
  { intros k e Hk. unfold fresh_state in Hk.
    cbn [transposition_table] in Hk. by rewrite lookup_empty in Hk. }
  split; [done |].
  exact (minimax_finite board_key unbounded (white_ai 3) 2 NegInf PosInf true
           (fresh_state double_threat) H).
Defined.

(** * Lines of five: what the two win tests detect *)

Lemma run_length_le (g : GomokuGame) (pl r c dr dc : Z) (steps : nat) :
  run_length g pl r c dr dc steps <= Z.of_nat steps.
Proof.
  revert r c. induction steps as [|k IH]; intros r c; [simpl; lia|].
  cbn [run_length]. cbv zeta.
  destruct (in_bounds g (r + dr) (c + dc) && (cell g (r + dr) (c + dc) =? pl));
    [|lia].
  specialize (IH (r + dr) (c + dc)). lia.
Qed.

Lemma run_length_cells (g : GomokuGame) (pl r c dr dc : Z) (steps : nat)
    (k : Z) :
  1 <= k <= run_length g pl r c dr dc steps ->
  in_bounds g (r + k * dr) (c + k * dc) = true
  ∧ cell g (r + k * dr) (c + k * dc) = pl.
Proof.
  revert r c k. induction steps as [|n IH]; intros r c k Hk.
  - simpl in Hk. lia.
  - cbn [run_length] in Hk. cbv zeta in Hk.
    destruct (in_bounds g (r + dr) (c + dc)
              && (cell g (r + dr) (c + dc) =? pl)) eqn:E; [|lia].
    apply andb_true_iff in E as [E1 E2]. apply Z.eqb_eq in E2.
    destruct (decide (k = 1)) as [->|Hne].
    + by rewrite !Z.mul_1_l.
    + destruct (IH (r + dr) (c + dc) (k - 1)) as [H1 H2]; [lia|].
      replace (r + dr + (k - 1) * dr) with (r + k * dr) in * by lia.
      replace (c + dc + (k - 1) * dc) with (c + k * dc) in * by lia.
      done.
Qed.

Lemma run_length_ge (g : GomokuGame) (pl r c dr dc : Z) (steps : nat)
    (n : Z) :
  0 <= n <= Z.of_nat steps ->
  (forall k, 1 <= k <= n ->
     in_bounds g (r + k * dr) (c + k * dc) = true
     ∧ cell g (r + k * dr) (c + k * dc) = pl) ->
  n <= run_length g pl r c dr dc steps.
Proof.
  revert r c n. induction steps as [|m IH]; intros r c n Hn H.
  - simpl. lia.
  - cbn [run_length]. cbv zeta.
    destruct (decide (n = 0)) as [->|Hn0].
    { pose proof (run_length_nonneg g pl (r + dr) (c + dc) dr dc m).
      destruct (_ && _); lia. }
    destruct (H 1) as [H1 H2]; [lia|]. rewrite !Z.mul_1_l in H1, H2.
    rewrite H1, H2, Z.eqb_refl. cbn [andb].
    assert (n - 1 <= run_length g pl (r + dr) (c + dc) dr dc m); [|lia].
    apply IH; [lia|]. intros k Hk.
    destruct (H (k + 1)) as [H3 H4]; [lia|].
    replace (r + (k + 1) * dr) with (r + dr + k * dr) in * by lia.
    replace (c + (k + 1) * dc) with (c + dc + k * dc) in * by lia.
    done.
Qed.

(** The count made along one line is at least five exactly when five
    cells of the line that include the starting one hold its value. *)
Lemma line_five_iff (g : GomokuGame) (r c d1 d2 : Z) :
  in_bounds g r c = true ->
  5 <= 1 + run_length g (cell g r c) r c d1 d2 4
         + run_length g (cell g r c) r c (- d1) (- d2) 4
  ↔ exists j, 0 <= j <= 4
      ∧ five_at g (cell g r c) (r - j * d1) (c - j * d2) d1 d2.
Proof.
  intros Hin. set (v := cell g r c).
  pose proof (run_length_le g v r c d1 d2 4) as Hf4.
  pose proof (run_length_le g v r c (- d1) (- d2) 4) as Hb4.
  pose proof (run_length_nonneg g v r c d1 d2 4) as Hf0.
  pose proof (run_length_nonneg g v r c (- d1) (- d2) 4) as Hb0.
  split.
  - intros H5. exists (run_length g v r c (- d1) (- d2) 4).
    split; [lia|]. intros k Hk.
    set (b := run_length g v r c (- d1) (- d2) 4) in *.
    destruct (Z.lt_trichotomy k b) as [Hlt|[Heq|Hgt]].
    + destruct (run_length_cells g v r c (- d1) (- d2) 4 (b - k)) as [H1 H2];
        [fold b; lia|].
      replace (r + (b - k) * - d1) with (r - b * d1 + k * d1) in * by lia.
      replace (c + (b - k) * - d2) with (c - b * d2 + k * d2) in * by lia.
      done.
    + subst k.
      replace (r - b * d1 + b * d1) with r by lia.
      replace (c - b * d2 + b * d2) with c by lia. done.
    + destruct (run_length_cells g v r c d1 d2 4 (k - b)) as [H1 H2]; [lia|].
      replace (r + (k - b) * d1) with (r - b * d1 + k * d1) in * by lia.
      replace (c + (k - b) * d2) with (c - b * d2 + k * d2) in * by lia.
      done.
  - intros (j & Hj & H5).
    assert (4 - j <= run_length g v r c d1 d2 4) as Hf.
    { apply run_length_ge; [simpl; lia|]. intros k Hk.
      destruct (H5 (j + k)) as [H1 H2]; [lia|].
      replace (r - j * d1 + (j + k) * d1) with (r + k * d1) in * by lia.
      replace (c - j * d2 + (j + k) * d2) with (c + k * d2) in * by lia.
      done. }
    assert (j <= run_length g v r c (- d1) (- d2) 4) as Hb.
    { apply run_length_ge; [simpl; lia|]. intros k Hk.
      destruct (H5 (j - k)) as [H1 H2]; [lia|].
      replace (r - j * d1 + (j - k) * d1) with (r + k * - d1) in * by lia.
      replace (c - j * d2 + (j - k) * d2) with (c + k * - d2) in * by lia.
      done. }
    lia.
Qed.

Lemma check_win_iff (g : GomokuGame) (row col : Z) :
  in_bounds g row col = true ->
  check_win g row col = true ↔
  exists d j, d ∈ [(0, 1); (1, 0); (1, 1); (1, -1)] ∧ 0 <= j <= 4
    ∧ five_at g (cell g row col) (row - j * d.1) (col - j * d.2) d.1 d.2.
Proof.
  intros Hin. unfold check_win. rewrite existsb_exists. split.
  - intros (dp & Hdp & H5). apply Z.leb_le in H5. unfold line_count in H5.
    cbv zeta in H5.
    assert (dp.2 = (- dp.1.1, - dp.1.2)
            ∧ dp.1 ∈ [(0, 1); (1, 0); (1, 1); (1, -1)]) as [E Hd].
    { simpl in Hdp.
      destruct Hdp as [<-|[<-|[<-|[<-|[]]]]]; (split; [done|]);
        cbn [fst snd]; set_solver. }
    rewrite E in H5. cbn [fst snd] in H5.
    apply line_five_iff in H5 as (j & Hj & H5); [|done].
    by exists dp.1, j.
  - intros (d & j & Hd & Hj & H5).
    exists (d, (- d.1, - d.2)). split.
    + rewrite !elem_of_cons, elem_of_nil in Hd. simpl.
      destruct Hd as [->|[->|[->|[->|[]]]]]; cbn [fst snd]; tauto.
    + apply Z.leb_le. unfold line_count. cbv zeta. cbn [fst snd].
      apply line_five_iff; [done|]. by exists j.
Qed.

Lemma five_at_reverse (g : GomokuGame) (v r c d1 d2 : Z) :
  five_at g v r c d1 d2 ->
  five_at g v (r + 4 * d1) (c + 4 * d2) (- d1) (- d2).
Proof.
  intros H k Hk. destruct (H (4 - k)) as [H1 H2]; [lia|].
  replace (r + 4 * d1 + k * - d1) with (r + (4 - k) * d1) by lia.
  replace (c + 4 * d2 + k * - d2) with (c + (4 - k) * d2) by lia.
  done.
Qed.

Lemma five_at_check_win (g : GomokuGame) (v r c : Z) (d : Z * Z) (k : Z) :
  unit_step d -> five_at g v r c d.1 d.2 -> 0 <= k <= 4 ->
  check_win g (r + k * d.1) (c + k * d.2) = true.
Proof.
  intros Hu H5 Hk.
  destruct (H5 k) as [Hin Hv]; [lia|].
  apply check_win_iff; [done|]. rewrite Hv.
  destruct d as [d1 d2]. destruct Hu as (H1 & H2 & Hne). cbn [fst snd] in *.
  assert ((d1, d2) ∈ [(0, 1); (1, 0); (1, 1); (1, -1)]
          ∨ (- d1, - d2) ∈ [(0, 1); (1, 0); (1, 1); (1, -1)]) as [Hd|Hd].
  { assert ((d1 = -1 ∨ d1 = 0 ∨ d1 = 1) ∧ (d2 = -1 ∨ d2 = 0 ∨ d2 = 1))
      as [Hd1 Hd2] by lia.
    rewrite !elem_of_cons, !elem_of_nil.
    destruct Hd1 as [-> | [-> | ->]], Hd2 as [-> | [-> | ->]];
      try done; cbn; tauto. }
  - exists (d1, d2), k. split; [done|]. split; [done|]. cbn [fst snd].
    intros i Hi. destruct (H5 i) as [H3 H4]; [lia|].
    replace (r + k * d1 - k * d1 + i * d1) with (r + i * d1) by lia.
    replace (c + k * d2 - k * d2 + i * d2) with (c + i * d2) by lia.
    done.
  - exists (- d1, - d2), (4 - k). split; [done|]. split; [lia|].
    cbn [fst snd]. intros i Hi. destruct (H5 (4 - i)) as [H3 H4]; [lia|].
    replace (r + k * d1 - (4 - k) * - d1 + i * - d1)
      with (r + (4 - i) * d1) by lia.
    replace (c + k * d2 - (4 - k) * - d2 + i * - d2)
      with (c + (4 - i) * d2) by lia.
    done.
Qed.

Lemma check_win_has_line (g : GomokuGame) (r c : Z) :
  in_bounds g r c = true -> check_win g r c = true ->
  exists d j, unit_step d ∧ 0 <= j <= 4
    ∧ five_at g (cell g r c) (r - j * d.1) (c - j * d.2) d.1 d.2.
Proof.
  intros Hin H. apply check_win_iff in H as (d & j & Hd & Hj & H5); [|done].
  exists d, j. split; [|done].
  rewrite !elem_of_cons, elem_of_nil in Hd.
  destruct Hd as [->|[->|[->|[->|[]]]]]; repeat split; cbn; try lia; done.
Qed.

Lemma has_five_spec (g : GomokuGame) (rc : Z * Z) :
  has_five g rc = true ↔ cell g rc.1 rc.2 ≠ 0 ∧ check_win g rc.1 rc.2 = true.
Proof.
  unfold has_five, check_win. rewrite andb_true_iff, negb_true_iff, Z.eqb_neq.
  done.
Qed.

Lemma check_winner_Some (g : GomokuGame) (v : Z) :
  check_winner g = Some v ->
  exists r c, in_bounds g r c = true ∧ cell g r c = v ∧ v ≠ 0
    ∧ check_win g r c = true.
Proof.
  unfold check_winner. destruct (find _ _) as [[r c]|] eqn:Hf; [|done].
  intros [= <-]. apply find_some in Hf as [HIn Hf].
  apply list_elem_of_In, in_bounds_coords in HIn.
  apply has_five_spec in Hf as [Hv Hw]. by exists r, c.
Qed.

Lemma check_winner_None (g : GomokuGame) (r c : Z) :
  check_winner g = None -> in_bounds g r c = true -> cell g r c ≠ 0 ->
  check_win g r c = false.
Proof.
  unfold check_winner. destruct (find _ _) as [rc|] eqn:Hf; [done|].
  intros _ Hin Hv.
  eapply find_none in Hf; [|apply list_elem_of_In, in_bounds_coords, Hin].
  destruct (check_win g r c) eqn:E; [|done].
  assert (has_five g (r, c) = true) by by apply has_five_spec.
  congruence.
Qed.

Lemma check_winner_Some_line (g : GomokuGame) (v : Z) :
  check_winner g = Some v -> v ≠ 0 ∧ has_line g v.
Proof.
  intros (r & c & Hin & Hv & Hv0 & Hw)%check_winner_Some.
  split; [done|].
  apply check_win_has_line in Hw as (d & j & Hu & Hj & H5); [|done].
  rewrite Hv in H5. by exists (r - j * d.1), (c - j * d.2), d.
Qed.

Lemma check_winner_None_iff (g : GomokuGame) :
  check_winner g = None ↔ forall v, v ≠ 0 -> ¬ has_line g v.
Proof.
  split.
  - intros HN v Hv0 (r & c & d & Hu & H5).
    pose proof (five_at_check_win g v r c d 0 Hu H5 ltac:(lia)) as Hw.
    destruct (H5 0) as [Hin Hv]; [lia|].
    rewrite !Z.mul_0_l, !Z.add_0_r in *.
    rewrite (check_winner_None g r c HN Hin) in Hw; [done|]. by rewrite Hv.
  - intros H. destruct (check_winner g) as [v|] eqn:E; [|done].
    apply check_winner_Some_line in E as [Hv0 Hl]. by destruct (H v Hv0).
Qed.

(** X1. For a cell [(row, col)] of the board, [check_win(row, col)] is
    true exactly when five consecutive cells of a row, a column or a
    diagonal, one of them [(row, col)], are on the board and hold the
    value of [(row, col)]. *)
Theorem check_win_spec (g : GomokuGame) (row col : Z) :
  in_bounds g row col = true ->
  check_win g row col = true ↔
  exists r c d k, unit_step d ∧ 0 <= k <= 4
    ∧ (row, col) = (r + k * d.1, c + k * d.2)
    ∧ five_at g (cell g row col) r c d.1 d.2.
Proof.
  intros Hin. split.
  - intros H.
    apply check_win_has_line in H as (d & j & Hu & Hj & H5); [|done].
    exists (row - j * d.1), (col - j * d.2), d, j.
    split; [done|]. split; [done|]. split; [f_equal; lia|done].
  - intros (r & c & d & k & Hu & Hk & [= -> ->] & H5).
    exact (five_at_check_win g _ r c d k Hu H5 Hk).
Qed.

(** X2. [check_winner] returns a player only if five consecutive cells
    of a row, a column or a diagonal hold that player's stones, and it
    returns [None] exactly when no five consecutive cells hold the same
    stone. *)
Theorem check_winner_spec (g : GomokuGame) :
  (forall v, check_winner g = Some v -> v ≠ 0 ∧ has_line g v)
  ∧ (check_winner g = None ↔ forall v, v ≠ 0 -> ¬ has_line g v).
Proof.
  split.
  - intros v Hv. by apply check_winner_Some_line.
  - split.
    + intros HN v Hv0. by apply (check_winner_None_iff g).
    + intros Hno. by apply check_winner_None_iff.
Qed.

(** * The game object: moves, outcomes, invariants *)

Lemma five_hits_dec (r0 c0 d1 d2 r c : Z) :
  (exists k, 0 <= k < 5 ∧ (r0 + k * d1, c0 + k * d2) = (r, c))
  ∨ (forall k, 0 <= k < 5 -> (r0 + k * d1, c0 + k * d2) ≠ (r, c)).
Proof.
  destruct (decide ((r0 + 0 * d1, c0 + 0 * d2) = (r, c))) as [E0|N0];
    [left; exists 0; split; [lia|done]|].
  destruct (decide ((r0 + 1 * d1, c0 + 1 * d2) = (r, c))) as [E1|N1];
    [left; exists 1; split; [lia|done]|].
  destruct (decide ((r0 + 2 * d1, c0 + 2 * d2) = (r, c))) as [E2|N2];
    [left; exists 2; split; [lia|done]|].
  destruct (decide ((r0 + 3 * d1, c0 + 3 * d2) = (r, c))) as [E3|N3];
    [left; exists 3; split; [lia|done]|].
  destruct (decide ((r0 + 4 * d1, c0 + 4 * d2) = (r, c))) as [E4|N4];
    [left; exists 4; split; [lia|done]|].
  right. intros k Hk.
  assert (k = 0 ∨ k = 1 ∨ k = 2 ∨ k = 3 ∨ k = 4) as Hc by lia.
  destruct Hc as [-> | [-> | [-> | [-> | ->]]]]; done.
Qed.

Lemma five_at_set_cell_miss (g : GomokuGame) (r c p v r0 c0 d1 d2 : Z) :
  in_bounds g r c = true ->
  (forall k, 0 <= k < 5 -> (r0 + k * d1, c0 + k * d2) ≠ (r, c)) ->
  five_at (set_cell g r c p) v r0 c0 d1 d2 -> five_at g v r0 c0 d1 d2.
Proof.
  intros Hin Hmiss H5 k Hk. destruct (H5 k Hk) as [H1 H2].
  rewrite in_bounds_set_cell in H1. split; [done|].
  rewrite cell_set_cell_ne in H2; auto.
Qed.

Lemma well_formed_set_cell (g : GomokuGame) (r c v : Z) :
  well_formed g -> well_formed (set_cell g r c v).
Proof.
  intros [H1 H2]. split; [done|]. cbn. by rewrite length_insert.
Qed.

(** On a board without a line of five, a stone placed on an Empty cell
    makes [check_winner] report exactly what [check_win] finds at that
    cell. *)
Lemma check_winner_set_cell (g : GomokuGame) (r c p : Z) :
  well_formed g -> check_winner g = None ->
  in_bounds g r c = true -> p ≠ 0 ->
  check_winner (set_cell g r c p)
  = if check_win (set_cell g r c p) r c then Some p else None.
Proof.
  intros Hwf HN Hin Hp.
  pose proof (cell_set_cell_eq g r c p Hwf Hin) as Hcell.
  assert (in_bounds (set_cell g r c p) r c = true) as Hin'
    by by rewrite in_bounds_set_cell.
  destruct (check_winner (set_cell g r c p)) as [v|] eqn:E.
  - apply check_winner_Some_line in E as (Hv0 & r0 & c0 & d & Hu & H5).
    destruct (five_hits_dec r0 c0 d.1 d.2 r c) as [(k & Hk & Hhit)|Hmiss].
    + injection Hhit as <- <-.
      destruct (H5 k Hk) as [_ Hv]. rewrite Hcell in Hv. subst v.
      rewrite (five_at_check_win _ p r0 c0 d k Hu H5); [done|lia].
    + apply five_at_set_cell_miss in H5; [|done..].
      exfalso. eapply check_winner_None_iff; [exact HN|exact Hv0|].
      by exists r0, c0, d.
  - rewrite (check_winner_None _ r c E Hin'); [done|]. by rewrite Hcell.
Qed.

Lemma has_line_set_cell (g : GomokuGame) (r c p v : Z) :
  well_formed g -> check_winner g = None -> in_bounds g r c = true ->
  v ≠ 0 -> has_line (set_cell g r c p) v -> v = p.
Proof.
  intros Hwf HN Hin Hv (r0 & c0 & d & Hu & H5).
  destruct (five_hits_dec r0 c0 d.1 d.2 r c) as [(k & Hk & Hhit)|Hmiss].
  - destruct (H5 k Hk) as [_ Hc]. injection Hhit as Hr Hc'.
    rewrite Hr, Hc', cell_set_cell_eq in Hc; done.
  - apply five_at_set_cell_miss in H5; [|done..].
    exfalso. eapply check_winner_None_iff; [exact HN|exact Hv|].
    by exists r0, c0, d.
Qed.

(** X3. On a board without a line of five, after a stone is placed on a
    legal cell, the whole-board scan [check_winner] of the AI reports
    that stone's player exactly when the test [check_win] of the game
    succeeds at the cell, and [None] otherwise; every line of five on the
    new board belongs to the player who moved. *)
Theorem check_winner_after_move (g : GomokuGame) (row col p : Z) :
  well_formed g ->
  check_winner g = None ->
  is_valid_move g row col = true ->
  p ≠ 0 ->
  check_winner (set_cell g row col p)
  = (if check_win (set_cell g row col p) row col then Some p else None)
  ∧ (forall v, v ≠ 0 -> has_line (set_cell g row col p) v -> v = p).
Proof.
  intros Hwf HN [Hin _]%is_valid_move_spec Hp. split.
  - by apply check_winner_set_cell.
  - intros v Hv Hl. by apply (has_line_set_cell g row col p v).
Qed.

Lemma length_bind_const {A B : Type} (f : A -> list B) (k : nat)
    (l : list A) :
  (forall x, length (f x) = k) -> length (l ≫= f) = (length l * k)%nat.
Proof.
  intros Hf. induction l as [|x l IH]; [done|].
  rewrite bind_cons, length_app, Hf, IH. simpl. lia.
Qed.

Lemma length_coords (n : Z) : 0 <= n -> Z.of_nat (length (coords n)) = n * n.
Proof.
  intros Hn. unfold coords.
  rewrite (length_bind_const _ (Z.to_nat n)).
  - rewrite length_seqZ. lia.
  - intros r. rewrite (length_bind_const _ 1%nat); [|done].
    rewrite length_seqZ. lia.
Qed.

Lemma length_filter_split {A : Type} (P : A -> Prop)
    `{!forall x, Decision (P x)} (l : list A) :
  (length (filter P l) + length (filter (fun x => ¬ P x) l))%nat = length l.
Proof.
  induction l as [|x l IH]; [done|].
  rewrite !filter_cons. destruct (decide (P x)) as [HP|HP].
  - rewrite decide_False by tauto. simpl. lia.
  - rewrite decide_True by done. simpl. lia.
Qed.

Lemma count_cells (g : GomokuGame) :
  0 <= board_size g ->
  count_nonzero g + Z.of_nat (length (get_valid_moves g))
  = board_size g * board_size g.
Proof.
  intros Hn. unfold count_nonzero, nonzero, get_valid_moves.
  rewrite <- (length_coords _ Hn).
  rewrite <- (length_filter_split (fun rc => cell g rc.1 rc.2 = 0)
                (coords (board_size g))).
  lia.
Qed.

Lemma count_nonzero_full (g : GomokuGame) :
  0 <= board_size g ->
  count_nonzero g = board_size g * board_size g ↔ get_valid_moves g = [].
Proof.
  intros Hn. pose proof (count_cells g Hn) as H. split.
  - intros E. apply length_zero_iff_nil. lia.
  - intros E. rewrite E in H. simpl in H. lia.
Qed.

(** X4. On a board of side [N], the stones counted by
    [np.count_nonzero] and the moves listed by [get_valid_moves] add up to
    [N * N]; so the draw test of [make_move] (the count equals [N * N])
    and the draw test of [minimax] (no valid move) agree. *)
Theorem board_full_tests_agree (g : GomokuGame) :
  0 <= board_size g ->
  count_nonzero g + Z.of_nat (length (get_valid_moves g))
  = board_size g * board_size g
  ∧ (count_nonzero g = board_size g * board_size g
     ↔ get_valid_moves g = []).
Proof.
  intros Hn. pose proof (count_cells g Hn) as H. split; [done|]. split.
  - intros E. apply length_zero_iff_nil. lia.
  - intros E. rewrite E in H. simpl in H. lia.
Qed.

Lemma stones_only_set_cell (g : GomokuGame) (r c v : Z) :
  stones_only g -> v = 0 ∨ v = 1 ∨ v = 2 -> stones_only (set_cell g r c v).
Proof. intros H Hv. unfold stones_only, set_cell. cbn. by apply Forall_insert. Qed.

Lemma cell_new_game (n r c : Z) : cell (new_game n) r c = 0.
Proof.
  unfold cell, new_game. cbn [board].
  destruct (nth_lookup_or_length (replicate (Z.to_nat (n * n)) 0)
              (cell_index {| board_size := n;
                             board := replicate (Z.to_nat (n * n)) 0 |} r c) 0)
    as [H|H].
  - by apply lookup_replicate in H as [H _].
  - by rewrite nth_overflow by lia.
Qed.

Lemma filter_all {A : Type} (P : A -> Prop) `{!forall x, Decision (P x)}
    (l : list A) :
  (forall x, x ∈ l -> P x) -> filter P l = l.
Proof.
  induction l as [|x l IH]; intros Hl; [done|].
  rewrite filter_cons, decide_True by (apply Hl; left).
  f_equal. apply IH. intros y Hy. apply Hl. by right.
Qed.

Lemma filter_none {A : Type} (P : A -> Prop) `{!forall x, Decision (P x)}
    (l : list A) :
  (forall x, x ∈ l -> ¬ P x) -> filter P l = [].
Proof.
  induction l as [|x l IH]; intros Hl; [done|].
  rewrite filter_cons, decide_False by (apply Hl; left).
  apply IH. intros y Hy. apply Hl. by right.
Qed.

Lemma get_valid_moves_new_game (n : Z) : get_valid_moves (new_game n) = coords n.
Proof.
  unfold get_valid_moves. cbn [board_size new_game].
  apply filter_all. intros rc _. apply cell_new_game.
Qed.

Lemma coords_nonempty (n : Z) : 0 < n -> coords n ≠ [].
Proof.
  intros Hn E. assert ((0, 0) ∈ coords n) as H by (apply elem_of_coords; lia).
  rewrite E in H. by apply elem_of_nil in H.
Qed.

Lemma new_game_no_line (n v : Z) : v ≠ 0 -> ¬ has_line (new_game n) v.
Proof.
  intros Hv (r & c & d & _ & H5). destruct (H5 0) as [_ H]; [lia|].
  rewrite cell_new_game in H. congruence.
Qed.

Lemma start_game_invariant (n : Z) : 0 < n -> game_invariant (start_game n).
Proof.
  intros Hn. unfold game_invariant, start_game. cbn.
  split; [split; [cbn; lia|cbn; by rewrite length_replicate]|].
  split; [done|]. split; [by apply Forall_replicate; left|].
  split; [by left|]. unfold outcome_recorded. cbn.
  split; [done|]. split; [apply new_game_no_line|].
  unfold board_full. rewrite get_valid_moves_new_game. by apply coords_nonempty.
Qed.

(** What an accepted move leaves behind. *)
Lemma make_move_accepted (gs : GameState) (row col : Z) :
  game_invariant gs ->
  game_over gs = false ->
  is_valid_move (position gs) row col = true ->
  let p := current_player gs in
  let gs' := (make_move gs row col).2 in
  (make_move gs row col).1 = true
  ∧ position gs' = set_cell (position gs) row col p
  ∧ (forall r c, in_bounds (position gs) r c = true ->
       cell (position gs') r c
       = if decide ((r, c) = (row, col)) then p else cell (position gs) r c)
  ∧ last_move gs' = Some (row, col)
  ∧ ( (has_line (position gs') p
       ∧ (forall v, v ≠ 0 -> has_line (position gs') v -> v = p)
       ∧ game_over gs' = true ∧ winner gs' = Some p ∧ current_player gs' = p)
    ∨ ((forall v, v ≠ 0 -> ¬ has_line (position gs') v)
       ∧ board_full (position gs')
       ∧ game_over gs' = true ∧ winner gs' = Some 0 ∧ current_player gs' = p)
    ∨ ((forall v, v ≠ 0 -> ¬ has_line (position gs') v)
       ∧ ¬ board_full (position gs')
       ∧ game_over gs' = false ∧ winner gs' = None
       ∧ current_player gs' = 3 - p) ).
Proof.
  intros (Hwf & Hn & Hst & Hp & Hout) Hover Hvalid p gs'.
  unfold outcome_recorded in Hout. rewrite Hover in Hout.
  destruct Hout as (Hw & Hnl & Hnf).
  pose proof Hvalid as Hvalid'.
  apply is_valid_move_spec in Hvalid' as [Hin H0].
  assert (p ≠ 0) as Hp0 by (unfold p; lia).
  apply check_winner_None_iff in Hnl.
  pose proof (check_winner_set_cell _ row col p Hwf Hnl Hin Hp0) as Hcw.
  assert (forall r c, in_bounds (position gs) r c = true ->
            cell (set_cell (position gs) row col p) r c
            = if decide ((r, c) = (row, col)) then p
              else cell (position gs) r c) as Hframe.
  { intros r c Hrc. destruct (decide _) as [[= -> ->]|Hne].
    - by apply cell_set_cell_eq.
    - by apply cell_set_cell_ne. }
  subst gs'. unfold make_move. rewrite Hvalid, Hover. cbn [negb orb].
  fold p. destruct (check_win (set_cell (position gs) row col p) row col).
  - cbv iota in Hcw. cbn. do 4 (split; [done|]). left.
    apply check_winner_Some_line in Hcw as [_ Hl]. split; [done|].
    split; [|done]. intros v Hv Hlv.
    by apply (has_line_set_cell (position gs) row col p v).
  - cbv iota in Hcw.
    pose proof (proj1 (check_winner_None_iff _) Hcw) as Hnl'.
    destruct (count_nonzero _ =? _) eqn:Ec.
    + cbn. do 4 (split; [done|]). right; left.
      apply Z.eqb_eq, count_nonzero_full in Ec; [done|].
      rewrite board_size_set_cell. lia.
    + cbn. do 4 (split; [done|]). right; right.
      split; [done|]. split; [|done].
      intros Hf. apply Z.eqb_neq in Ec. apply Ec.
      apply count_nonzero_full; [|done]. rewrite board_size_set_cell. lia.
Qed.

Lemma make_move_rejected (gs : GameState) (row col : Z) :
  is_valid_move (position gs) row col = false ∨ game_over gs = true ->
  make_move gs row col = (false, gs).
Proof.
  intros [H|H]; unfold make_move; rewrite H; [done|].
  by rewrite orb_true_r.
Qed.

Lemma make_move_size (gs : GameState) (row col : Z) :
  board_size (position (make_move gs row col).2) = board_size (position gs).
Proof.
  unfold make_move. destruct (_ || _); [done|].
  destruct (check_win _ _ _); [done|]. by destruct (_ =? _).
Qed.

Lemma make_move_invariant (gs : GameState) (row col : Z) :
  game_invariant gs -> game_invariant (make_move gs row col).2.
Proof.
  intros Hinv.
  destruct (game_over gs) eqn:Hover;
    [by rewrite make_move_rejected by by right|].
  destruct (is_valid_move (position gs) row col) eqn:Hvalid;
    [|by rewrite make_move_rejected by by left].
  pose proof (make_move_accepted gs row col Hinv Hover Hvalid) as H.
  cbv zeta in H. destruct H as (_ & Hpos & _ & _ & Hcases).
  destruct Hinv as (Hwf & Hn & Hst & Hp & Hout).
  set (gs' := (make_move gs row col).2) in *.
  split; [rewrite Hpos; by apply well_formed_set_cell|].
  split; [by rewrite Hpos, board_size_set_cell|].
  split; [rewrite Hpos; apply stones_only_set_cell; [done|tauto]|].
  unfold outcome_recorded.
  destruct Hcases as [(Hl & Hu & -> & Hw & Hc)|[(Hl & Hf & -> & Hw & Hc)
                                               |(Hl & Hf & -> & Hw & Hc)]];
    rewrite Hc.
  - split; [done|]. left. by rewrite Hw.
  - split; [done|]. by right.
  - split; [lia|]. done.
Qed.

Lemma reachable_size (n : Z) (gs : GameState) :
  reachable n gs -> board_size (position gs) = n.
Proof.
  induction 1 as [|gs row col _ IH|gs _ IH]; [done| |done].
  by rewrite make_move_size.
Qed.

Lemma reachable_game_invariant (n : Z) (gs : GameState) :
  0 < n -> reachable n gs -> game_invariant gs.
Proof.
  intros Hn. induction 1 as [|gs row col _ IH|gs Hr IH].
  - by apply start_game_invariant.
  - by apply make_move_invariant.
  - unfold reset_game. rewrite (reachable_size n gs Hr).
    by apply start_game_invariant.
Qed.

(** X5. [make_move] on a game object in a consistent state returns
    [True] exactly when the cell is a legal move and the game is not
    over; a rejected call leaves the object as it was; an accepted call
    writes the mover's stone to that cell only, records the move, and
    then: if the new board has a line of five it is the mover's, the
    game is over and the mover is the winner; else if no cell is Empty
    the game is over with winner 0; else the game goes on and the turn
    passes to [3 - current_player]. *)
Theorem make_move_outcome (gs : GameState) (row col : Z) :
  game_invariant gs ->
  let p := current_player gs in
  let gs' := (make_move gs row col).2 in
  (make_move gs row col).1
  = is_valid_move (position gs) row col && negb (game_over gs)
  ∧ ((make_move gs row col).1 = false -> gs' = gs)
  ∧ ((make_move gs row col).1 = true ->
     position gs' = set_cell (position gs) row col p
     ∧ (forall r c, in_bounds (position gs) r c = true ->
          cell (position gs') r c
          = if decide ((r, c) = (row, col)) then p
            else cell (position gs) r c)
     ∧ last_move gs' = Some (row, col)
     ∧ ( (has_line (position gs') p
          ∧ (forall v, v ≠ 0 -> has_line (position gs') v -> v = p)
          ∧ game_over gs' = true ∧ winner gs' = Some p
          ∧ current_player gs' = p)
       ∨ ((forall v, v ≠ 0 -> ¬ has_line (position gs') v)
          ∧ board_full (position gs')
          ∧ game_over gs' = true ∧ winner gs' = Some 0
          ∧ current_player gs' = p)
       ∨ ((forall v, v ≠ 0 -> ¬ has_line (position gs') v)
          ∧ ¬ board_full (position gs')
          ∧ game_over gs' = false ∧ winner gs' = None
          ∧ current_player gs' = 3 - p) )).
Proof.
  intros Hinv p gs'. subst gs'.
  destruct (game_over gs) eqn:Hover.
  { rewrite make_move_rejected by by right.
    rewrite andb_false_r. cbn [fst snd]. done. }
  destruct (is_valid_move (position gs) row col) eqn:Hvalid.
  - pose proof (make_move_accepted gs row col Hinv Hover Hvalid) as H.
    cbv zeta in H. destruct H as (Hok & H). rewrite Hok.
    split; [done|]. split; [done|]. intros _. exact H.
  - rewrite make_move_rejected by by left. cbn [fst snd andb]. done.
Qed.

(** X6. Every game object reached from [GomokuGame(n)], [n >= 1], by
    calls of [make_move] and [reset_game] has a board of side [n] whose
    cells hold 0, 1 or 2, has [current_player] 1 or 2, and records the
    outcome of its board: while [game_over] is false there is no line of
    five, some cell is Empty and [winner] is [None]; once it is true,
    either [winner] is [current_player], who has a line of five and is
    the only one to have one, or [winner] is 0, there is no line of five
    and no cell is Empty. *)
Theorem reachable_invariant (n : Z) (gs : GameState) :
  0 < n -> reachable n gs ->
  board_size (position gs) = n ∧ game_invariant gs.
Proof.
  intros Hn Hr. split.
  - by apply reachable_size.
  - by apply (reachable_game_invariant n).
Qed.

Lemma length_filter_ext {A : Type} (P Q : A -> Prop)
    `{!forall x, Decision (P x)} `{!forall x, Decision (Q x)} (l : list A) :
  (forall x, x ∈ l -> (P x ↔ Q x)) ->
  length (filter P l) = length (filter Q l).
Proof.
  induction l as [|x l IH]; intros Hl; [done|].
  rewrite !filter_cons.
  assert (length (filter P l) = length (filter Q l)) as E.
  { apply IH. intros y Hy. apply Hl. by right. }
  destruct (decide (P x)) as [HP|HP].
  - rewrite decide_True by (apply Hl; [left|done]). simpl. by rewrite E.
  - rewrite decide_False; [done|]. intros HQ. apply HP, Hl; [left|done].
Qed.

Lemma length_filter_gain {A : Type} `{!EqDecision A} (P Q : A -> Prop)
    `{!forall x, Decision (P x)} `{!forall x, Decision (Q x)}
    (a : A) (l : list A) :
  NoDup l -> a ∈ l -> ¬ P a -> Q a ->
  (forall x, x ∈ l -> x ≠ a -> (P x ↔ Q x)) ->
  length (filter Q l) = S (length (filter P l)).
Proof.
  induction l as [|x l IH]; intros Hnd Ha HP HQ Hl.
  - by apply elem_of_nil in Ha.
  - apply NoDup_cons in Hnd as [Hx Hnd]. rewrite !filter_cons.
    destruct (decide (x = a)) as [->|Hne].
    + rewrite decide_True, decide_False by done. simpl. f_equal.
      symmetry. apply length_filter_ext. intros y Hy. apply Hl; [by right|].
      by intros ->.
    + apply elem_of_cons in Ha as [->|Ha]; [done|].
      assert (length (filter Q l) = S (length (filter P l))) as E.
      { apply IH; try done. intros y Hy. apply Hl. by right. }
      destruct (decide (P x)) as [HPx|HPx].
      * rewrite decide_True by (apply Hl; [left|done|done]). simpl.
        by rewrite E.
      * rewrite decide_False; [done|]. intros HQx.
        apply HPx, Hl; [left|done|done].
Qed.

Lemma count_of_set_cell (g : GomokuGame) (r c p v : Z) :
  well_formed g -> in_bounds g r c = true -> cell g r c = 0 -> v ≠ 0 ->
  count_of (set_cell g r c p) v
  = count_of g v + (if decide (v = p) then 1 else 0).
Proof.
  intros Hwf Hin H0 Hv. unfold count_of. rewrite board_size_set_cell.
  destruct (decide (v = p)) as [->|Hne].
  - rewrite (length_filter_gain (fun rc => cell g rc.1 rc.2 = p)
               (fun rc => cell (set_cell g r c p) rc.1 rc.2 = p) (r, c)).
    + lia.
    + apply NoDup_coords.
    + by apply in_bounds_coords.
    + cbn [fst snd]. congruence.
    + cbn [fst snd]. by apply cell_set_cell_eq.
    + intros [r' c'] Hrc Hne. cbn [fst snd].
      rewrite cell_set_cell_ne; [done|done| |done].
      by apply in_bounds_coords.
  - rewrite (length_filter_ext (fun rc => cell (set_cell g r c p) rc.1 rc.2 = v)
               (fun rc => cell g rc.1 rc.2 = v)); [lia|].
    intros [r' c'] Hrc. cbn [fst snd].
    destruct (decide ((r', c') = (r, c))) as [[= -> ->]|Hne'].
    + rewrite cell_set_cell_eq by done. split; congruence.
    + rewrite cell_set_cell_ne; [done|done| |done].
      by apply in_bounds_coords.
Qed.

Lemma count_of_new_game (n v : Z) : v ≠ 0 -> count_of (new_game n) v = 0.
Proof.
  intros Hv. unfold count_of. rewrite filter_none; [done|].
  intros rc _. rewrite cell_new_game. congruence.
Qed.

Lemma make_move_turns (gs : GameState) (row col : Z) :
  game_invariant gs -> turns_recorded gs ->
  turns_recorded (make_move gs row col).2.
Proof.
  intros Hinv Ht.
  destruct (game_over gs) eqn:Hover;
    [by rewrite make_move_rejected by by right|].
  destruct (is_valid_move (position gs) row col) eqn:Hvalid;
    [|by rewrite make_move_rejected by by left].
  pose proof (make_move_accepted gs row col Hinv Hover Hvalid) as H.
  cbv zeta in H. destruct H as (_ & Hpos & _ & _ & Hcases).
  destruct Hinv as (Hwf & Hn & Hst & Hp & Hout).
  apply is_valid_move_spec in Hvalid as [Hin H0].
  unfold turns_recorded in *. rewrite Hover in Ht.
  set (gs' := (make_move gs row col).2) in *.
  rewrite Hpos, !count_of_set_cell by done.
  destruct Hcases as [(_ & _ & -> & _ & ->)|[(_ & _ & -> & _ & ->)
                                            |(_ & _ & -> & _ & ->)]];
    destruct Hp as [Hp|Hp]; rewrite Hp in *;
    repeat (destruct (decide _); try lia).
Qed.

(** X7. In every game object reached from [GomokuGame(n)], [n >= 1], by
    calls of [make_move] and [reset_game], the players have alternated:
    Black (1) has as many stones as White (2) when White made the last
    move or none was made, and one more when Black made it; while the
    game runs, [current_player] is the side that did not move last. *)
Theorem reachable_turns (n : Z) (gs : GameState) :
  0 < n -> reachable n gs -> turns_recorded gs.
Proof.
  intros Hn. induction 1 as [|gs row col Hr IH|gs Hr IH].
  - unfold turns_recorded, start_game. cbn.
    rewrite !count_of_new_game by done. done.
  - apply make_move_turns; [|done]. by apply (reachable_game_invariant n).
  - unfold turns_recorded, reset_game, start_game. cbn.
    rewrite !count_of_new_game by done. done.
Qed.

(** * The turn logic of the GUI *)

Lemma with_position_id (gs : GameState) : with_position gs (position gs) = gs.
Proof. by destruct gs. Qed.

Lemma choose_move_with_valid (hash : list Z -> bool -> Z)
    (budget_exceeded : nat -> bool) (self : GomokuAI) (cached : bool)
    (g : GomokuGame) :
  0 < board_size g -> get_valid_moves g ≠ [] ->
  exists row col,
    (choose_move_with hash budget_exceeded self cached g).1.1
    = Some (row, col)
    ∧ is_valid_move g row col = true.
Proof.
  intros Hn Hne.
  destruct (choose_move_with_cases hash budget_exceeded self cached g)
    as [_ [[Hnil _]|[(_ & H0 & Hr & _)|[(_ & _ & m & Hs & Hr & _)
                                       |(_ & _ & _ & m & Hr & Hm)]]]].
  - done.
  - exists (board_size g `div` 2), (board_size g `div` 2). split; [done|].
    assert ((board_size g `div` 2, board_size g `div` 2)
            ∈ get_valid_moves g) as Hin.
    { rewrite (count_nonzero_0 g H0). apply elem_of_coords.
      assert (0 <= board_size g `div` 2 < board_size g); [|done].
      split; [apply Z.div_pos; lia|apply Z.div_lt; lia]. }
    apply elem_of_get_valid_moves in Hin as [Hc Hz].
    apply is_valid_move_spec. split; [|done]. by apply in_bounds_coords.
  - destruct m as [row col]. exists row, col. split; [done|].
    unfold second_move in Hs. destruct (count_nonzero g =? 1); [|done].
    destruct (nonzero g) as [|[r c] ?]; [done|].
    by apply find_some in Hs as [_ Hs].
  - destruct m as [row col]. exists row, col. split; [done|].
    apply elem_of_sorted_moves, elem_of_get_valid_moves in Hm as [Hc Hz].
    apply is_valid_move_spec. split; [|done]. by apply in_bounds_coords.
Qed.

Lemma ai_move_accepted (hash : list Z -> bool -> Z)
    (budget_exceeded : nat -> bool) (self : GomokuAI) (gs : GameState) :
  game_invariant gs -> game_over gs = false ->
  exists row col,
    choose_move hash budget_exceeded self (position gs) = Some (row, col)
    ∧ is_valid_move (position gs) row col = true
    ∧ (make_move gs row col).1 = true
    ∧ ai_move hash budget_exceeded self gs = Some (make_move gs row col).2.
Proof.
  intros Hinv Hover.
  pose proof Hinv as (Hwf & Hn & Hst & Hp & Hout).
  unfold outcome_recorded in Hout. rewrite Hover in Hout.
  destruct Hout as (_ & _ & Hnf).
  destruct (choose_move_with_valid hash budget_exceeded self true
              (position gs) Hn Hnf) as (row & col & Hm & Hv).
  exists row, col. split; [done|]. split; [done|].
  split; [by apply make_move_accepted|].
  unfold ai_move.
  destruct (choose_move_with_cases hash budget_exceeded self true
              (position gs)) as [Hg _].
  destruct (choose_move_with hash budget_exceeded self true (position gs))
    as [[move s] st]. cbn [fst snd] in *. subst move.
  by rewrite Hg, with_position_id.
Qed.

(** X8. On a game object in a consistent state whose game is not over,
    [ai_move] raises no exception: [choose_move] returns a legal move on
    the board it was given, [make_move] accepts it, and the object that
    [ai_move] leaves is the one [make_move] produces from the object it
    found, again in a consistent state. *)
Theorem ai_move_plays (hash : list Z -> bool -> Z)
    (budget_exceeded : nat -> bool) (self : GomokuAI) (gs : GameState) :
  game_invariant gs -> game_over gs = false ->
  exists row col gs',
    choose_move hash budget_exceeded self (position gs) = Some (row, col)
    ∧ is_valid_move (position gs) row col = true
    ∧ make_move gs row col = (true, gs')
    ∧ ai_move hash budget_exceeded self gs = Some gs'
    ∧ game_invariant gs'.
Proof.
  intros Hinv Hover.
  destruct (ai_move_accepted hash budget_exceeded self gs Hinv Hover)
    as (row & col & Hch & Hv & Hok & Hai).
  exists row, col, (make_move gs row col).2.
  split; [done|]. split; [done|]. split.
  - destruct (make_move gs row col) as [ok gs']. cbn [fst snd] in *.
    by subst ok.
  - split; [done|]. by apply make_move_invariant.
Qed.

Lemma handle_click_cases (hash : list Z -> bool -> Z)
    (budget_exceeded : nat -> bool) (self : GomokuAI) (cell_size : Z)
    (gs : GameState) (x y : Z) :
  game_invariant gs -> cell_size ≠ 0 ->
  let col := x `div` cell_size in
  let row := y `div` cell_size in
  let gs1 := (make_move gs row col).2 in
  exists gs',
    handle_click hash budget_exceeded self cell_size gs x y = Some gs'
    ∧ game_invariant gs'
    ∧ ( ((game_over gs = true ∨ is_valid_move (position gs) row col = false)
         ∧ gs' = gs)
      ∨ (game_over gs = false ∧ is_valid_move (position gs) row col = true
         ∧ game_over gs1 = true ∧ gs' = gs1)
      ∨ (game_over gs = false ∧ is_valid_move (position gs) row col = true
         ∧ game_over gs1 = false
         ∧ exists r c,
             choose_move hash budget_exceeded self (position gs1)
             = Some (r, c)
             ∧ is_valid_move (position gs1) r c = true
             ∧ gs' = (make_move gs1 r c).2
             ∧ (game_over gs' = false ->
                current_player gs' = current_player gs)) ).
Proof.
  intros Hinv Hcs col row gs1. unfold handle_click.
  destruct (game_over gs) eqn:Hover.
  { exists gs. split; [done|]. split; [done|]. left. split; [by left|done]. }
  apply Z.eqb_neq in Hcs. rewrite Hcs. cbv zeta. fold col row.
  destruct (is_valid_move (position gs) row col) eqn:Hvalid.
  - pose proof Hvalid as [Hin _]%is_valid_move_spec. rewrite Hin.
    pose proof (make_move_accepted gs row col Hinv Hover Hvalid) as H.
    cbv zeta in H. destruct H as (Hok & _ & _ & _ & Hcases).
    pose proof (make_move_invariant gs row col Hinv) as Hinv1.
    fold gs1 in Hok, Hcases, Hinv1.
    destruct (make_move gs row col) as [ok gs1'] eqn:E.
    cbn [fst snd] in *. subst ok gs1.
    destruct (game_over gs1') eqn:Hover1.
    + exists gs1'. split; [done|]. split; [done|]. right; left. done.
    + destruct (ai_move_accepted hash budget_exceeded self gs1' Hinv1 Hover1)
        as (r & c & Hch & Hv & Hacc & Hai).
      exists (make_move gs1' r c).2. split; [done|].
      split; [by apply make_move_invariant|]. right; right.
      do 3 (split; [done|]). exists r, c. do 3 (split; [done|]).
      intros Hover2.
      pose proof (make_move_accepted gs1' r c Hinv1 Hover1 Hv) as H.
      cbv zeta in H. destruct H as (_ & _ & _ & _ & Hcases').
      destruct Hcases as [(_ & _ & ? & _)|[(_ & _ & ? & _)
                                          |(_ & _ & _ & _ & Hc)]];
        [congruence..|].
      destruct Hcases' as [(_ & _ & ? & _)|[(_ & _ & ? & _)
                                           |(_ & _ & _ & _ & Hc')]];
        [congruence..|].
      rewrite Hc', Hc. lia.
  - exists gs. split.
    + destruct (in_bounds (position gs) row col) eqn:Hin; [|done].
      by rewrite make_move_rejected by by left.
    + split; [done|]. left. split; [by right|done].
Qed.

Lemma gui_reachable_invariant (hash : list Z -> bool -> Z) (self : GomokuAI)
    (cell_size n : Z) (gs : GameState) :
  0 < n -> cell_size ≠ 0 ->
  gui_reachable hash self cell_size n gs ->
  game_invariant gs ∧ (game_over gs = false -> current_player gs = 1).
Proof.
  intros Hn Hcs.
  induction 1 as [|gs budget_exceeded x y gs' Hr [IH1 IH2] Hclick
                  |gs Hr [IH1 IH2]].
  - split; [by apply start_game_invariant|done].
  - destruct (handle_click_cases hash budget_exceeded self cell_size gs x y
                IH1 Hcs) as (gs2 & Hc & Hinv & Hcases).
    rewrite Hclick in Hc. injection Hc as <-. split; [done|].
    destruct Hcases as [[_ ->]|[(_ & _ & Hov & ->)
                               |(Hov & _ & _ & r & c & _ & _ & _ & Hcp)]].
    + done.
    + congruence.
    + intros H. by rewrite Hcp, IH2.
  - unfold reset_game. destruct IH1 as (_ & Hsize & _).
    split; [by apply start_game_invariant|done].
Qed.

(** X9. In a GUI on a board of side [n >= 1] with a nonzero [cell_size],
    when no event is handled between a click and the reply it schedules,
    between two turns the game object is in a consistent state and,
    while the game runs, it is Black's (1, the human's) turn.  A click
    then raises no exception, and either leaves the object as it was, or
    puts a black stone on the clicked cell
    [(y // cell_size, x // cell_size)], a legal move, and ends the game,
    or puts that black stone and then a white stone (2) on the legal
    move that [choose_move] returns for the new board. *)
Theorem gui_click_round (hash : list Z -> bool -> Z) (self : GomokuAI)
    (cell_size n : Z) (gs : GameState) :
  0 < n -> cell_size ≠ 0 ->
  gui_reachable hash self cell_size n gs ->
  game_invariant gs
  ∧ (game_over gs = false -> current_player gs = 1)
  ∧ forall budget_exceeded x y,
      let col := x `div` cell_size in
      let row := y `div` cell_size in
      exists gs',
        handle_click hash budget_exceeded self cell_size gs x y = Some gs'
        ∧ ( gs' = gs
          ∨ (is_valid_move (position gs) row col = true
             ∧ position gs' = set_cell (position gs) row col 1
             ∧ game_over gs' = true)
          ∨ (is_valid_move (position gs) row col = true
             ∧ exists r c,
                 choose_move hash budget_exceeded self
                   (set_cell (position gs) row col 1) = Some (r, c)
                 ∧ is_valid_move (set_cell (position gs) row col 1) r c
                   = true
                 ∧ position gs'
                   = set_cell (set_cell (position gs) row col 1) r c 2) ).
Proof.
  intros Hn Hcs Hr.
  destruct (gui_reachable_invariant hash self cell_size n gs Hn Hcs Hr)
    as [Hinv Hturn].
  split; [done|]. split; [done|]. intros budget_exceeded x y col row.
  destruct (handle_click_cases hash budget_exceeded self cell_size gs x y
              Hinv Hcs) as (gs' & Hc & _ & Hcases).
  fold col row in Hcases. exists gs'. split; [done|].
  destruct Hcases as [[_ ->]|[(Hov & Hv & Hov1 & ->)
                             |(Hov & Hv & Hov1 & r & c & Hch & Hv' & -> & _)]].
  - by left.
  - right; left. split; [done|]. split; [|done].
    pose proof (make_move_accepted gs row col Hinv Hov Hv) as H.
    cbv zeta in H. destruct H as (_ & Hpos & _). by rewrite Hpos, Hturn.
  - right; right. split; [done|].
    pose proof (make_move_accepted gs row col Hinv Hov Hv) as H.
    cbv zeta in H. destruct H as (_ & Hpos & _ & _ & Hcases).
    rewrite (Hturn Hov) in Hpos, Hcases.
    set (gs1 := (make_move gs row col).2) in *.
    assert (current_player gs1 = 2) as Hcp.
    { destruct Hcases as [(_ & _ & ? & _)|[(_ & _ & ? & _)
                                          |(_ & _ & _ & _ & Hc')]];
        [congruence..|]. rewrite Hc'. done. }
    pose proof (make_move_invariant gs row col Hinv) as Hinv1.
    fold gs1 in Hinv1.
    pose proof (make_move_accepted gs1 r c Hinv1 Hov1 Hv') as H.
    cbv zeta in H. destruct H as (_ & Hpos' & _).
    exists r, c. rewrite <- Hpos. split; [done|]. split; [done|].
    by rewrite Hpos', Hcp.
Qed.

(** * The evaluator: range and symmetries *)

Lemma when_range (b : bool) (v : Z) : 0 <= v -> 0 <= when b v <= v.
Proof. destruct b; simpl; lia. Qed.

Lemma line_score_range (s : list mark) : 0 <= line_score s <= 111660.
Proof.
  unfold line_score.
  repeat match goal with
  | |- context [when ?b ?v] =>
      let H := fresh "H" in
      pose proof (when_range b v ltac:(done)) as H;
      generalize dependent (when b v); intros
  end.
  unfold FIVE, OPEN_FOUR, CLOSED_FOUR, OPEN_THREE, CLOSED_THREE, OPEN_TWO,
    CLOSED_TWO in *. lia.
Qed.

Lemma when_divide (b : bool) (v : Z) : (10 | v) -> (10 | when b v).
Proof. destruct b; [done|]. intros _. apply Z.divide_0_r. Qed.

Lemma line_score_divide (s : list mark) : (10 | line_score s).
Proof.
  unfold line_score.
  repeat apply Z.divide_add_r; apply when_divide;
    [by exists 10000|by exists 1000|by exists 100|by exists 50
    |by exists 10|by exists 5|by exists 1].
Qed.

(** X10. [evaluate_position] returns a multiple of 10 between 0 and
    446640 (four directions, each scoring at most once per pattern
    class). *)
Theorem evaluate_position_range (g : GomokuGame) (row col player_id : Z) :
  0 <= evaluate_position g row col player_id <= 446640
  ∧ (10 | evaluate_position g row col player_id).
Proof.
  unfold evaluate_position, eval_directions. cbn [map sumZ foldr]. split.
  - pose proof (line_score_range (build_line g row col player_id (1, 0))).
    pose proof (line_score_range (build_line g row col player_id (0, 1))).
    pose proof (line_score_range (build_line g row col player_id (1, 1))).
    pose proof (line_score_range (build_line g row col player_id (1, -1))).
    lia.
  - pose proof (line_score_divide (build_line g row col player_id (1, 0))).
    pose proof (line_score_divide (build_line g row col player_id (0, 1))).
    pose proof (line_score_divide (build_line g row col player_id (1, 1))).
    pose proof (line_score_divide (build_line g row col player_id (1, -1))).
    do 3 (apply Z.divide_add_r; [done|]).
    apply Z.divide_add_r; [done|apply Z.divide_0_r].
Qed.

(** X11. [evaluate] is zero-sum: the score of a board for an AI playing
    the other colour is the negation of its score. *)
Theorem evaluate_other_side (player_id : Z) (g : GomokuGame) :
  evaluate (3 - player_id) g = - evaluate player_id g.
Proof.
  unfold evaluate. cbv zeta.
  replace (3 - (3 - player_id)) with player_id by lia.
  assert (forall l : list (Z * Z),
    sumZ (map (fun rc => if cell g rc.1 rc.2 =? 3 - player_id
                         then evaluate_position g rc.1 rc.2 (3 - player_id)
                         else 0) l)
    = sumZ (map (fun rc => if negb (cell g rc.1 rc.2 =? player_id)
                              && (cell g rc.1 rc.2 =? 3 - player_id)
                           then evaluate_position g rc.1 rc.2 (3 - player_id)
                           else 0) l)) as E1.
  { intros l. f_equal. apply map_ext. intros rc.
    destruct (Z.eqb_spec (cell g rc.1 rc.2) (3 - player_id)) as [E|E];
      [|by rewrite andb_false_r].
    destruct (Z.eqb_spec (cell g rc.1 rc.2) player_id); [lia|done]. }
  assert (forall l : list (Z * Z),
    sumZ (map (fun rc => if negb (cell g rc.1 rc.2 =? 3 - player_id)
                              && (cell g rc.1 rc.2 =? player_id)
                         then evaluate_position g rc.1 rc.2 player_id
                         else 0) l)
    = sumZ (map (fun rc => if cell g rc.1 rc.2 =? player_id
                           then evaluate_position g rc.1 rc.2 player_id
                           else 0) l)) as E2.
  { intros l. f_equal. apply map_ext. intros rc.
    destruct (Z.eqb_spec (cell g rc.1 rc.2) player_id) as [E|E];
      [|by rewrite andb_false_r].
    destruct (Z.eqb_spec (cell g rc.1 rc.2) (3 - player_id)); [lia|done]. }
  rewrite E1, E2. lia.
Qed.

Lemma in_bounds_swap_stones (p : Z) (g : GomokuGame) (r c : Z) :
  in_bounds (swap_stones p g) r c = in_bounds g r c.
Proof. done. Qed.

Lemma cell_swap_stones (p : Z) (g : GomokuGame) (r c : Z) :
  p ≠ 0 -> p ≠ 3 ->
  cell (swap_stones p g) r c
  = if cell g r c =? p then 3 - p
    else if cell g r c =? 3 - p then p else cell g r c.
Proof.
  intros H0 H3. unfold cell, swap_stones, cell_index. cbn [board board_size].
  set (f := fun v : Z => if v =? p then 3 - p else if v =? 3 - p then p else v).
  replace 0 with (f 0) at 1.
  - by rewrite map_nth.
  - unfold f. destruct (Z.eqb_spec 0 p); [lia|].
    destruct (Z.eqb_spec 0 (3 - p)); [lia|done].
Qed.

Lemma classify_swap_stones (p : Z) (g : GomokuGame) (r c : Z) :
  p ≠ 0 -> p ≠ 3 ->
  classify (swap_stones p g) (3 - p) r c = classify g p r c.
Proof.
  intros H0 H3. unfold classify.
  rewrite in_bounds_swap_stones, cell_swap_stones by done.
  destruct (in_bounds g r c); [|done].
  replace (3 - (3 - p)) with p by lia.
  destruct (Z.eqb_spec (cell g r c) p) as [E|E].
  - by rewrite Z.eqb_refl.
  - destruct (Z.eqb_spec (cell g r c) (3 - p)) as [E'|E'].
    + destruct (Z.eqb_spec p (3 - p)); [lia|]. by rewrite Z.eqb_refl.
    + destruct (Z.eqb_spec (cell g r c) (3 - p)); [done|].
      by destruct (Z.eqb_spec (cell g r c) p).
Qed.

Lemma evaluate_position_swap_stones (p : Z) (g : GomokuGame) (r c : Z) :
  p ≠ 0 -> p ≠ 3 ->
  evaluate_position (swap_stones p g) r c (3 - p)
  = evaluate_position g r c p.
Proof.
  intros H0 H3. unfold evaluate_position. f_equal. apply map_ext.
  intros d. f_equal. unfold build_line. apply map_ext. intros i.
  by apply classify_swap_stones.
Qed.

Lemma swap_stones_other (p : Z) (g : GomokuGame) :
  swap_stones (3 - p) g = swap_stones p g.
Proof.
  unfold swap_stones. f_equal. apply map_ext. intros v.
  replace (3 - (3 - p)) with p by lia.
  destruct (Z.eqb_spec v p) as [E|E], (Z.eqb_spec v (3 - p)) as [E'|E'];
    try done; lia.
Qed.

(** X12. The evaluator does not depend on the colours: for a player
    other than 0 and 3, exchanging the stones of the two sides and
    evaluating for the other player gives the same [evaluate_position] at
    every cell and the same [evaluate]. *)
Theorem evaluate_colour_blind (p : Z) (g : GomokuGame) :
  p ≠ 0 -> p ≠ 3 ->
  (forall r c, evaluate_position (swap_stones p g) r c (3 - p)
               = evaluate_position g r c p)
  ∧ evaluate (3 - p) (swap_stones p g) = evaluate p g.
Proof.
  intros H0 H3. split; [intros r c; by apply evaluate_position_swap_stones|].
  unfold evaluate. cbv zeta. cbn [board_size swap_stones].
  replace (3 - (3 - p)) with p by lia.
  f_equal; f_equal; apply map_ext; intros rc.
  - rewrite cell_swap_stones by done.
    destruct (Z.eqb_spec (cell g rc.1 rc.2) p) as [E|E].
    + rewrite Z.eqb_refl. by apply evaluate_position_swap_stones.
    + destruct (Z.eqb_spec (cell g rc.1 rc.2) (3 - p)) as [E'|E'].
      * destruct (Z.eqb_spec p (3 - p)); [lia|done].
      * destruct (Z.eqb_spec (cell g rc.1 rc.2) (3 - p)); done.
  - rewrite cell_swap_stones by done.
    pose proof (evaluate_position_swap_stones (3 - p) g
                  rc.1 rc.2 ltac:(lia) ltac:(lia)) as Hs.
    rewrite swap_stones_other in Hs.
    replace (3 - (3 - p)) with p in Hs by lia.
    destruct (Z.eqb_spec (cell g rc.1 rc.2) p) as [E|E].
    + rewrite Z.eqb_refl. cbn [negb andb]. done.
    + destruct (Z.eqb_spec (cell g rc.1 rc.2) (3 - p)) as [E'|E'].
      * destruct (Z.eqb_spec p (3 - p)); [lia|]. rewrite Z.eqb_refl.
        cbn [negb andb]. done.
      * destruct (Z.eqb_spec (cell g rc.1 rc.2) (3 - p)); [done|].
        destruct (Z.eqb_spec (cell g rc.1 rc.2) p); [done|].
        by rewrite andb_false_r.
Qed.

(** * The move generator: which cells, in which order *)

Lemma has_neighbor_near_stone (g : GomokuGame) (r c : Z) :
  has_neighbor g r c = true ↔ near_stone g (r, c).
Proof.
  split.
  - unfold has_neighbor. intros (dr & Hdr & H)%existsb_exists.
    apply existsb_exists in H as (dc & Hdc & H).
    apply list_elem_of_In, elem_of_seqZ in Hdr, Hdc.
    apply andb_true_iff in H as [H1 H2].
    apply negb_true_iff, Z.eqb_neq in H2.
    exists dr, dc. cbn [fst snd]. repeat split; try lia; done.
  - intros (dr & dc & Hdr & Hdc & Hin & Hv). cbn [fst snd] in *.
    by apply (has_neighbor_intro g r c dr dc).
Qed.

Lemma candidate_priority (p : Z) (g : GomokuGame) (rc : Z * Z) :
  candidate p g rc
  = if decide (considered g rc) then [(rc, priority p g rc)] else [].
Proof.
  unfold candidate, considered, priority.
  destruct (Z.eqb_spec (cell g rc.1 rc.2) 0) as [E|E]; cbn [andb].
  - destruct (has_neighbor g rc.1 rc.2) eqn:Hn.
    + by rewrite decide_True by (split; [done|by left]).
    + destruct (Z.ltb_spec (count_nonzero g) 2).
      * by rewrite decide_True by (split; [done|by right]).
      * rewrite decide_False; [done|]. intros [_ [?|?]]; [done|lia].
  - rewrite decide_False; [done|]. by intros [? _].
Qed.

Lemma scored_filter (p : Z) (g : GomokuGame) (l : list (Z * Z)) :
  l ≫= candidate p g
  = map (fun rc => (rc, priority p g rc)) (filter (considered g) l).
Proof.
  induction l as [|rc l IH]; [done|].
  rewrite bind_cons, filter_cons, IH, candidate_priority.
  by destruct (decide (considered g rc)).
Qed.

(** Between a cell that holds a stone and an Empty one, two neighbouring
    cells of a row or column differ in the same way. *)
Lemma first_change_up (f : Z -> bool) (n : nat) (a : Z) :
  f a = true -> f (a + Z.of_nat n) = false ->
  exists i, a <= i < a + Z.of_nat n ∧ f i = true ∧ f (i + 1) = false.
Proof.
  revert a. induction n as [|n IH]; intros a Ha Hb.
  - rewrite Z.add_0_r in Hb. congruence.
  - destruct (f (a + 1)) eqn:E.
    + destruct (IH (a + 1) E) as (i & Hi & H1 & H2).
      { rewrite <- Hb. f_equal. lia. }
      exists i. split; [lia|done].
    + exists a. split; [lia|done].
Qed.

Lemma first_change (f : Z -> bool) (a b : Z) :
  f a = true -> f b = false ->
  exists i j, Z.min a b <= i <= Z.max a b ∧ Z.min a b <= j <= Z.max a b
    ∧ -1 <= j - i <= 1 ∧ f i = true ∧ f j = false.
Proof.
  intros Ha Hb. destruct (Z.le_gt_cases a b) as [Hab|Hab].
  - destruct (first_change_up f (Z.to_nat (b - a)) a Ha) as (i & Hi & H1 & H2).
    { rewrite <- Hb. f_equal. lia. }
    exists i, (i + 1). repeat split; try lia; done.
  - destruct (first_change_up (fun i => f (- i)) (Z.to_nat (a - b)) (- a))
      as (i & Hi & H1 & H2).
    { by rewrite Z.opp_involutive. }
    { rewrite <- Hb. f_equal. lia. }
    exists (- i), (- (i + 1)). repeat split; try lia; done.
Qed.

Lemma stone_next_to_empty (g : GomokuGame) (sr sc er ec : Z) :
  in_bounds g sr sc = true -> cell g sr sc ≠ 0 ->
  in_bounds g er ec = true -> cell g er ec = 0 ->
  exists r c, in_bounds g r c = true ∧ cell g r c = 0
    ∧ has_neighbor g r c = true.
Proof.
  intros Hs Hsv He Hev.
  apply in_bounds_spec in Hs as Hs', He as He'.
  destruct (Z.eqb_spec (cell g sr ec) 0) as [Hmid|Hmid].
  - destruct (first_change (fun j => negb (cell g sr j =? 0)) sc ec)
      as (i & j & Hi & Hj & Hd & H1 & H2).
    { by apply negb_true_iff, Z.eqb_neq. }
    { by apply negb_false_iff, Z.eqb_eq. }
    apply negb_true_iff, Z.eqb_neq in H1.
    apply negb_false_iff, Z.eqb_eq in H2.
    exists sr, j. split; [apply in_bounds_spec; lia|]. split; [done|].
    apply (has_neighbor_intro g sr j 0 (i - j)); try lia.
    + replace (sr + 0) with sr by lia. replace (j + (i - j)) with i by lia.
      apply in_bounds_spec. lia.
    + replace (sr + 0) with sr by lia. by replace (j + (i - j)) with i by lia.
  - destruct (first_change (fun i => negb (cell g i ec =? 0)) sr er)
      as (i & j & Hi & Hj & Hd & H1 & H2).
    { by apply negb_true_iff, Z.eqb_neq. }
    { by apply negb_false_iff, Z.eqb_eq. }
    apply negb_true_iff, Z.eqb_neq in H1.
    apply negb_false_iff, Z.eqb_eq in H2.
    exists j, ec. split; [apply in_bounds_spec; lia|]. split; [done|].
    apply (has_neighbor_intro g j ec (i - j) 0); try lia.
    + replace (ec + 0) with ec by lia. replace (j + (i - j)) with i by lia.
      apply in_bounds_spec. lia.
    + replace (ec + 0) with ec by lia. by replace (j + (i - j)) with i by lia.
Qed.

Lemma scored_nil_full (p : Z) (g : GomokuGame) :
  coords (board_size g) ≫= candidate p g = [] ->
  0 < count_nonzero g -> get_valid_moves g = [].
Proof.
  intros Hnil Hcount.
  destruct (get_valid_moves g) as [|[er ec] rest] eqn:Hv; [done|].
  exfalso.
  assert ((er, ec) ∈ get_valid_moves g) as He by (rewrite Hv; left).
  apply elem_of_get_valid_moves in He as [He Hev].
  apply in_bounds_coords in He. cbn [fst snd] in Hev.
  unfold count_nonzero in Hcount.
  destruct (nonzero g) as [|[sr sc] rest'] eqn:Hs; [simpl in Hcount; lia|].
  assert ((sr, sc) ∈ nonzero g) as Hsin by (rewrite Hs; left).
  unfold nonzero in Hsin. apply list_elem_of_filter in Hsin as [Hsv Hsin].
  apply in_bounds_coords in Hsin. cbn [fst snd] in Hsv.
  destruct (stone_next_to_empty g sr sc er ec Hsin Hsv He Hev)
    as (r & c & Hin & H0 & Hn).
  assert (((r, c), priority p g (r, c))
          ∈ coords (board_size g) ≫= candidate p g) as Hin'.
  { apply list_elem_of_bind. exists (r, c). split.
    - rewrite candidate_priority, decide_True; [left|].
      split; [done|by left].
    - by apply in_bounds_coords. }
  rewrite Hnil in Hin'. by apply elem_of_nil in Hin'.
Qed.

(** The fallback of [get_sorted_moves] never adds a move. *)
Lemma valid_positions_scored (p : Z) (g : GomokuGame) :
  valid_positions p g = coords (board_size g) ≫= candidate p g.
Proof.
  unfold valid_positions.
  destruct (bool_decide _ && _) eqn:E; [|done].
  apply andb_true_iff in E as [E1 E2].
  apply bool_decide_eq_true in E1. apply Z.ltb_lt in E2.
  by rewrite (scored_nil_full p g E1 E2), E1.
Qed.

(** X13. The second loop of [get_sorted_moves], which adds every Empty
    cell when the scoring loop found none on a board with stones, never
    contributes: the moves returned are always those appended by the
    scoring loop, sorted. *)
Theorem get_sorted_moves_fallback_unused (p : Z) (g : GomokuGame) :
  (get_sorted_moves p g).1
  = map fst (sort_desc
      (fold_left (score_candidate p) (coords (board_size g)) (g, [])).2).
Proof.
  rewrite get_sorted_moves_pure, scoring_loop_pure. cbn [fst snd app].
  unfold sorted_moves. by rewrite valid_positions_scored.
Qed.

Lemma sorted_seqZ (k : nat) (m : Z) :
  StronglySorted Z.lt (seqZ m (Z.of_nat k)).
Proof.
  revert m. induction k as [|k IH]; intros m; [constructor|].
  rewrite seqZ_cons by lia. constructor.
  - replace (Z.pred (Z.of_nat (S k))) with (Z.of_nat k) by lia. apply IH.
  - apply Forall_forall. intros x Hx%elem_of_seqZ. lia.
Qed.

Lemma sorted_bind {A B : Type} (R1 : relation A) (R : relation B)
    (f : A -> list B) (l : list A) :
  StronglySorted R1 l ->
  (forall x, StronglySorted R (f x)) ->
  (forall x y a b, R1 x y -> a ∈ f x -> b ∈ f y -> R a b) ->
  StronglySorted R (l ≫= f).
Proof.
  intros Hl Hf HR. induction Hl as [|x l Hl IH Hx]; [constructor|].
  rewrite bind_cons. apply StronglySorted_app. split; [|split; [done|done]].
  intros a b Ha (y & Hb & Hy)%list_elem_of_bind.
  rewrite Forall_forall in Hx. apply (HR x y); [by apply Hx|done|done].
Qed.

Lemma sorted_filter {A : Type} (R : relation A) (P : A -> Prop)
    `{!forall x, Decision (P x)} (l : list A) :
  StronglySorted R l -> StronglySorted R (filter P l).
Proof.
  induction 1 as [|x l Hl IH Hx]; [constructor|].
  rewrite filter_cons. destruct (decide (P x)); [|done].
  constructor; [done|]. rewrite Forall_forall in Hx. apply Forall_forall.
  intros y [_ Hy]%list_elem_of_filter. by apply Hx.
Qed.

Lemma sorted_map_strong {A B : Type} (R : relation A) (R' : relation B)
    (f : A -> B) (l : list A) :
  (forall x y, x ∈ l -> y ∈ l -> R x y -> R' (f x) (f y)) ->
  StronglySorted R l -> StronglySorted R' (map f l).
Proof.
  intros HR Hl. induction Hl as [|x l Hl IH Hx]; [constructor|].
  cbn [map]. constructor.
  - apply IH. intros y z Hy Hz. apply HR; by right.
  - rewrite Forall_forall in Hx. apply Forall_forall.
    intros b (y & -> & Hy)%list_elem_of_fmap.
    apply HR; [left|by right|by apply Hx].
Qed.

Lemma sorted_coords (n : Z) : StronglySorted row_major (coords n).
Proof.
  unfold coords.
  assert (forall m, StronglySorted Z.lt (seqZ 0 m)) as Hseq.
  { intros m. destruct (Z.le_gt_cases m 0) as [Hm|Hm].
    - rewrite seqZ_nil by done. constructor.
    - rewrite <- (Z2Nat.id m) by lia. apply sorted_seqZ. }
  apply (sorted_bind Z.lt); [apply Hseq| |].
  - intros r. apply (sorted_bind Z.lt); [apply Hseq| |].
    + intros c. repeat constructor.
    + intros c c' a b Hc Ha%list_elem_of_singleton Hb%list_elem_of_singleton.
      subst. right. done.
  - intros r r' a b Hr (c & Ha%list_elem_of_singleton & _)%list_elem_of_bind
                    (c' & Hb%list_elem_of_singleton & _)%list_elem_of_bind.
    subst. by left.
Qed.

Section StableSort.

Variable before : relation (Z * Z).

Lemma insert_desc_sorted (x : (Z * Z) * Z) (s : list ((Z * Z) * Z)) :
  StronglySorted (entry_before before) s ->
  Forall (fun y => before x.1 y.1) s ->
  StronglySorted (entry_before before) (insert_desc x s).
Proof.
  induction 1 as [|y s Hs IH Hy]; intros Hx.
  - repeat constructor.
  - cbn [insert_desc]. apply Forall_cons in Hx as [Hxy Hx].
    destruct (Z.ltb_spec x.2 y.2) as [Hlt|Hge].
    + constructor; [by apply IH|].
      rewrite (insert_desc_perm x s). constructor; [by left|done].
    + constructor; [by constructor|].
      rewrite Forall_forall in Hy, Hx. apply Forall_forall. intros z Hz.
      assert (z.2 <= y.2) as Hzy.
      { apply elem_of_cons in Hz as [->|Hz]; [lia|].
        destruct (Hy z Hz) as [?|[? _]]; lia. }
      destruct (decide (z.2 = x.2)) as [E|E]; [|left; lia].
      right. split; [done|].
      apply elem_of_cons in Hz as [->|Hz]; [done|by apply Hx].
Qed.

Lemma sort_desc_sorted (l : list ((Z * Z) * Z)) :
  StronglySorted (fun x y => before x.1 y.1) l ->
  StronglySorted (entry_before before) (sort_desc l).
Proof.
  induction 1 as [|x l Hl IH Hx]; [constructor|].
  cbn [sort_desc foldr]. apply insert_desc_sorted; [done|].
  fold (sort_desc l). by rewrite (sort_desc_perm l).
Qed.

End StableSort.

Lemma sorted_moves_perm (p : Z) (g : GomokuGame) :
  sorted_moves p g ≡ₚ filter (considered g) (coords (board_size g)).
Proof.
  unfold sorted_moves.
  rewrite (sort_desc_perm (valid_positions p g)),
    valid_positions_scored, scored_filter, map_map. cbn [fst].
  by rewrite map_id.
Qed.

(** X14. [get_sorted_moves] returns each cell at most once, and a cell
    is returned exactly when it is on the board, Empty, and either some
    cell within two rows and two columns of it holds a stone or the
    board holds fewer than two stones. *)
Theorem get_sorted_moves_cells (p : Z) (g : GomokuGame) :
  NoDup (get_sorted_moves p g).1
  ∧ forall rc, rc ∈ (get_sorted_moves p g).1 ↔
      in_bounds g rc.1 rc.2 = true ∧ cell g rc.1 rc.2 = 0
      ∧ (near_stone g rc ∨ count_nonzero g < 2).
Proof.
  rewrite get_sorted_moves_pure. cbn [fst]. split.
  - rewrite (sorted_moves_perm p g). apply NoDup_filter, NoDup_coords.
  - intros [r c]. rewrite (sorted_moves_perm p g), list_elem_of_filter.
    rewrite <- in_bounds_coords, <- has_neighbor_near_stone.
    unfold considered. cbn [fst snd]. tauto.
Qed.

(** X15. [get_sorted_moves] returns its moves by descending score
    [max(ai_score, human_score * 1.1)], and moves of equal score in the
    row-major order of the board. *)
Theorem get_sorted_moves_order (p : Z) (g : GomokuGame) :
  StronglySorted (tried_before p g) (get_sorted_moves p g).1.
Proof.
  rewrite get_sorted_moves_pure. cbn [fst]. unfold sorted_moves.
  apply (sorted_map_strong (entry_before row_major)).
  - intros x y Hx Hy Hxy.
    assert (forall e, e ∈ sort_desc (valid_positions p g) ->
              e.2 = priority p g e.1) as Hkey.
    { intros e He. rewrite (sort_desc_perm (valid_positions p g)),
        valid_positions_scored, scored_filter in He.
      by apply list_elem_of_fmap in He as (rc & -> & _). }
    unfold tried_before. rewrite <- !Hkey by done. exact Hxy.
  - apply sort_desc_sorted.
    rewrite valid_positions_scored, scored_filter.
    apply (StronglySorted_fmap _ row_major); [done|].
    apply sorted_filter, sorted_coords.
Qed.

(** * Edges of the search *)

(** X16. When [max_depth] is 0, or the time limit is found exceeded at
    the first reading of the clock, [choose_move] on a board with at
    least two stones and an Empty cell returns the first move of
    [get_sorted_moves] without calling [minimax]. *)
Theorem choose_move_unsearched (hash : list Z -> bool -> Z)
    (budget_exceeded : nat -> bool) (self : GomokuAI) (g : GomokuGame) :
  max_depth self = 0%nat ∨ budget_exceeded 0%nat = true ->
  2 <= count_nonzero g ->
  get_valid_moves g ≠ [] ->
  exists first rest,
    (get_sorted_moves (player_id self) g).1 = first :: rest
    ∧ choose_move hash budget_exceeded self g = Some first
    ∧ nodes_evaluated (choose_move_with hash budget_exceeded self true g).2
      = 0%nat.
Proof.
  intros Hedge Hcount Hv. unfold choose_move, choose_move_with.
  rewrite get_sorted_moves_pure. cbn [fst].
  destruct (sorted_moves (player_id self) g) as [|first rest] eqn:Hm.
  { by apply sorted_moves_nil in Hm. }
  exists first, rest. split; [done|].
  destruct (Z.eqb_spec (count_nonzero g) 0); [lia|].
  destruct (Z.eqb_spec (count_nonzero g) 1); [lia|].
  destruct Hedge as [Hd|Ht].
  - rewrite Hd. cbn. done.
  - destruct (max_depth self) as [|d]; [cbn; done|].
    cbn [seq deepen]. unfold out_of_time. cbn [clock_reads].
    rewrite Ht. cbn. done.
Qed.

Section TableKeys.

Variable hash : list Z -> bool -> Z.
Variable budget_exceeded : nat -> bool.
Variable self : GomokuAI.

Lemma tt_terminal_free_tick (n : Z) (st : state) :
  tt_terminal_free hash self n st -> tt_terminal_free hash self n (tick st).
Proof. by intros [Hn Ht]. Qed.

Lemma root_loop_terminal_free (n : Z) (cached : bool) (depth : nat)
    (moves : list (Z * Z)) :
  forall (bm : Z * Z) (bs alpha : score) (st : state),
    tt_terminal_free hash self n st ->
    tt_terminal_free hash self n
      (root_loop hash budget_exceeded self cached depth moves bm bs alpha
         st).2.
Proof.
  induction moves as [|m moves IH]; intros bm bs alpha st Hst; [done|].
  cbn [root_loop]. cbv zeta.
  pose proof (minimax_with_terminal_free hash budget_exceeded self n cached
                (Nat.pred depth) false alpha PosInf
                (place st m (player_id self))
                (tt_terminal_free_place hash self n st m _ Hst)) as H2.
  cbv beta in H2.
  destruct (minimax_with _ _ _ _ _ _ _ _ _) as [s st2]. cbn [snd] in H2.
  destruct (score_ltb bs s); unfold out_of_time;
    (destruct (budget_exceeded _);
     [by apply tt_terminal_free_tick, tt_terminal_free_place
     |by apply IH, tt_terminal_free_tick, tt_terminal_free_place]).
Qed.

Lemma deepen_terminal_free (n : Z) (cached : bool) (depths : list nat)
    (valid_moves : list (Z * Z)) :
  forall (bm : Z * Z) (bs : score) (st : state),
    tt_terminal_free hash self n st ->
    tt_terminal_free hash self n
      (deepen hash budget_exceeded self cached depths valid_moves bm bs
         st).2.
Proof.
  induction depths as [|d depths IH]; intros bm bs st Hst; [done|].
  cbn [deepen]. unfold out_of_time.
  destruct (budget_exceeded _); [by apply tt_terminal_free_tick|].
  pose proof (root_loop_terminal_free n cached d valid_moves bm NegInf
                NegInf (tick st) (tt_terminal_free_tick n st Hst)) as H2.
  destruct (root_loop _ _ _ _ _ _ _ _ _ _) as [[bm' bs'] st2].
  by apply IH.
Qed.

(** X17. Whatever the clock and the hash, every key of the transposition
    table that [choose_move] leaves behind was filed for a position of
    the same board size that is neither won by a player nor full: a
    terminal position is never stored. *)
Theorem choose_move_table_no_terminal (g : GomokuGame) :
  tt_terminal_free hash self (board_size g)
    (choose_move_with hash budget_exceeded self true g).2.
Proof.
  unfold choose_move_with. rewrite get_sorted_moves_pure.
  assert (tt_terminal_free hash self (board_size g)
            {| game := g; nodes_evaluated := 0;
               transposition_table := ∅; clock_reads := 0 |}) as Hst.
  { split; [done|]. intros k e Hk. cbn in Hk.
    by rewrite lookup_empty in Hk. }
  destruct (sorted_moves (player_id self) g) as [|first rest]; [done|].
  destruct (count_nonzero g =? 0); [done|].
  destruct (if count_nonzero g =? 1 then _ else _); [done|].
  pose proof (deepen_terminal_free (board_size g) true
                (seq 1 (max_depth self)) (first :: rest) first NegInf _ Hst)
    as H2.
  by destruct (deepen _ _ _ _ _ _ _ _ _) as [[bm bs] st2].
Qed.

End TableKeys.

(** * The list of legal moves *)

(** X18. [get_valid_moves] lists exactly the cells that [is_valid_move]
    accepts, each once, in row-major order. *)
Theorem get_valid_moves_spec (g : GomokuGame) :
  (forall r c, is_valid_move g r c = true ↔ (r, c) ∈ get_valid_moves g)
  ∧ NoDup (get_valid_moves g)
  ∧ StronglySorted row_major (get_valid_moves g).
Proof.
  split; [|split].
  - intros r c. rewrite is_valid_move_spec, elem_of_get_valid_moves.
    rewrite in_bounds_coords. done.
  - apply NoDup_filter, NoDup_coords.
  - apply sorted_filter, sorted_coords.
Qed.

(** * The sorting key *)

Lemma round53_lower (p : Z) :
  0 < p -> p - 2 ^ (Z.log2 p - 52) <= round53 p.
Proof.
  intros Hp. unfold round53. cbv zeta.
  destruct (Z.leb_spec (Z.log2 p + 1) 53) as [Hn|Hn].
  - pose proof (Z.pow_nonneg 2 (Z.log2 p - 52) ltac:(lia)). lia.
  - replace (Z.log2 p + 1 - 53) with (Z.log2 p - 52) by lia.
    set (sh := Z.log2 p - 52). assert (0 < sh) as Hsh by (unfold sh; lia).
    rewrite Z.shiftr_div_pow2, Z.shiftl_mul_pow2 by lia.
    assert (0 < 2 ^ sh) as Hpow by (apply Z.pow_pos_nonneg; lia).
    pose proof (Z.div_mod p (2 ^ sh) ltac:(lia)) as Hdm.
    pose proof (Z.mod_pos_bound p (2 ^ sh) Hpow) as Hmod.
    destruct (_ || _); nia.
Qed.

Lemma float_mul_1_1_grows (h : Z) : 1 <= h -> h * 2 ^ 52 < float_mul_1_1 h.
Proof.
  intros Hh. unfold float_mul_1_1.
  assert (0 < h * mant_1_1) as Hp by (unfold mant_1_1; lia).
  pose proof (round53_lower _ Hp) as Hr.
  pose proof (Z.log2_spec _ Hp) as [Hlo _].
  set (n := Z.log2 (h * mant_1_1)) in *.
  destruct (Z.le_gt_cases 52 n) as [Hn|Hn].
  - replace n with (n - 52 + 52) in Hlo by lia.
    rewrite Z.pow_add_r in Hlo by lia.
    assert (0 < 2 ^ (n - 52)) by (apply Z.pow_pos_nonneg; lia).
    unfold mant_1_1 in *. change (2 ^ 52) with 4503599627370496 in *. nia.
  - assert (2 ^ (n - 52) = 0) as E by (apply Z.pow_neg_r; lia).
    rewrite E in Hr. unfold mant_1_1 in *.
    change (2 ^ 52) with 4503599627370496. lia.
Qed.

(** X19. The sorting key [max(ai_score, human_score * 1.1)] favours
    defence: whenever the opponent's score is at least 1 and not below
    the AI's, the key is the binary64 product [human_score * 1.1], and it
    is strictly greater than [ai_score]. *)
Theorem move_key_defence (a h : Z) :
  1 <= h -> a <= h ->
  move_key a h = float_mul_1_1 h ∧ a * 2 ^ 52 < move_key a h.
Proof.
  intros Hh Ha. pose proof (float_mul_1_1_grows h Hh) as Hg.
  unfold move_key. cbv zeta.
  assert (a * 2 ^ 52 < float_mul_1_1 h) as Hlt.
  { change (2 ^ 52) with 4503599627370496 in *. lia. }
  destruct (Z.ltb_spec (a * 2 ^ 52) (float_mul_1_1 h)); [done|lia].
Qed.

(** * Searches of depth at most three: the table changes nothing *)

Lemma count_nonzero_set_cell (g : GomokuGame) (r c v : Z) :
  well_formed g -> in_bounds g r c = true -> cell g r c = 0 -> v ≠ 0 ->
  count_nonzero (set_cell g r c v) = count_nonzero g + 1.
Proof.
  intros Hwf Hin H0 Hv. unfold count_nonzero, nonzero.
  rewrite board_size_set_cell.
  rewrite (length_filter_gain (fun rc => cell g rc.1 rc.2 ≠ 0)
             (fun rc => cell (set_cell g r c v) rc.1 rc.2 ≠ 0) (r, c)).
  - lia.
  - apply NoDup_coords.
  - by apply in_bounds_coords.
  - cbn [fst snd]. intros H. by apply H.
  - cbn [fst snd]. by rewrite cell_set_cell_eq.
  - intros [r' c'] Hrc Hne. cbn [fst snd].
    rewrite cell_set_cell_ne; [done|done| |done].
    by apply in_bounds_coords.
Qed.

Lemma set_cell_inj (g : GomokuGame) (a b : Z * Z) (v : Z) :
  well_formed g -> v ≠ 0 ->
  in_bounds g a.1 a.2 = true -> cell g a.1 a.2 = 0 ->
  in_bounds g b.1 b.2 = true -> cell g b.1 b.2 = 0 ->
  set_cell g a.1 a.2 v = set_cell g b.1 b.2 v -> a = b.
Proof.
  intros Hwf Hv Ha Ha0 Hb Hb0 E.
  destruct (decide (a = b)) as [|Hne]; [done|]. exfalso.
  assert (cell (set_cell g a.1 a.2 v) a.1 a.2 = v) as H1
    by by apply cell_set_cell_eq.
  rewrite E, cell_set_cell_ne in H1; [congruence|done|done|].
  destruct a, b. cbn [fst snd] in *. done.
Qed.

Lemma sorted_moves_legal (p : Z) (g : GomokuGame) (a : Z * Z) :
  a ∈ sorted_moves p g -> in_bounds g a.1 a.2 = true ∧ cell g a.1 a.2 = 0.
Proof.
  intros Ha. apply elem_of_sorted_moves, elem_of_get_valid_moves in Ha.
  destruct Ha as [Hc H0]. split; [|done].
  destruct a. by apply in_bounds_coords.
Qed.

Lemma sorted_moves_NoDup (p : Z) (g : GomokuGame) : NoDup (sorted_moves p g).
Proof. rewrite (sorted_moves_perm p g). apply NoDup_filter, NoDup_coords. Qed.

Section Shallow.

Variable hash : list Z -> bool -> Z.
Variable self : GomokuAI.
Variable g : GomokuGame.

Hypothesis hash_collision_free : collision_free hash.
Hypothesis player_not_0 : player_id self ≠ 0.
Hypothesis player_not_3 : player_id self ≠ 3.

Abbreviation fits := (table_fits hash self g).
Abbreviation search := (minimax_with hash unbounded self).

Lemma same_key_same_board (B B' : GomokuGame) (m m' : bool) :
  board_size B = board_size g -> board_size B' = board_size g ->
  hash (board B) m = hash (board B') m' -> B = B'.
Proof.
  intros HB HB' [Hb _]%hash_collision_free.
  destruct B, B'. cbn in *. congruence.
Qed.

Lemma table_fits_mono (D : nat) (P P' : GomokuGame -> Prop) (st : state) :
  (forall B, P B -> P' B) -> fits D P st -> fits D P' st.
Proof.
  intros HP Hst k e Hk.
  destruct (Hst k e Hk) as (B & m & Hn & -> & Hnt & H).
  exists B, m. repeat split; try done.
  destruct H as [H|[H|(H1 & H2 & H3)]]; [by left|by right; left|].
  right; right. auto.
Qed.

Lemma table_fits_next (D : nat) (P : GomokuGame -> Prop) (st : state) :
  fits D P st -> fits (S D) (fun _ => False) st.
Proof.
  intros Hst k e Hk.
  destruct (Hst k e Hk) as (B & m & Hn & -> & Hnt & H).
  exists B, m. repeat split; try done.
  destruct H as [H|[H|(H1 & H2 & H3)]]; [left; lia|by right; left|left; lia].
Qed.

Lemma table_fits_table (D : nat) (P : GomokuGame -> Prop) (st st' : state) :
  transposition_table st' = transposition_table st ->
  fits D P st -> fits D P st'.
Proof. intros E Hst k e Hk. rewrite E in Hk. by apply Hst. Qed.

Lemma table_fits_store_leaf (D : nat) (P : GomokuGame -> Prop) (st : state)
    (B : GomokuGame) (m : bool) :
  fits D P st -> board_size B = board_size g -> ¬ terminal self B ->
  fits D P (tt_store st (hash (board B) m)
              (Fin (evaluate (player_id self) B)) 0).
Proof.
  intros Hst Hn Hnt k e. unfold tt_store. cbn [transposition_table].
  rewrite lookup_insert. case_decide as Hk.
  - intros [= <-]. exists B, m. repeat split; try done. right; left. done.
  - apply Hst.
Qed.

Lemma table_fits_store_inner (D : nat) (P : GomokuGame -> Prop) (st : state)
    (B : GomokuGame) (m : bool) (s : score) (d : nat) :
  fits D P st -> board_size B = board_size g -> ¬ terminal self B ->
  (1 <= d)%nat ->
  Z.of_nat d + count_nonzero B = Z.of_nat D + count_nonzero g ->
  fits D (fun B' => P B' ∨ B' = B) (tt_store st (hash (board B) m) s d).
Proof.
  intros Hst Hn Hnt Hd Hc k e. unfold tt_store. cbn [transposition_table].
  rewrite lookup_insert. case_decide as Hk.
  - intros [= <-]. exists B, m. repeat split; try done. right; right.
    cbn [tt_depth]. auto.
  - intros He. by apply (table_fits_mono D P _ st (fun B' HB => or_introl HB) Hst).
Qed.

Lemma probe_inner (D : nat) (P : GomokuGame -> Prop) (st : state)
    (B : GomokuGame) (m : bool) (d : nat) :
  fits D P st -> board_size B = board_size g -> (1 <= d)%nat ->
  Z.of_nat d + count_nonzero B = Z.of_nat D + count_nonzero g ->
  ¬ P B ->
  tt_probe true st (hash (board B) m) d = None.
Proof.
  intros Hst Hn Hd Hc HP. unfold tt_probe.
  destruct (transposition_table st !! hash (board B) m) as [e|] eqn:He;
    [|done].
  destruct (Hst _ _ He) as (B' & m' & Hn' & Hk & Hnt & H).
  apply same_key_same_board in Hk; [|done..]. subst B'.
  destruct (Nat.leb_spec d (tt_depth e)) as [Hle|Hgt]; [|done].
  exfalso. destruct H as [H|[[H _]|(H1 & H2 & H3)]]; [lia|lia|done].
Qed.

Lemma probe_leaf (D : nat) (P : GomokuGame -> Prop) (st : state)
    (B : GomokuGame) (m : bool) :
  fits D P st -> board_size B = board_size g ->
  count_nonzero B = Z.of_nat D + count_nonzero g ->
  tt_probe true st (hash (board B) m) 0 = None
  ∨ (tt_probe true st (hash (board B) m) 0
     = Some (Fin (evaluate (player_id self) B))
     ∧ ¬ terminal self B).
Proof.
  intros Hst Hn Hc. unfold tt_probe.
  destruct (transposition_table st !! hash (board B) m) as [e|] eqn:He;
    [|by left].
  destruct (Hst _ _ He) as (B' & m' & Hn' & Hk & Hnt & H).
  apply same_key_same_board in Hk; [|done..]. subst B'.
  cbn [Nat.leb]. right.
  destruct H as [H|[[_ H]|(H1 & H2 & H3)]]; [lia|by rewrite H|lia].
Qed.

Ltac enter_both st_c st_u c1 u1 :=
  rewrite !minimax_with_unfold; unfold out_of_time, unbounded;
  cbv beta iota zeta;
  change (tt_probe false (tick (count_node st_u))) with
    (fun (_ : Z) (_ : nat) => @None score);
  cbv beta;
  assert (game (tick (count_node st_c)) = game st_c) as Hgc1 by reflexivity;
  assert (game (tick (count_node st_u)) = game st_u) as Hgu1 by reflexivity;
  assert (transposition_table (tick (count_node st_c))
          = transposition_table st_c) as Htc1 by reflexivity;
  generalize dependent (tick (count_node st_c)); intros c1 Hgc1 Htc1;
  generalize dependent (tick (count_node st_u)); intros u1 Hgu1.

Lemma leaf_agrees (D : nat) (P : GomokuGame -> Prop) (alpha beta : score)
    (m : bool) (st_c st_u : state) :
  game st_u = game st_c ->
  board_size (game st_c) = board_size g ->
  count_nonzero (game st_c) = Z.of_nat D + count_nonzero g ->
  fits D P st_c ->
  (search true 0 alpha beta m st_c).1 = (search false 0 alpha beta m st_u).1
  ∧ fits D P (search true 0 alpha beta m st_c).2.
Proof.
  intros Hg Hn Hc Hst. enter_both st_c st_u c1 u1.
  rewrite Hgu1, Hg, <- Hgc1. rewrite <- Hgc1 in Hn, Hc.
  apply (table_fits_table D P st_c c1 Htc1) in Hst.
  destruct (probe_leaf D P c1 (game c1) m Hst Hn Hc) as [Hp|[Hp Hnt]];
    rewrite Hp.
  - repeat (case_bool_decide; [done|]). cbn [fst snd]. split; [done|].
    apply table_fits_store_leaf; [done|done|]. unfold terminal. tauto.
  - cbn [fst snd]. split; [|done].
    unfold terminal in Hnt.
    repeat (case_bool_decide; [tauto|]). done.
Qed.

Lemma place_game (st : state) (mv : Z * Z) (v : Z) :
  game (place st mv v) = set_cell (game st) mv.1 mv.2 v.
Proof. done. Qed.

Lemma place_table (st : state) (mv : Z * Z) (v : Z) :
  transposition_table (place st mv v) = transposition_table st.
Proof. done. Qed.

Lemma place_back (st2 : state) (B : GomokuGame) (mv : Z * Z) (v : Z) :
  cell B mv.1 mv.2 = 0 ->
  game st2 = set_cell B mv.1 mv.2 v ->
  game (place st2 mv 0) = B.
Proof. intros H0 E. rewrite place_game, E. by apply place_restore. Qed.

(** Two runs of a loop over the same moves agree when the searches of
    the children agree; [I] is what holds of the table once a prefix of
    the moves has been searched. *)
Lemma max_loop_agrees (sc su : score -> score -> state -> score * state)
    (B : GomokuGame) (I : list (Z * Z) -> state -> Prop) :
  (forall a b s, game (sc a b s).2 = game s) ->
  (forall a b s, game (su a b s).2 = game s) ->
  (forall l s s', transposition_table s' = transposition_table s ->
     I l s -> I l s') ->
  forall (moves done : list (Z * Z)) (ms alpha beta : score)
         (st_c st_u : state),
    all_empty B moves ->
    game st_c = B -> game st_u = B -> I done st_c ->
    (forall pre mv post a b s_c s_u, moves = pre ++ mv :: post ->
       game s_c = B -> game s_u = B -> I (done ++ pre) s_c ->
       (sc a b (place s_c mv (player_id self))).1
       = (su a b (place s_u mv (player_id self))).1
       ∧ I (done ++ pre ++ [mv])
           (sc a b (place s_c mv (player_id self))).2) ->
    (max_loop self sc moves ms alpha beta st_c).1
    = (max_loop self su moves ms alpha beta st_u).1
    ∧ exists pre post, moves = pre ++ post
        ∧ I (done ++ pre) (max_loop self sc moves ms alpha beta st_c).2.
Proof.
  intros Hsc Hsu HI. induction moves as [|mv rest IH];
    intros done ms alpha beta st_c st_u Hall Hgc Hgu Hinv Hchild.
  - cbn [max_loop fst snd]. split; [done|]. exists [], [].
    by rewrite !app_nil_r.
  - cbn [max_loop]. cbv zeta.
    apply Forall_cons in Hall as [H0 Hall].
    destruct (Hchild [] mv rest alpha beta st_c st_u eq_refl Hgc Hgu)
      as [Hs Hi]; [by rewrite app_nil_r|].
    pose proof (Hsc alpha beta (place st_c mv (player_id self))) as Hg2c.
    pose proof (Hsu alpha beta (place st_u mv (player_id self))) as Hg2u.
    rewrite place_game in Hg2c, Hg2u. rewrite Hgc in Hg2c. rewrite Hgu in Hg2u.
    destruct (sc alpha beta _) as [s c2], (su alpha beta _) as [s' u2].
    cbn [fst snd] in *. subst s'.
    assert (game (place c2 mv 0) = B) as Hg3c
      by exact (place_back c2 B mv (player_id self) H0 Hg2c).
    assert (game (place u2 mv 0) = B) as Hg3u
      by exact (place_back u2 B mv (player_id self) H0 Hg2u).
    assert (I (done ++ [mv]) (place c2 mv 0)) as Hi3
      by (apply (HI _ c2); [apply place_table|done]).
    destruct (score_leb _ _).
    + cbn [fst snd]. split; [done|]. by exists [mv], rest.
    + destruct (IH (done ++ [mv]) (score_max ms s)
                  (score_max alpha (score_max ms s)) beta
                  (place c2 mv 0) (place u2 mv 0) Hall Hg3c Hg3u Hi3)
        as [Hr (pre & post & -> & Hfin)].
      { intros pre mv' post a b s_c s_u -> Hc Hu Hpre.
        rewrite <- app_assoc in Hpre. cbn [app] in Hpre.
        destruct (Hchild (mv :: pre) mv' post a b s_c s_u eq_refl Hc Hu Hpre)
          as [H1 H2].
        split; [done|]. by rewrite <- app_assoc. }
      split; [done|]. exists (mv :: pre), post. split; [done|].
      by rewrite <- app_assoc in Hfin.
Qed.

Lemma min_loop_agrees (sc su : score -> score -> state -> score * state)
    (B : GomokuGame) (I : list (Z * Z) -> state -> Prop) :
  (forall a b s, game (sc a b s).2 = game s) ->
  (forall a b s, game (su a b s).2 = game s) ->
  (forall l s s', transposition_table s' = transposition_table s ->
     I l s -> I l s') ->
  forall (moves done : list (Z * Z)) (ms alpha beta : score)
         (st_c st_u : state),
    all_empty B moves ->
    game st_c = B -> game st_u = B -> I done st_c ->
    (forall pre mv post a b s_c s_u, moves = pre ++ mv :: post ->
       game s_c = B -> game s_u = B -> I (done ++ pre) s_c ->
       (sc a b (place s_c mv (opponent_id self))).1
       = (su a b (place s_u mv (opponent_id self))).1
       ∧ I (done ++ pre ++ [mv])
           (sc a b (place s_c mv (opponent_id self))).2) ->
    (min_loop self sc moves ms alpha beta st_c).1
    = (min_loop self su moves ms alpha beta st_u).1
    ∧ exists pre post, moves = pre ++ post
        ∧ I (done ++ pre) (min_loop self sc moves ms alpha beta st_c).2.
Proof.
  intros Hsc Hsu HI. induction moves as [|mv rest IH];
    intros done ms alpha beta st_c st_u Hall Hgc Hgu Hinv Hchild.
  - cbn [min_loop fst snd]. split; [done|]. exists [], [].
    by rewrite !app_nil_r.
  - cbn [min_loop]. cbv zeta.
    apply Forall_cons in Hall as [H0 Hall].
    destruct (Hchild [] mv rest alpha beta st_c st_u eq_refl Hgc Hgu)
      as [Hs Hi]; [by rewrite app_nil_r|].
    pose proof (Hsc alpha beta (place st_c mv (opponent_id self))) as Hg2c.
    pose proof (Hsu alpha beta (place st_u mv (opponent_id self))) as Hg2u.
    rewrite place_game in Hg2c, Hg2u. rewrite Hgc in Hg2c. rewrite Hgu in Hg2u.
    destruct (sc alpha beta _) as [s c2], (su alpha beta _) as [s' u2].
    cbn [fst snd] in *. subst s'.
    assert (game (place c2 mv 0) = B) as Hg3c
      by exact (place_back c2 B mv (opponent_id self) H0 Hg2c).
    assert (game (place u2 mv 0) = B) as Hg3u
      by exact (place_back u2 B mv (opponent_id self) H0 Hg2u).
    assert (I (done ++ [mv]) (place c2 mv 0)) as Hi3
      by (apply (HI _ c2); [apply place_table|done]).
    destruct (score_leb _ _).
    + cbn [fst snd]. split; [done|]. by exists [mv], rest.
    + destruct (IH (done ++ [mv]) (score_min ms s) alpha
                  (score_min beta (score_min ms s))
                  (place c2 mv 0) (place u2 mv 0) Hall Hg3c Hg3u Hi3)
        as [Hr (pre & post & -> & Hfin)].
      { intros pre mv' post a b s_c s_u -> Hc Hu Hpre.
        rewrite <- app_assoc in Hpre. cbn [app] in Hpre.
        destruct (Hchild (mv :: pre) mv' post a b s_c s_u eq_refl Hc Hu Hpre)
          as [H1 H2].
        split; [done|]. by rewrite <- app_assoc. }
      split; [done|]. exists (mv :: pre), post. split; [done|].
      by rewrite <- app_assoc in Hfin.
Qed.

Lemma leaf_child (D : nat) (P : GomokuGame -> Prop) (B : GomokuGame)
    (v : Z) (moves pre post : list (Z * Z)) (mv : Z * Z) (a b : score)
    (im : bool) (s_c s_u : state) :
  v ≠ 0 -> well_formed B -> board_size B = board_size g ->
  1 + count_nonzero B = Z.of_nat D + count_nonzero g ->
  (forall x, x ∈ moves -> in_bounds B x.1 x.2 = true ∧ cell B x.1 x.2 = 0) ->
  moves = pre ++ mv :: post ->
  game s_c = B -> game s_u = B -> fits D P s_c ->
  (search true 0 a b im (place s_c mv v)).1
  = (search false 0 a b im (place s_u mv v)).1
  ∧ fits D P (search true 0 a b im (place s_c mv v)).2.
Proof.
  intros Hv Hwf Hn Hc Hlegal -> Hgc Hgu Hst.
  destruct (Hlegal mv) as [Hin H0];
    [apply elem_of_app; right; apply elem_of_cons; by left|].
  apply leaf_agrees.
  - by rewrite !place_game, Hgc, Hgu.
  - by rewrite place_game, board_size_set_cell, Hgc.
  - rewrite place_game, Hgc, count_nonzero_set_cell by done. lia.
  - by apply (table_fits_table D P s_c).
Qed.

Lemma inner1_agrees (D : nat) (P : GomokuGame -> Prop) (alpha beta : score)
    (m : bool) (st_c st_u : state) :
  game st_u = game st_c ->
  board_size (game st_c) = board_size g ->
  well_formed (game st_c) ->
  1 + count_nonzero (game st_c) = Z.of_nat D + count_nonzero g ->
  ¬ P (game st_c) ->
  fits D P st_c ->
  (search true 1 alpha beta m st_c).1 = (search false 1 alpha beta m st_u).1
  ∧ fits D (fun B' => P B' ∨ B' = game st_c)
      (search true 1 alpha beta m st_c).2.
Proof.
  intros Hg Hn Hwf Hc HP Hst. enter_both st_c st_u c1 u1.
  rewrite Hgu1, Hg, <- Hgc1. rewrite <- Hgc1 in Hn, Hwf, Hc, HP.
  apply (table_fits_table D P st_c c1 Htc1) in Hst.
  rewrite (probe_inner D P c1 (game c1) m 1 Hst Hn) by (done || lia).
  assert (fits D (fun B' => P B' ∨ B' = game c1) c1) as Hst'
    by exact (table_fits_mono D P _ c1 (fun B' HB => or_introl HB) Hst).
  repeat (case_bool_decide; [done|]).
  assert (¬ terminal self (game c1)) as Hnt by (unfold terminal; tauto).
  rewrite get_sorted_moves_pure. cbv beta iota zeta. rewrite with_game_id.
  assert (forall x, x ∈ sorted_moves (player_id self) (game c1) ->
            in_bounds (game c1) x.1 x.2 = true ∧ cell (game c1) x.1 x.2 = 0)
    as Hlegal by (intros x; apply sorted_moves_legal).
  assert (opponent_id self ≠ 0) as Ho by (unfold opponent_id; lia).
  destruct m.
  - destruct (max_loop_agrees
                (fun a b => search true 0 a b false)
                (fun a b => search false 0 a b false)
                (game c1) (fun _ st => fits D P st)
                (fun a b s => minimax_with_game hash unbounded self true 0
                                a b false s)
                (fun a b s => minimax_with_game hash unbounded self false 0
                                a b false s)
                (fun _ s s' E => table_fits_table D P s s' E)
                (sorted_moves (player_id self) (game c1)) [] NegInf
                alpha beta c1 (with_game u1 (game c1))
                (sorted_moves_empty _ _) eq_refl eq_refl Hst)
      as [Hs (pre & post & _ & Hfin)].
    { intros pre mv post a b s_c s_u Hm Hgc Hgu Hi.
      by apply (leaf_child D P (game c1) (player_id self)
                  (sorted_moves (player_id self) (game c1)) pre post). }
    destruct (max_loop _ _ _ _ _ _ c1) as [s1 c3].
    destruct (max_loop _ _ _ _ _ _ (with_game u1 _)) as [s2 u3].
    cbn [fst snd] in *. split; [done|].
    apply table_fits_store_inner; [done|done|done|lia|lia].
  - destruct (min_loop_agrees
                (fun a b => search true 0 a b true)
                (fun a b => search false 0 a b true)
                (game c1) (fun _ st => fits D P st)
                (fun a b s => minimax_with_game hash unbounded self true 0
                                a b true s)
                (fun a b s => minimax_with_game hash unbounded self false 0
                                a b true s)
                (fun _ s s' E => table_fits_table D P s s' E)
                (sorted_moves (player_id self) (game c1)) [] PosInf
                alpha beta c1 (with_game u1 (game c1))
                (sorted_moves_empty _ _) eq_refl eq_refl Hst)
      as [Hs (pre & post & _ & Hfin)].
    { intros pre mv post a b s_c s_u Hm Hgc Hgu Hi.
      by apply (leaf_child D P (game c1) (opponent_id self)
                  (sorted_moves (player_id self) (game c1)) pre post). }
    destruct (min_loop _ _ _ _ _ _ c1) as [s1 c3].
    destruct (min_loop _ _ _ _ _ _ (with_game u1 _)) as [s2 u3].
    cbn [fst snd] in *. split; [done|].
    apply table_fits_store_inner; [done|done|done|lia|lia].
Qed.

Lemma child_of_mono (B : GomokuGame) (v : Z) (l l' : list (Z * Z))
    (B' : GomokuGame) :
  (forall x, x ∈ l -> x ∈ l') -> child_of B v l B' -> child_of B v l' B'.
Proof. intros Hl (a & Ha & E). exists a. auto. Qed.

Lemma inner2_agrees (D : nat) (P : GomokuGame -> Prop) (alpha beta : score)
    (st_c st_u : state) :
  game st_u = game st_c ->
  board_size (game st_c) = board_size g ->
  well_formed (game st_c) ->
  2 + count_nonzero (game st_c) = Z.of_nat D + count_nonzero g ->
  ¬ P (game st_c) ->
  (forall b, b ∈ sorted_moves (player_id self) (game st_c) ->
     ¬ P (set_cell (game st_c) b.1 b.2 (opponent_id self))) ->
  fits D P st_c ->
  (search true 2 alpha beta false st_c).1
  = (search false 2 alpha beta false st_u).1
  ∧ fits D (fun B' => P B' ∨ B' = game st_c
                      ∨ child_of (game st_c) (opponent_id self)
                          (sorted_moves (player_id self) (game st_c)) B')
      (search true 2 alpha beta false st_c).2.
Proof.
  intros Hg Hn Hwf Hc HP HPc Hst. enter_both st_c st_u c1 u1.
  rewrite Hgu1, Hg, <- Hgc1. rewrite <- Hgc1 in Hn, Hwf, Hc, HP, HPc.
  apply (table_fits_table D P st_c c1 Htc1) in Hst.
  rewrite (probe_inner D P c1 (game c1) false 2 Hst Hn) by (done || lia).
  set (B := game c1) in *.
  set (o := opponent_id self) in *.
  set (moves := sorted_moves (player_id self) B) in *.
  assert (fits D (fun B' => P B' ∨ B' = B ∨ child_of B o moves B') c1)
    as Hst'
    by exact (table_fits_mono D P _ c1 (fun B' HB => or_introl HB) Hst).
  repeat (case_bool_decide; [done|]).
  assert (¬ terminal self B) as Hnt by (unfold terminal; tauto).
  rewrite get_sorted_moves_pure. cbv beta iota zeta. rewrite with_game_id.
  fold B moves.
  assert (forall x, x ∈ moves ->
            in_bounds B x.1 x.2 = true ∧ cell B x.1 x.2 = 0)
    as Hlegal by (intros x; apply sorted_moves_legal).
  assert (NoDup moves) as Hnd by apply sorted_moves_NoDup.
  assert (o ≠ 0) as Ho by (unfold o, opponent_id; lia).
  destruct (min_loop_agrees
              (fun a b => search true 1 a b true)
              (fun a b => search false 1 a b true)
              B (fun done st => fits D (fun B' => P B' ∨ child_of B o done B')
                                  st)
              (fun a b s => minimax_with_game hash unbounded self true 1
                              a b true s)
              (fun a b s => minimax_with_game hash unbounded self false 1
                              a b true s)
              (fun _ s s' E => table_fits_table D _ s s' E)
              moves [] PosInf alpha beta c1 (with_game u1 B)
              (sorted_moves_empty _ _) eq_refl eq_refl)
    as [Hs (pre & post & Hmoves & Hfin)].
  { exact (table_fits_mono D P _ c1 (fun B' HB => or_introl HB) Hst). }
  { intros pre mv post a b s_c s_u Hm Hgc Hgu Hi. cbn [app] in *.
    destruct (Hlegal mv) as [Hmin Hmz];
      [rewrite Hm; apply elem_of_app; right; apply elem_of_cons; by left|].
    destruct (inner1_agrees D (fun B' => P B' ∨ child_of B o pre B') a b true
                (place s_c mv o) (place s_u mv o)) as [Hr1 Hr2].
    - by rewrite !place_game, Hgc, Hgu.
    - by rewrite place_game, board_size_set_cell, Hgc.
    - rewrite place_game, Hgc. by apply well_formed_set_cell.
    - rewrite place_game, Hgc, count_nonzero_set_cell by done. lia.
    - rewrite place_game, Hgc. intros [HPm|(x & Hx & E)].
      + apply (HPc mv); [|done]. rewrite Hm. apply elem_of_app. right.
        apply elem_of_cons. by left.
      + assert (x ∈ moves) as Hxm by (rewrite Hm; apply elem_of_app; by left).
        destruct (Hlegal x Hxm) as [Hxin Hx0].
        apply set_cell_inj in E; [|done..]. subst x.
        rewrite Hm in Hnd. apply NoDup_app in Hnd as (_ & Hnd & _).
        apply (Hnd mv Hx). apply elem_of_cons. by left.
    - by apply (table_fits_table D _ s_c).
    - split; [done|].
      apply (table_fits_mono D
               (fun B' => (P B' ∨ child_of B o pre B')
                          ∨ B' = game (place s_c mv o))); [|done].
      intros B' [[HB|HB]|HB]; [by left| |].
      + right. apply (child_of_mono B o pre); [|done].
        intros x Hx. apply elem_of_app. by left.
      + right. exists mv. split; [apply elem_of_app; right; by left|].
        by rewrite HB, place_game, Hgc. }
  destruct (min_loop _ _ _ _ _ _ c1) as [s1 c3].
  destruct (min_loop _ _ _ _ _ _ (with_game u1 _)) as [s2 u3].
  cbn [fst snd app] in *. split; [done|].
  apply (table_fits_mono D
           (fun B' => (P B' ∨ child_of B o pre B') ∨ B' = B)).
  - intros B' [[HB|HB]|HB]; [by left| |by right; left].
    right; right. apply (child_of_mono B o pre); [|done].
    intros x Hx. rewrite Hmoves. apply elem_of_app. by left.
  - apply table_fits_store_inner; [done|done|done|lia|lia].
Qed.

Lemma has_stone_at_mono (v : Z) (l l' : list (Z * Z)) (B : GomokuGame) :
  (forall x, x ∈ l -> x ∈ l') -> has_stone_at v l B -> has_stone_at v l' B.
Proof. intros Hl (a & Ha & E). exists a. auto. Qed.

Lemma root_child_agrees (D : nat) (done : list (Z * Z)) (a : Z * Z)
    (alpha : score) (st_c st_u : state) :
  (1 <= D <= 3)%nat -> well_formed g ->
  a ∉ done ->
  (forall x, x ∈ done ++ [a] ->
     in_bounds g x.1 x.2 = true ∧ cell g x.1 x.2 = 0) ->
  game st_c = g -> game st_u = g ->
  fits D (has_stone_at (player_id self) done) st_c ->
  (search true (Nat.pred D) alpha PosInf false
     (place st_c a (player_id self))).1
  = (search false (Nat.pred D) alpha PosInf false
       (place st_u a (player_id self))).1
  ∧ fits D (has_stone_at (player_id self) (done ++ [a]))
      (search true (Nat.pred D) alpha PosInf false
         (place st_c a (player_id self))).2.
Proof.
  intros HD Hwf Hnew Hlegal Hgc Hgu Hst.
  set (p := player_id self) in *.
  set (Ba := set_cell g a.1 a.2 p).
  destruct (Hlegal a) as [Hain Ha0]; [apply elem_of_app; right; by left|].
  assert (game (place st_u a p) = game (place st_c a p)) as Hgame
    by by rewrite !place_game, Hgc, Hgu.
  assert (game (place st_c a p) = Ba) as HBa by by rewrite place_game, Hgc.
  assert (board_size Ba = board_size g) as Hn by apply board_size_set_cell.
  assert (well_formed Ba) as HwfB by by apply well_formed_set_cell.
  assert (count_nonzero Ba = count_nonzero g + 1) as Hcount
    by by apply count_nonzero_set_cell.
  assert (cell Ba a.1 a.2 = p) as Hcell by by apply cell_set_cell_eq.
  assert (fits D (has_stone_at p done) (place st_c a p)) as Hst1
    by by apply (table_fits_table D _ st_c).
  assert (forall x, x ∈ done -> cell Ba x.1 x.2 = 0) as Hdone.
  { intros x Hx. destruct (Hlegal x) as [Hxin Hx0];
      [apply elem_of_app; by left|].
    unfold Ba. rewrite cell_set_cell_ne; [done|done|done|].
    intros E. apply Hnew. destruct x, a. cbn [fst snd] in *.
    by injection E as -> ->. }
  assert (¬ has_stone_at p done Ba) as HnotP.
  { intros (x & Hx & E). rewrite (Hdone x Hx) in E. by apply player_not_0. }
  assert (D = 1 ∨ D = 2 ∨ D = 3)%nat as HDc by lia.
  destruct HDc as [-> | [-> | ->]]; cbn [Nat.pred].
  - destruct (leaf_agrees 1 (has_stone_at p done) alpha PosInf false
                (place st_c a p) (place st_u a p)) as [Hr1 Hr2];
      [done|by rewrite HBa|rewrite HBa; lia|done|].
    split; [done|].
    apply (table_fits_mono 1 (has_stone_at p done)); [|done].
    intros B'. apply has_stone_at_mono. intros x Hx.
    apply elem_of_app. by left.
  - destruct (inner1_agrees 2 (has_stone_at p done) alpha PosInf false
                (place st_c a p) (place st_u a p)) as [Hr1 Hr2];
      [done|by rewrite HBa|by rewrite HBa|rewrite HBa; lia
      |by rewrite HBa|done|].
    split; [done|].
    apply (table_fits_mono 2
             (fun B' => has_stone_at p done B' ∨ B' = game (place st_c a p)));
      [|done].
    intros B' [HB | ->].
    + apply (has_stone_at_mono p done); [|done].
      intros x Hx. apply elem_of_app. by left.
    + exists a. split; [apply elem_of_app; right; by left|by rewrite HBa].
  - destruct (inner2_agrees 3 (has_stone_at p done) alpha PosInf
                (place st_c a p) (place st_u a p)) as [Hr1 Hr2];
      [done|by rewrite HBa|by rewrite HBa|rewrite HBa; lia
      |by rewrite HBa| |done|].
    { rewrite HBa. intros b Hb (x & Hx & E).
      apply sorted_moves_legal in Hb as [Hbin Hb0].
      destruct (Hlegal x) as [Hxin Hx0]; [apply elem_of_app; by left|].
      destruct (decide (x = b)) as [->|Hne].
      - rewrite cell_set_cell_eq in E by done.
        unfold opponent_id in E. fold p in E. lia.
      - rewrite cell_set_cell_ne in E; [|done| |].
        + rewrite (Hdone x Hx) in E. by apply player_not_0.
        + unfold Ba. by rewrite in_bounds_set_cell.
        + intros E'. apply Hne. destruct x, b. cbn [fst snd] in *.
          by injection E' as -> ->. }
    split; [done|].
    apply (table_fits_mono 3
             (fun B' => has_stone_at p done B'
                        ∨ B' = game (place st_c a p)
                        ∨ child_of (game (place st_c a p)) (opponent_id self)
                            (sorted_moves (player_id self)
                               (game (place st_c a p))) B'));
      [|done].
    rewrite HBa. intros B' [HB | [-> | (b & Hb & ->)]].
    + apply (has_stone_at_mono p done); [|done].
      intros x Hx. apply elem_of_app. by left.
    + exists a. split; [apply elem_of_app; right; by left|done].
    + exists a. split; [apply elem_of_app; right; by left|].
      apply sorted_moves_legal in Hb as [Hbin Hb0].
      rewrite cell_set_cell_ne; [done|done| |].
      * unfold Ba. by rewrite in_bounds_set_cell.
      * intros E. rewrite <- Hcell in player_not_0.
        apply player_not_0. destruct a, b. cbn [fst snd] in *.
        injection E as -> ->. done.
Qed.

Lemma root_loop_agrees (D : nat) :
  (1 <= D <= 3)%nat -> well_formed g ->
  forall (moves done : list (Z * Z)) (bm : Z * Z) (bs alpha : score)
         (st_c st_u : state),
    NoDup (done ++ moves) ->
    (forall x, x ∈ done ++ moves ->
       in_bounds g x.1 x.2 = true ∧ cell g x.1 x.2 = 0) ->
    game st_c = g -> game st_u = g ->
    fits D (has_stone_at (player_id self) done) st_c ->
    (root_loop hash unbounded self true D moves bm bs alpha st_c).1
    = (root_loop hash unbounded self false D moves bm bs alpha st_u).1
    ∧ game (root_loop hash unbounded self true D moves bm bs alpha st_c).2
      = g
    ∧ game (root_loop hash unbounded self false D moves bm bs alpha st_u).2
      = g
    ∧ fits D (has_stone_at (player_id self) (done ++ moves))
        (root_loop hash unbounded self true D moves bm bs alpha st_c).2.
Proof.
  intros HD Hwf. induction moves as [|a rest IH];
    intros done bm bs alpha st_c st_u Hnd Hlegal Hgc Hgu Hst.
  - cbn [root_loop fst snd]. rewrite app_nil_r. done.
  - cbn [root_loop]. cbv zeta.
    assert (a ∉ done) as Hnew.
    { apply NoDup_app in Hnd as (_ & Hnd & _). intros Ha.
      apply (Hnd a Ha). by left. }
    destruct (Hlegal a) as [Hain Ha0]; [apply elem_of_app; right; by left|].
    destruct (root_child_agrees D done a alpha st_c st_u HD Hwf Hnew)
      as [Hs Hfit]; [|done|done|done|].
    { intros x Hx. apply Hlegal. apply elem_of_app in Hx as [Hx|Hx];
        apply elem_of_app; [by left|right].
      apply list_elem_of_singleton in Hx as ->. by left. }
    pose proof (minimax_with_game hash unbounded self true (Nat.pred D) alpha
                  PosInf false (place st_c a (player_id self))) as Hg2c.
    pose proof (minimax_with_game hash unbounded self false (Nat.pred D) alpha
                  PosInf false (place st_u a (player_id self))) as Hg2u.
    rewrite place_game in Hg2c, Hg2u. rewrite Hgc in Hg2c. rewrite Hgu in Hg2u.
    destruct (minimax_with hash unbounded self true _ _ _ _ _) as [s c2].
    destruct (minimax_with hash unbounded self false _ _ _ _ _) as [s' u2].
    cbn [fst snd] in *. subst s'.
    assert (game (tick (place c2 a 0)) = g) as Hg3c
      by exact (place_back c2 g a (player_id self) Ha0 Hg2c).
    assert (game (tick (place u2 a 0)) = g) as Hg3u
      by exact (place_back u2 g a (player_id self) Ha0 Hg2u).
    assert (fits D (has_stone_at (player_id self) (done ++ [a]))
              (tick (place c2 a 0))) as Hfit3
      by by apply (table_fits_table D _ c2).
    assert (NoDup ((done ++ [a]) ++ rest)) as Hnd'
      by by rewrite <- app_assoc.
    assert (forall x, x ∈ (done ++ [a]) ++ rest ->
              in_bounds g x.1 x.2 = true ∧ cell g x.1 x.2 = 0) as Hlegal'
      by by rewrite <- app_assoc.
    unfold out_of_time, unbounded. cbv beta iota.
    replace (done ++ a :: rest) with ((done ++ [a]) ++ rest)
      by by rewrite <- app_assoc.
    destruct (score_ltb bs s); cbv beta iota; by apply IH.
Qed.

Lemma deepen_agrees (vm : list (Z * Z)) :
  well_formed g -> NoDup vm ->
  (forall x, x ∈ vm -> in_bounds g x.1 x.2 = true ∧ cell g x.1 x.2 = 0) ->
  forall (k D0 : nat) (bm : Z * Z) (bs : score) (st_c st_u : state),
    (1 <= D0)%nat -> (D0 + k <= 4)%nat ->
    game st_c = g -> game st_u = g ->
    fits D0 (fun _ => False) st_c ->
    (deepen hash unbounded self true (seq D0 k) vm bm bs st_c).1
    = (deepen hash unbounded self false (seq D0 k) vm bm bs st_u).1.
Proof.
  intros Hwf Hnd Hlegal. induction k as [|k IH];
    intros D0 bm bs st_c st_u HD0 HDk Hgc Hgu Hst; [done|].
  cbn [seq deepen]. unfold out_of_time.
  change (unbounded (clock_reads st_c)) with false.
  change (unbounded (clock_reads st_u)) with false. cbv beta iota.
  destruct (root_loop_agrees D0 ltac:(lia) Hwf vm [] bm NegInf NegInf
              (tick st_c) (tick st_u) Hnd Hlegal Hgc Hgu)
    as (Hr & Hg2c & Hg2u & Hfit).
  { apply (table_fits_mono D0 (fun _ => False)); [done|].
    by apply (table_fits_table D0 _ st_c). }
  destruct (root_loop hash unbounded self true _ _ _ _ _ _) as [[bm1 bs1] c2].
  destruct (root_loop hash unbounded self false _ _ _ _ _ _)
    as [[bm2 bs2] u2].
  cbn [fst snd] in *. injection Hr as -> ->.
  apply IH; [lia|lia|done|done|].
  by apply (table_fits_next D0 (has_stone_at (player_id self) vm)).
Qed.

Lemma choose_move_with_agrees :
  well_formed g -> (max_depth self <= 3)%nat ->
  (choose_move_with hash unbounded self true g).1
  = (choose_move_with hash unbounded self false g).1.
Proof.
  intros Hwf Hd. unfold choose_move_with. rewrite get_sorted_moves_pure.
  pose proof (sorted_moves_NoDup (player_id self) g) as Hnd.
  pose proof (fun x => sorted_moves_legal (player_id self) g x) as Hlegal.
  destruct (sorted_moves (player_id self) g) as [|first rest]; [done|].
  destruct (count_nonzero g =? 0); [done|].
  destruct (if count_nonzero g =? 1 then _ else _); [done|].
  pose proof (deepen_agrees (first :: rest) Hwf Hnd Hlegal (max_depth self) 1
                first NegInf
                {| game := g; nodes_evaluated := 0;
                   transposition_table := ∅; clock_reads := 0 |}
                {| game := g; nodes_evaluated := 0;
                   transposition_table := ∅; clock_reads := 0 |}
                ltac:(lia) ltac:(lia) eq_refl eq_refl) as Hdeep.
  destruct (deepen hash unbounded self true _ _ _ _ _) as [[bm1 bs1] c2].
  destruct (deepen hash unbounded self false _ _ _ _ _) as [[bm2 bs2] u2].
  cbn [fst snd] in *.
  assert ((bm1, bs1) = (bm2, bs2)) as [= -> ->]; [|done].
  apply Hdeep. intros k e Hk. cbn in Hk. by rewrite lookup_empty in Hk.
Qed.

(** X20. With collision-free keys and a clock that never runs out, a
    search of depth at most three is not affected by the transposition
    table: on a board with at least two stones and an Empty cell,
    [choose_move] of an AI with [1 <= max_depth <= 3] returns the move
    and the score of the exhaustive minimax of depth [max_depth] over the
    generated moves. *)
Theorem shallow_search_exhaustive :
  well_formed g ->
  (1 <= max_depth self <= 3)%nat ->
  2 <= count_nonzero g ->
  get_valid_moves g ≠ [] ->
  exists move s,
    exhaustive_choice self (max_depth self) g = Some (move, s)
    ∧ choose_move hash unbounded self g = Some move
    ∧ (choose_move_with hash unbounded self true g).1 = (Some move, s).
Proof.
  intros Hwf Hd Hcount Hv.
  destruct (choose_move_nocache_exhaustive hash self g ltac:(lia) Hcount Hv)
    as (move & s & Hex & Hun).
  exists move, s. split; [done|].
  unfold choose_move. rewrite choose_move_with_agrees, Hun by (done || lia).
  done.
Qed.

End Shallow.

(** ** The theorems on the game object and the generator at concrete
    inputs *)

Lemma check_win_spec_witness :
  in_bounds (set_cell double_threat 0 0 2) 0 0 = true
  ∧ (check_win (set_cell double_threat 0 0 2) 0 0 = true ↔
     exists r c d k, unit_step d ∧ 0 <= k <= 4
       ∧ (0, 0) = (r + k * d.1, c + k * d.2)
       ∧ five_at (set_cell double_threat 0 0 2)
           (cell (set_cell double_threat 0 0 2) 0 0) r c d.1 d.2).
Proof.
  assert (H : in_bounds (set_cell double_threat 0 0 2) 0 0 = true)
    by reflexivity.
  split; [done |].
  exact (check_win_spec (set_cell double_threat 0 0 2) 0 0 H).
Defined.

Lemma check_winner_after_move_witness :
  (well_formed double_threat
   ∧ check_winner double_threat = None
   ∧ is_valid_move double_threat 0 0 = true
   ∧ 2 ≠ 0)
  ∧ check_winner (set_cell double_threat 0 0 2)
    = (if check_win (set_cell double_threat 0 0 2) 0 0 then Some 2
       else None).
Proof.
  assert (H1 : well_formed double_threat) by (split; [done | reflexivity]).
  assert (H2 : check_winner double_threat = None)
    by (vm_compute; reflexivity).
  assert (H3 : is_valid_move double_threat 0 0 = true) by reflexivity.
  assert (H4 : 2 ≠ 0) by done.
  split; [done |].
  exact (proj1 (check_winner_after_move double_threat 0 0 2 H1 H2 H3 H4)).
Defined.

Lemma board_full_tests_agree_witness :
  0 <= board_size double_threat
  ∧ count_nonzero double_threat
    + Z.of_nat (length (get_valid_moves double_threat))
    = board_size double_threat * board_size double_threat.
Proof.
  assert (H : 0 <= board_size double_threat) by (simpl; lia).
  split; [done |].
  exact (proj1 (board_full_tests_agree double_threat H)).
Defined.

Lemma make_move_outcome_witness :
  game_invariant (start_game 5)
  ∧ (make_move (start_game 5) 2 2).1
    = is_valid_move (position (start_game 5)) 2 2
      && negb (game_over (start_game 5)).
Proof.
  assert (H : game_invariant (start_game 5))
    by (apply start_game_invariant; lia).
  split; [done |].
  exact (proj1 (make_move_outcome (start_game 5) 2 2 H)).
Defined.

Lemma reachable_invariant_witness :
  (0 < 5 ∧ reachable 5 (make_move (start_game 5) 2 2).2)
  ∧ board_size (position (make_move (start_game 5) 2 2).2) = 5
  ∧ game_invariant (make_move (start_game 5) 2 2).2.
Proof.
  assert (H1 : 0 < 5) by lia.
  assert (H2 : reachable 5 (make_move (start_game 5) 2 2).2)
    by (apply reachable_move, reachable_start).
  split; [done |].
  exact (reachable_invariant 5 (make_move (start_game 5) 2 2).2 H1 H2).
Defined.

Lemma reachable_turns_witness :
  (0 < 5 ∧ reachable 5 (make_move (start_game 5) 2 2).2)
  ∧ turns_recorded (make_move (start_game 5) 2 2).2.
Proof.
  assert (H1 : 0 < 5) by lia.
  assert (H2 : reachable 5 (make_move (start_game 5) 2 2).2)
    by (apply reachable_move, reachable_start).
  split; [done |].
  exact (reachable_turns 5 (make_move (start_game 5) 2 2).2 H1 H2).
Defined.

Lemma ai_move_plays_witness :
  (game_invariant (start_game 5) ∧ game_over (start_game 5) = false)
  ∧ exists row col gs',
      choose_move board_key unbounded (white_ai 3) (position (start_game 5))
      = Some (row, col)
      ∧ is_valid_move (position (start_game 5)) row col = true
      ∧ make_move (start_game 5) row col = (true, gs')
      ∧ ai_move board_key unbounded (white_ai 3) (start_game 5) = Some gs'
      ∧ game_invariant gs'.
Proof.
  assert (H1 : game_invariant (start_game 5))
    by (apply start_game_invariant; lia).
  assert (H2 : game_over (start_game 5) = false) by reflexivity.
  split; [done |].
  exact (ai_move_plays board_key unbounded (white_ai 3) (start_game 5)
           H1 H2).
Defined.

Lemma gui_click_round_witness :
  (0 < 10 ∧ 50 ≠ 0
   ∧ gui_reachable board_key (white_ai 3) 50 10 (start_game 10))
  ∧ game_invariant (start_game 10).
Proof.
  assert (H1 : 0 < 10) by lia.
  assert (H2 : 50 ≠ 0) by done.
  assert (H3 : gui_reachable board_key (white_ai 3) 50 10 (start_game 10))
    by apply gui_start.
  split; [done |].
  exact (proj1 (gui_click_round board_key (white_ai 3) 50 10 (start_game 10)
                  H1 H2 H3)).
Defined.

Lemma evaluate_colour_blind_witness :
  (2 ≠ 0 ∧ 2 ≠ 3)
  ∧ evaluate (3 - 2) (swap_stones 2 double_threat) = evaluate 2 double_threat.
Proof.
  assert (H1 : 2 ≠ 0) by done.
  assert (H2 : 2 ≠ 3) by done.
  split; [done |].
  exact (proj2 (evaluate_colour_blind 2 double_threat H1 H2)).
Defined.

Lemma choose_move_unsearched_witness :
  ((max_depth (white_ai 0) = 0%nat ∨ unbounded 0%nat = true)
   ∧ 2 <= count_nonzero double_threat
   ∧ get_valid_moves double_threat ≠ [])
  ∧ exists first rest,
      (get_sorted_moves (player_id (white_ai 0)) double_threat).1
      = first :: rest
      ∧ choose_move board_key unbounded (white_ai 0) double_threat
        = Some first
      ∧ nodes_evaluated
          (choose_move_with board_key unbounded (white_ai 0) true
             double_threat).2 = 0%nat.
Proof.
  assert (H1 : max_depth (white_ai 0) = 0%nat ∨ unbounded 0%nat = true)
    by (left; reflexivity).
  assert (H2 : 2 <= count_nonzero double_threat) by (vm_compute; discriminate).
  assert (H3 : get_valid_moves double_threat ≠ [])
    by (vm_compute; discriminate).
  split; [done |].
  exact (choose_move_unsearched board_key unbounded (white_ai 0)
           double_threat H1 H2 H3).
Defined.

Lemma move_key_defence_witness :
  (1 <= 100 ∧ 100 <= 100)
  ∧ move_key 100 100 = float_mul_1_1 100
  ∧ 100 * 2 ^ 52 < move_key 100 100.
Proof.
  assert (H1 : 1 <= 100) by lia.
  assert (H2 : 100 <= 100) by lia.
  split; [done |].
  exact (move_key_defence 100 100 H1 H2).
Defined.

Lemma shallow_search_exhaustive_witness :
  (collision_free board_key
   ∧ player_id (white_ai 3) ≠ 0
   ∧ player_id (white_ai 3) ≠ 3
   ∧ well_formed double_threat
   ∧ (1 <= max_depth (white_ai 3) <= 3)%nat
   ∧ 2 <= count_nonzero double_threat
   ∧ get_valid_moves double_threat ≠ [])
  ∧ exists move s,
      exhaustive_choice (white_ai 3) (max_depth (white_ai 3)) double_threat
      = Some (move, s)
      ∧ choose_move board_key unbounded (white_ai 3) double_threat
        = Some move
      ∧ (choose_move_with board_key unbounded (white_ai 3) true
           double_threat).1 = (Some move, s).
Proof.
  assert (H1 : collision_free board_key) by apply board_key_collision_free.
  assert (H2 : player_id (white_ai 3) ≠ 0) by done.
  assert (H3 : player_id (white_ai 3) ≠ 3) by done.
  assert (H4 : well_formed double_threat) by (split; [done | reflexivity]).
  assert (H5 : (1 <= max_depth (white_ai 3) <= 3)%nat) by (simpl; lia).
  assert (H6 : 2 <= count_nonzero double_threat)
    by (vm_compute; discriminate).
  assert (H7 : get_valid_moves double_threat ≠ [])
    by (vm_compute; discriminate).
  split; [done |].
  exact (shallow_search_exhaustive board_key (white_ai 3) double_threat
           H1 H2 H3 H4 H5 H6 H7).
Defined.
